(** * ByteQueue: byte queues in a fixed pool of 64 fragments

    A shallow embedding of [ByteQueue.cpp] and the verification of its
    specification.

    The 2048-byte pool is a list of 64 chunks.  A chunk is the union of the
    source: either the [whenUsed] struct (four tracking chars and 28 queue
    bytes) or the free-list link [next].  Pointers to fragments are
    [option nat]: [None] is [nullptr], [Some i] is the address of the i-th
    fragment of the pool.  [char] is a signed 8-bit integer, written as a [Z]
    with its wrap-around.

    Every operation runs in the monad [M]: it threads the pool, collects what
    the program prints, and is undefined ([None]) where the C++ program has no
    defined behaviour: dereferencing [nullptr], reading a member of the union
    that is not the active one, indexing outside [bytes] or outside the pool. *)

From stdpp Require Import list.
From Stdlib Require Import ZArith Lia.

Local Open Scope Z_scope.

(** ** Integer conversions *)

Definition to_char (x : Z) : Z := (x + 128) `mod` 256 - 128.
Definition to_uchar (x : Z) : Z := x `mod` 256.
Definition to_size_t (x : Z) : Z := x `mod` 2 ^ 64.

(** ** Data model *)

Record WhenUsed := mkWhenUsed {
  m_backFragmentIdx : Z;
  m_nextFragmentIdx : Z;
  m_frontItemIdx : Z;
  m_backItemIdx : Z;
  bytes : list Z
}.

Inductive Chunk :=
| whenUsed (u : WhenUsed)
| next (p : option nat).

Record FragmentPool := mkPool {
  data : list Chunk;
  nextFreeFragment : option nat
}.

(** What the program writes to standard output. *)
Inductive Stdout :=
| out_of_memory_msg      (* "[!] out of memory, no queue created" *)
| queue_empty_msg        (* "[!] queue empty, no byte dequeued" *)
| printed (d : Z)        (* printf("%d", d) *)
| newline.

(** ** The monad of pool operations *)

Definition M (A : Type) : Type :=
  FragmentPool -> option (A * FragmentPool * list Stdout).

Definition ret {A} (a : A) : M A := fun s => Some (a, s, []).

Definition bind {A B} (m : M A) (k : A -> M B) : M B := fun s =>
  match m s with
  | None => None
  | Some (a, s1, o1) =>
      match k a s1 with
      | None => None
      | Some (b, s2, o2) => Some (b, s2, o1 ++ o2)
      end
  end.

Notation "x <- m ;; k" := (bind m (fun x => k))
  (at level 100, m at next level, right associativity, only parsing).
Notation "m ;; k" := (bind m (fun _ => k))
  (at level 100, right associativity, only parsing).

Definition undefined {A} : M A := fun _ => None.

Definition printf (o : Stdout) : M unit := fun s => Some (tt, s, [o]).

Definition load (i : nat) : M Chunk := fun s =>
  match data s !! i with
  | Some c => Some (c, s, [])
  | None => None
  end.

Definition store (i : nat) (c : Chunk) : M unit := fun s =>
  if decide (i < length (data s))%nat
  then Some (tt, mkPool (<[i := c]> (data s)) (nextFreeFragment s), [])
  else None.

Definition get_nextFreeFragment : M (option nat) :=
  fun s => Some (nextFreeFragment s, s, []).

Definition set_nextFreeFragment (p : option nat) : M unit :=
  fun s => Some (tt, mkPool (data s) p, []).

(** ** Errors *)

Definition on_out_of_memory : M unit := printf out_of_memory_msg.
Definition on_illegal_operation : M unit := printf queue_empty_msg.

(** ** ByteQueueFragment *)

(** [this->chunk.whenUsed], read. *)
Definition chunk_whenUsed (this : option nat) : M WhenUsed :=
  match this with
  | None => undefined
  | Some i =>
      c <- load i ;;
      match c with
      | whenUsed u => ret u
      | next _ => undefined
      end
  end.

(** [this->chunk.next], read. *)
Definition chunk_next (this : option nat) : M (option nat) :=
  match this with
  | None => undefined
  | Some i =>
      c <- load i ;;
      match c with
      | next p => ret p
      | whenUsed _ => undefined
      end
  end.

(** A store to one member of [this->chunk.whenUsed]. *)
Definition update_whenUsed (this : option nat) (f : WhenUsed -> WhenUsed)
  : M unit :=
  match this with
  | None => undefined
  | Some i => u <- chunk_whenUsed this ;; store i (whenUsed (f u))
  end.

Definition getBackFragmentIdx (this : option nat) : M Z :=
  u <- chunk_whenUsed this ;; ret (m_backFragmentIdx u).

Definition getNextFragmentIdx (this : option nat) : M Z :=
  u <- chunk_whenUsed this ;; ret (m_nextFragmentIdx u).

Definition getFrontItemIdx (this : option nat) : M Z :=
  u <- chunk_whenUsed this ;; ret (m_frontItemIdx u).

Definition getBackItemIdx (this : option nat) : M Z :=
  u <- chunk_whenUsed this ;; ret (m_backItemIdx u).

(** [bytes[idx]]: the index must lie in the array. *)
Definition getByte (this : option nat) (idx : Z) : M Z :=
  u <- chunk_whenUsed this ;;
  if decide (0 <= idx < 28)
  then match bytes u !! Z.to_nat idx with
       | Some b => ret b
       | None => undefined
       end
  else undefined.

Definition getFrontByte (this : option nat) : M Z :=
  idx <- getFrontItemIdx this ;; getByte this idx.

(** [pool.getPointerAtIndex(idx)]: pointer arithmetic inside [data]. *)
Definition getPointerAtIndex (idx : Z) : M (option nat) :=
  if decide (0 <= idx < 64) then ret (Some (Z.to_nat idx)) else undefined.

(** [pool.getIndexInPool(ptr)]: the pointer difference, converted to char. *)
Definition getIndexInPool (ptr : option nat) : M Z :=
  match ptr with
  | None => undefined
  | Some i => ret (to_char (Z.of_nat i))
  end.

Definition getBackFragment (this : option nat) : M (option nat) :=
  idx <- getBackFragmentIdx this ;;
  if decide (idx = -1) then ret None
  else idx <- getBackFragmentIdx this ;; getPointerAtIndex idx.

Definition getNextFragment (this : option nat) : M (option nat) :=
  idx <- getNextFragmentIdx this ;;
  if decide (idx = -1) then ret None
  else idx <- getNextFragmentIdx this ;; getPointerAtIndex idx.

Definition setBackFragmentIdx (this : option nat) (backFragmentIdx : Z)
  : M unit :=
  update_whenUsed this (fun u =>
    mkWhenUsed backFragmentIdx (m_nextFragmentIdx u) (m_frontItemIdx u)
               (m_backItemIdx u) (bytes u)).

Definition setNextFragmentIdx (this : option nat) (nextFragmentIdx : Z)
  : M unit :=
  update_whenUsed this (fun u =>
    mkWhenUsed (m_backFragmentIdx u) nextFragmentIdx (m_frontItemIdx u)
               (m_backItemIdx u) (bytes u)).

Definition setFrontItemIdx (this : option nat) (frontItemIdx : Z) : M unit :=
  update_whenUsed this (fun u =>
    mkWhenUsed (m_backFragmentIdx u) (m_nextFragmentIdx u) frontItemIdx
               (m_backItemIdx u) (bytes u)).

Definition setBackItemIdx (this : option nat) (backItemIdx : Z) : M unit :=
  update_whenUsed this (fun u =>
    mkWhenUsed (m_backFragmentIdx u) (m_nextFragmentIdx u) (m_frontItemIdx u)
               backItemIdx (bytes u)).

Definition incrementFrontItemIdx (this : option nat) : M unit :=
  update_whenUsed this (fun u =>
    mkWhenUsed (m_backFragmentIdx u) (m_nextFragmentIdx u)
               (to_char (m_frontItemIdx u + 1)) (m_backItemIdx u) (bytes u)).

Definition incrementBackItemIdx (this : option nat) : M unit :=
  update_whenUsed this (fun u =>
    mkWhenUsed (m_backFragmentIdx u) (m_nextFragmentIdx u) (m_frontItemIdx u)
               (to_char (m_backItemIdx u + 1)) (bytes u)).

(** [bytes[idx] = byte]: [byte] arrives as a char and is stored as an
    unsigned char; the index must lie in the array. *)
Definition setByte (this : option nat) (idx : Z) (byte : Z) : M unit :=
  if decide (0 <= idx < 28)
  then update_whenUsed this (fun u =>
         mkWhenUsed (m_backFragmentIdx u) (m_nextFragmentIdx u)
                    (m_frontItemIdx u) (m_backItemIdx u)
                    (<[Z.to_nat idx := to_uchar (to_char byte)]> (bytes u)))
  else undefined.

Definition isEmpty (this : option nat) : M bool :=
  f <- getFrontItemIdx this ;;
  if decide (f = -1) then ret true
  else b <- getBackItemIdx this ;;
       f <- getFrontItemIdx this ;;
       ret (bool_decide (b < f)).

(** The char is compared with [sizeof(bytes) - 1], a [size_t]. *)
Definition isFrontItemAtEnd (this : option nat) : M bool :=
  f <- getFrontItemIdx this ;; ret (bool_decide (to_size_t f = 28 - 1)).

Definition isBackItemAtEnd (this : option nat) : M bool :=
  b <- getBackItemIdx this ;; ret (bool_decide (to_size_t b = 28 - 1)).

(** [chunk.next = nextFragment]: the link becomes the active member. *)
Definition setNextFree (this : option nat) (nextFragment : option nat)
  : M unit :=
  match this with
  | None => undefined
  | Some i => store i (next nextFragment)
  end.

(** The stores that construct a fragment in newly allocated memory
    ([setBackFragmentIdx], [setNextFragmentIdx], [setFrontItemIdx],
    [setBackItemIdx], [clearBytes] and, in [enqueue_byte], [setByte(0, _)])
    assign every member of [whenUsed]; together they are one store of the
    struct, which makes [whenUsed] the active member of the union. *)
Definition construct (this : option nat) (u : WhenUsed) : M unit :=
  match this with
  | None => undefined
  | Some i => store i (whenUsed u)
  end.

(** ** FragmentPool *)

Definition numFragments : nat := 2048 / 32.

(** 32 zero bytes, as [memset] leaves them. *)
Definition erased : Chunk := whenUsed (mkWhenUsed 0 0 0 0 (replicate 28 0)).

Definition eraseFragment (ptr : option nat) : M unit :=
  match ptr with
  | None => undefined
  | Some i => store i erased
  end.

Definition erasePool : list Chunk := replicate numFragments erased.

(** The constructor [FragmentPool::FragmentPool()]. *)
Definition FragmentPool_new : FragmentPool :=
  let linked :=
    foldl (fun d i => <[(i - 1)%nat := next (Some i)]> d) erasePool
          (seq 1 (numFragments - 1)) in
  mkPool (<[(numFragments - 1)%nat := next None]> linked) (Some 0%nat).

Definition allocate : M (option nat) :=
  head <- get_nextFreeFragment ;;
  match head with
  | None => on_out_of_memory ;; ret None
  | Some freeFragment =>
      n <- chunk_next head ;;
      set_nextFreeFragment n ;;
      ret (Some freeFragment)
  end.

Definition deallocate (ptr : option nat) : M unit :=
  eraseFragment ptr ;;
  head <- get_nextFreeFragment ;;
  setNextFree ptr head ;;
  set_nextFreeFragment ptr.

(** ** Operations *)

Definition create_queue : M (option nat) :=
  newFragment <- allocate ;;
  match newFragment with
  | None => ret None
  | Some _ =>
      indexInPool <- getIndexInPool newFragment ;;
      construct newFragment
        (mkWhenUsed indexInPool (-1) (-1) (-1) (replicate 28 0)) ;;
      ret newFragment
  end.

(** The part of [enqueue_byte] after the handle is known not to be null. *)
Definition enqueue_byte_at (front : option nat) (byte : Z)
  : M (option nat) :=
  currentBack <- getBackFragment front ;;
  atEnd <- isBackItemAtEnd currentBack ;;
  if atEnd then
    newBack <- allocate ;;
    match newBack with
    | None => ret front
    | Some _ =>
        newBackFragmentIdx <- getIndexInPool newBack ;;
        setBackFragmentIdx front newBackFragmentIdx ;;
        setNextFragmentIdx currentBack newBackFragmentIdx ;;
        construct newBack
          (mkWhenUsed (-1) (-1) (-1) 0
             (<[0%nat := to_uchar (to_char byte)]> (replicate 28 0))) ;;
        ret front
    end
  else
    f <- getFrontItemIdx front ;;
    if decide (f = -1) then
      setFrontItemIdx front 0 ;;
      setBackItemIdx front 0 ;;
      setByte front 0 byte ;;
      ret front
    else
      incrementBackItemIdx currentBack ;;
      idx <- getBackItemIdx currentBack ;;
      setByte currentBack idx byte ;;
      ret front.

(** [enqueue_byte(front, byte)]; the result is the value of [front] after
    the call. *)
Definition enqueue_byte (front : option nat) (byte : Z) : M (option nat) :=
  match front with
  | None =>
      front <- create_queue ;;
      match front with
      | None => ret None
      | Some _ => enqueue_byte_at front byte
      end
  | Some _ => enqueue_byte_at front byte
  end.

(** [dequeue_byte(front)]: the byte returned and the value of [front] after
    the call. *)
Definition dequeue_byte (front : option nat) : M (Z * option nat) :=
  empty <- match front with
           | None => ret true
           | Some _ => isEmpty front
           end ;;
  if (empty : bool) then
    on_illegal_operation ;; ret (0, front)
  else
    dequeuedByte <- getFrontByte front ;;
    atEnd <- isFrontItemAtEnd front ;;
    if (atEnd : bool) then
      n <- getNextFragmentIdx front ;;
      if decide (n = -1) then
        deallocate front ;;
        ret (dequeuedByte, None)
      else
        newFront <- getNextFragment front ;;
        b <- getBackFragmentIdx front ;;
        setBackFragmentIdx newFront b ;;
        setFrontItemIdx newFront 0 ;;
        deallocate front ;;
        ret (dequeuedByte, newFront)
    else
      incrementFrontItemIdx front ;;
      empty <- isEmpty front ;;
      if (empty : bool) then
        deallocate front ;;
        ret (dequeuedByte, None)
      else ret (dequeuedByte, front).

(** [destroy_queue(front)]: the loop runs at most [fuel] times; without
    fuel left and with fragments left the result is undefined. *)
Fixpoint destroy_queue (fuel : nat) (front : option nat) : M (option nat) :=
  match front with
  | None => ret None
  | Some _ =>
      match fuel with
      | O => undefined
      | S fuel' =>
          let fragmentToDeallocate := front in
          front <- getNextFragment front ;;
          deallocate fragmentToDeallocate ;;
          destroy_queue fuel' front
      end
  end.

(** ** The test of [main] *)

Definition main : M Z :=
  q0 <- create_queue ;;
  q0 <- enqueue_byte q0 0 ;;
  q0 <- enqueue_byte q0 1 ;;
  q1 <- create_queue ;;
  q1 <- enqueue_byte q1 3 ;;
  q0 <- enqueue_byte q0 2 ;;
  q1 <- enqueue_byte q1 4 ;;
  r <- dequeue_byte q0 ;; printf (printed r.1) ;; let q0 := r.2 in
  r <- dequeue_byte q0 ;; printf (printed r.1) ;; printf newline ;;
  let q0 := r.2 in
  q0 <- enqueue_byte q0 5 ;;
  q1 <- enqueue_byte q1 6 ;;
  r <- dequeue_byte q0 ;; printf (printed r.1) ;; let q0 := r.2 in
  r <- dequeue_byte q0 ;; printf (printed r.1) ;; printf newline ;;
  let q0 := r.2 in
  q0 <- destroy_queue 64 q0 ;;
  r <- dequeue_byte q1 ;; printf (printed r.1) ;; let q1 := r.2 in
  r <- dequeue_byte q1 ;; printf (printed r.1) ;; let q1 := r.2 in
  r <- dequeue_byte q1 ;; printf (printed r.1) ;; printf newline ;;
  let q1 := r.2 in
  q1 <- destroy_queue 64 q1 ;;
  ret 0.

(** ** Observations on a pool *)

(** The fragments on the free list, in order from [nextFreeFragment]. *)
Fixpoint free_walk (fuel : nat) (d : list Chunk) (p : option nat)
  : list nat :=
  match fuel, p with
  | S fuel', Some i =>
      i :: match d !! i with
           | Some (next q) => free_walk fuel' d q
           | _ => []
           end
  | _, _ => []
  end.

Definition free_list (s : FragmentPool) : list nat :=
  free_walk 64 (data s) (nextFreeFragment s).

(** The pointer that [getNextFragment] computes from the tracking byte. *)
Definition next_ptr (u : WhenUsed) : option nat :=
  if decide (m_nextFragmentIdx u = -1) then None
  else Some (Z.to_nat (m_nextFragmentIdx u)).

(** The fragments of a queue, from its front along [m_nextFragmentIdx]. *)
Fixpoint seg_walk (fuel : nat) (d : list Chunk) (p : option nat)
  : list nat :=
  match fuel, p with
  | S fuel', Some i =>
      i :: match d !! i with
           | Some (whenUsed u) => seg_walk fuel' d (next_ptr u)
           | _ => []
           end
  | _, _ => []
  end.

Definition segments (s : FragmentPool) (front : option nat) : list nat :=
  seg_walk 64 (data s) front.

(** The live bytes of a fragment: positions [m_frontItemIdx .. m_backItemIdx];
    a front index of -1 means that no byte of the fragment has been read, the
    live bytes then start at position 0. *)
Definition live (u : WhenUsed) : list Z :=
  take (Z.to_nat (m_backItemIdx u - Z.max 0 (m_frontItemIdx u) + 1))
       (drop (Z.to_nat (m_frontItemIdx u)) (bytes u)).

Definition live_at (d : list Chunk) (i : nat) : list Z :=
  match d !! i with
  | Some (whenUsed u) => live u
  | _ => []
  end.

Definition contents (d : list Chunk) (l : list nat) : list Z :=
  concat (map (live_at d) l).

(** The bytes a queue holds, oldest first. *)
Definition queue_bytes (s : FragmentPool) (front : option nat) : list Z :=
  contents (data s) (segments s front).

(** The front item index of the fragment a handle points to. *)
Definition front_idx (d : list Chunk) (h : option nat) : Z :=
  match h with
  | Some i =>
      match d !! i with
      | Some (whenUsed u) => m_frontItemIdx u
      | _ => -1
      end
  | None => -1
  end.

(** [isEmpty] as a property of the struct. *)
Definition logically_empty (u : WhenUsed) : Prop :=
  m_frontItemIdx u = -1 \/ m_backItemIdx u < m_frontItemIdx u.

(** The test of [enqueue_byte] that decides to allocate a new back. *)
Definition back_is_full (front : option nat) (s : FragmentPool) : Prop :=
  (currentBack <- getBackFragment front ;; isBackItemAtEnd currentBack) s
  = Some (true, s, []).

(** ** A client of the four operations

    The caller keeps its handles in variables; [Create] declares a new
    variable, the other operations name one by its position. *)

Record World := mkWorld {
  pool : FragmentPool;
  handles : list (option nat);
  dequeued : list Z;
  stdout : list Stdout
}.

Inductive Op :=
| Create
| Enqueue (q : nat) (byte : Z)
| Dequeue (q : nat)
| Destroy (q : nat).

Definition step (o : Op) (w : World) : option World :=
  match o with
  | Create =>
      '(h, s, out) ← create_queue (pool w);
      Some (mkWorld s (handles w ++ [h]) (dequeued w) (stdout w ++ out))
  | Enqueue q byte =>
      h ← handles w !! q;
      '(h', s, out) ← enqueue_byte h (to_uchar byte) (pool w);
      Some (mkWorld s (<[q := h']> (handles w)) (dequeued w)
                    (stdout w ++ out))
  | Dequeue q =>
      h ← handles w !! q;
      '(r, s, out) ← dequeue_byte h (pool w);
      Some (mkWorld s (<[q := r.2]> (handles w)) (dequeued w ++ [r.1])
                    (stdout w ++ out))
  | Destroy q =>
      h ← handles w !! q;
      '(h', s, out) ← destroy_queue 64 h (pool w);
      Some (mkWorld s (<[q := h']> (handles w)) (dequeued w)
                    (stdout w ++ out))
  end.

Fixpoint run (ops : list Op) (w : World) : option World :=
  match ops with
  | [] => Some w
  | o :: ops' => w' ← step o w; run ops' w'
  end.

Definition world0 : World := mkWorld FragmentPool_new [] [] [].

Definition reachable (w : World) : Prop :=
  exists ops, run ops world0 = Some w.

(** The operations of [main], in order. *)
Definition main_ops : list Op :=
  [Create; Enqueue 0 0; Enqueue 0 1; Create; Enqueue 1 3; Enqueue 0 2;
   Enqueue 1 4; Dequeue 0; Dequeue 0; Enqueue 0 5; Enqueue 1 6; Dequeue 0;
   Dequeue 0; Destroy 0; Dequeue 1; Dequeue 1; Dequeue 1; Destroy 1].

(** The queue an operation is applied to. *)
Definition op_queue (o : Op) : option nat :=
  match o with
  | Create => None
  | Enqueue q _ | Dequeue q | Destroy q => Some q
  end.

Global Instance WhenUsed_eq_dec : EqDecision WhenUsed.
Proof. solve_decision. Defined.

Global Instance Chunk_eq_dec : EqDecision Chunk.
Proof. solve_decision. Defined.

(** [others_kept o w w']: the operation [o], which led from [w] to [w'],
    left every queue it was not applied to as it was: same handle, and
    every fragment of the queue unchanged. *)
Definition others_kept (o : Op) (w w' : World) : bool :=
  forallb (fun q =>
    if decide (op_queue o = Some q) then true
    else match handles w !! q with
         | Some h =>
             bool_decide (handles w' !! q = Some h) &&
             forallb (fun i => bool_decide
                        (data (pool w') !! i = data (pool w) !! i))
                     (segments (pool w) h)
         | None => true
         end)
    (seq 0 (length (handles w))).

(** [reads_own o w w']: a byte that [o] dequeued is the oldest byte of the
    queue that [o] was applied to. *)
Definition reads_own (o : Op) (w w' : World) : bool :=
  match o with
  | Dequeue q =>
      match handles w !! q with
      | Some h =>
          match queue_bytes (pool w) h with
          | x :: _ => bool_decide (dequeued w' = dequeued w ++ [x])
          | [] => true
          end
      | None => true
      end
  | _ => true
  end.

(** Every step of a run keeps the other queues and reads its own queue. *)
Fixpoint isolated (ops : list Op) (w : World) : bool :=
  match ops with
  | [] => true
  | o :: ops' =>
      match step o w with
      | Some w' => others_kept o w w' && reads_own o w w' && isolated ops' w'
      | None => false
      end
  end.

(** The bytes dequeued by a run, each with the queue it came from. *)
Fixpoint outputs (ops : list Op) (w : World) : list (nat * Z) :=
  match ops with
  | [] => []
  | o :: ops' =>
      match step o w with
      | Some w' =>
          match o with
          | Dequeue q => (q, default 0 (last (dequeued w'))) :: outputs ops' w'
          | _ => outputs ops' w'
          end
      | None => []
      end
  end.

(** ** Well-formed free lists and queues *)

(** [FreeList d p l]: following [chunk.next] from [p] visits exactly [l]. *)
Fixpoint FreeList (d : list Chunk) (p : option nat) (l : list nat) : Prop :=
  match l with
  | [] => p = None
  | i :: l' => p = Some i /\ exists q, d !! i = Some (next q) /\ FreeList d q l'
  end.

(** [Tail d nx l]: the fragments [l] behind the front of a queue, entered
    through the tracking byte [nx]. Nothing was read from them yet, and all
    but the last are full. *)
Fixpoint Tail (d : list Chunk) (nx : Z) (l : list nat) : Prop :=
  match l with
  | [] => nx = -1
  | i :: l' =>
      nx = Z.of_nat i /\
      exists u, d !! i = Some (whenUsed u) /\
        length (bytes u) = 28%nat /\
        m_frontItemIdx u = -1 /\
        0 <= m_backItemIdx u <= 27 /\
        (l' <> [] -> m_backItemIdx u = 27) /\
        Tail d (m_nextFragmentIdx u) l'
  end.

(** [Links d nx l]: the fragments [l] are in use and chained through
    [m_nextFragmentIdx], starting from the tracking byte [nx]. *)
Fixpoint Links (d : list Chunk) (nx : Z) (l : list nat) : Prop :=
  match l with
  | [] => nx = -1
  | i :: l' =>
      nx = Z.of_nat i /\
      exists u, d !! i = Some (whenUsed u) /\ Links d (m_nextFragmentIdx u) l'
  end.

(** [Queue d h l]: the handle [h] is a queue made of the fragments [l]. *)
Definition Queue (d : list Chunk) (h : option nat) (l : list nat) : Prop :=
  match l with
  | [] => h = None
  | i :: l' =>
      h = Some i /\
      exists u, d !! i = Some (whenUsed u) /\
        length (bytes u) = 28%nat /\
        m_backFragmentIdx u = Z.of_nat (default i (last l')) /\
        (l' <> [] -> m_backItemIdx u = 27) /\
        (m_frontItemIdx u = -1 /\ m_backItemIdx u = -1 /\ l' = [] \/
         0 <= m_frontItemIdx u <= m_backItemIdx u /\ m_backItemIdx u <= 27) /\
        Tail d (m_nextFragmentIdx u) l'
  end.

(** [Shares s hs free chains]: the free list is [free], the handles [hs]
    are the queues made of [chains], and each of the 64 fragments is on the
    free list or in exactly one queue. *)
Definition Shares (s : FragmentPool) (hs : list (option nat))
    (free : list nat) (chains : list (list nat)) : Prop :=
  length (data s) = 64%nat /\
  FreeList (data s) (nextFreeFragment s) free /\
  Forall2 (Queue (data s)) hs chains /\
  free ++ concat chains ≡ₚ seq 0 64.

(** The invariant of the pool and the caller's handles. *)
Definition Inv (w : World) : Prop :=
  exists free chains, Shares (pool w) (handles w) free chains.

(** The number of fragments in use by the queues of the caller. *)
Definition in_use (w : World) : nat :=
  length (concat (map (segments (pool w)) (handles w))).

(** The fragments of a list of chains other than the [q]-th. *)
Definition others (q : nat) (chains : list (list nat)) : list nat :=
  concat (take q chains) ++ concat (drop (S q) chains).

(** ** Printing and state changes of an operation *)

Definition silent {A} (m : M A) : Prop :=
  forall s a s' o, m s = Some (a, s', o) -> o = [].

Definition pure {A} (m : M A) : Prop :=
  forall s a s' o, m s = Some (a, s', o) -> s' = s /\ o = [].

(** ** Concrete pools and states *)

(** A pool whose only fragment is a queue that was created and is empty. *)
Definition created_pool : FragmentPool :=
  mkPool [whenUsed (mkWhenUsed 0 (-1) (-1) (-1) (replicate 28 0))] None.

(** A pool without free fragments whose only fragment is a full queue. *)
Definition full_pool : FragmentPool :=
  mkPool [whenUsed (mkWhenUsed 0 (-1) 0 27 (replicate 28 7))] None.

(** The state after 65 calls of [create_queue]. *)
Definition world65 : World :=
  default world0 (run (replicate 65 Create) world0).

(** The state after a queue was created and 30 bytes were enqueued. *)
Definition world30 : World :=
  default world0 (run (Create :: replicate 30 (Enqueue 0 5)) world0).

(** The state after a queue was created and one byte was enqueued. *)
Definition world1 : World :=
  default world0 (run [Create; Enqueue 0 42] world0).

(** The state after one call of [create_queue]. *)
Definition world_created : World := default world0 (run [Create] world0).

(** ** The index tests of ByteQueueFragment

    [isValidByteIndex] and [isValidFragmentIndex] read no member of the
    fragment: they return the result of the range test and print a message
    when it fails. *)

Inductive Diagnostic :=
| invalid_byte_index (idx : Z)       (* "invalid byte index %i not in range [0, 27]" *)
| invalid_fragment_index (idx : Z).  (* "invalid fragment index %i not in range [0, 63]" *)

Definition isValidByteIndex (idx : Z) : bool * list Diagnostic :=
  let isValidIndex := bool_decide (0 <= idx) && bool_decide (idx < 28) in
  (isValidIndex, if isValidIndex then [] else [invalid_byte_index idx]).

Definition isValidFragmentIndex (idx : Z) : bool * list Diagnostic :=
  let isValidIndex := bool_decide (0 <= idx) && bool_decide (idx < 64) in
  (isValidIndex, if isValidIndex then [] else [invalid_fragment_index idx]).

(** The state after three queues were created, 40 bytes were enqueued into
    the second one and 30 of them dequeued. *)
Definition world_mixed : World :=
  default world0
    (run ([Create; Create; Create] ++ replicate 40 (Enqueue 1 9)
          ++ replicate 30 (Dequeue 1)) world0).

(** * Proofs *)

(** ** Running the monad *)

(** [name_data H d']: names the data of the pool that the run [H] ends in. *)
Ltac name_data H d' :=
  match type of H with
  | _ = Some (_, mkPool ?D _, _) => set (d' := D) in *
  end.

Lemma run_bind {A B} (m : M A) (k : A -> M B) s a s1 :
  m s = Some (a, s1, []) -> bind m k s = k a s1.
Proof.
  intros H. unfold bind. rewrite H.
  destruct (k a s1) as [[[b s2] o2]|]; reflexivity.
Qed.

Lemma bind_inv {A B} (m : M A) (k : A -> M B) s b s2 o :
  bind m k s = Some (b, s2, o) ->
  exists a s1 o1 o2,
    m s = Some (a, s1, o1) /\ k a s1 = Some (b, s2, o2) /\ o = o1 ++ o2.
Proof.
  unfold bind. intros H.
  destruct (m s) as [[[a s1] o1]|]; [|discriminate].
  destruct (k a s1) as [[[b' s2'] o2]|] eqn:E; [|discriminate].
  inversion H; subst. eauto 10.
Qed.

Section Accessors.
Variables (d : list Chunk) (p : option nat) (i : nat) (u : WhenUsed).
Hypothesis Hi : d !! i = Some (whenUsed u).

Lemma chunk_whenUsed_run :
  chunk_whenUsed (Some i) (mkPool d p) = Some (u, mkPool d p, []).
Proof. unfold chunk_whenUsed, bind, load, ret. simpl. rewrite Hi. done. Qed.

Lemma getBackFragmentIdx_run :
  getBackFragmentIdx (Some i) (mkPool d p)
  = Some (m_backFragmentIdx u, mkPool d p, []).
Proof. unfold getBackFragmentIdx. by rewrite (run_bind _ _ _ _ _ chunk_whenUsed_run). Qed.

Lemma getNextFragmentIdx_run :
  getNextFragmentIdx (Some i) (mkPool d p)
  = Some (m_nextFragmentIdx u, mkPool d p, []).
Proof. unfold getNextFragmentIdx. by rewrite (run_bind _ _ _ _ _ chunk_whenUsed_run). Qed.

Lemma getFrontItemIdx_run :
  getFrontItemIdx (Some i) (mkPool d p)
  = Some (m_frontItemIdx u, mkPool d p, []).
Proof. unfold getFrontItemIdx. by rewrite (run_bind _ _ _ _ _ chunk_whenUsed_run). Qed.

Lemma getBackItemIdx_run :
  getBackItemIdx (Some i) (mkPool d p)
  = Some (m_backItemIdx u, mkPool d p, []).
Proof. unfold getBackItemIdx. by rewrite (run_bind _ _ _ _ _ chunk_whenUsed_run). Qed.

Lemma update_whenUsed_run f :
  update_whenUsed (Some i) f (mkPool d p)
  = Some (tt, mkPool (<[i := whenUsed (f u)]> d) p, []).
Proof.
  unfold update_whenUsed. rewrite (run_bind _ _ _ _ _ chunk_whenUsed_run).
  unfold store. simpl. apply lookup_lt_Some in Hi.
  by rewrite decide_True.
Qed.

Lemma isEmpty_run :
  isEmpty (Some i) (mkPool d p)
  = Some (bool_decide (logically_empty u), mkPool d p, []).
Proof.
  unfold isEmpty. rewrite (run_bind _ _ _ _ _ getFrontItemIdx_run).
  unfold logically_empty. case_decide as Hf.
  - unfold ret. by rewrite bool_decide_eq_true_2; [|left].
  - rewrite (run_bind _ _ _ _ _ getBackItemIdx_run).
    rewrite (run_bind _ _ _ _ _ getFrontItemIdx_run).
    unfold ret. do 3 f_equal. apply bool_decide_ext. tauto.
Qed.

Lemma isFrontItemAtEnd_run :
  isFrontItemAtEnd (Some i) (mkPool d p)
  = Some (bool_decide (to_size_t (m_frontItemIdx u) = 27), mkPool d p, []).
Proof. unfold isFrontItemAtEnd. by rewrite (run_bind _ _ _ _ _ getFrontItemIdx_run). Qed.

Lemma isBackItemAtEnd_run :
  isBackItemAtEnd (Some i) (mkPool d p)
  = Some (bool_decide (to_size_t (m_backItemIdx u) = 27), mkPool d p, []).
Proof. unfold isBackItemAtEnd. by rewrite (run_bind _ _ _ _ _ getBackItemIdx_run). Qed.

Lemma getFrontByte_run b :
  0 <= m_frontItemIdx u < 28 ->
  bytes u !! Z.to_nat (m_frontItemIdx u) = Some b ->
  getFrontByte (Some i) (mkPool d p) = Some (b, mkPool d p, []).
Proof.
  intros Hr Hb. unfold getFrontByte.
  rewrite (run_bind _ _ _ _ _ getFrontItemIdx_run). unfold getByte.
  rewrite (run_bind _ _ _ _ _ chunk_whenUsed_run).
  rewrite decide_True by done. by rewrite Hb.
Qed.

Lemma setByte_run idx byte :
  0 <= idx < 28 ->
  setByte (Some i) idx byte (mkPool d p)
  = Some (tt, mkPool (<[i := whenUsed
            (mkWhenUsed (m_backFragmentIdx u) (m_nextFragmentIdx u)
               (m_frontItemIdx u) (m_backItemIdx u)
               (<[Z.to_nat idx := to_uchar (to_char byte)]> (bytes u)))]> d)
            p, []).
Proof.
  intros Hr. unfold setByte. rewrite decide_True by done.
  apply update_whenUsed_run.
Qed.

Lemma getBackFragment_run :
  0 <= m_backFragmentIdx u < 64 ->
  getBackFragment (Some i) (mkPool d p)
  = Some (Some (Z.to_nat (m_backFragmentIdx u)), mkPool d p, []).
Proof.
  intros Hr. unfold getBackFragment.
  rewrite (run_bind _ _ _ _ _ getBackFragmentIdx_run).
  rewrite decide_False by lia.
  rewrite (run_bind _ _ _ _ _ getBackFragmentIdx_run).
  unfold getPointerAtIndex. by rewrite decide_True.
Qed.

Lemma getNextFragment_run :
  0 <= m_nextFragmentIdx u < 64 ->
  getNextFragment (Some i) (mkPool d p)
  = Some (Some (Z.to_nat (m_nextFragmentIdx u)), mkPool d p, []).
Proof.
  intros Hr. unfold getNextFragment.
  rewrite (run_bind _ _ _ _ _ getNextFragmentIdx_run).
  rewrite decide_False by lia.
  rewrite (run_bind _ _ _ _ _ getNextFragmentIdx_run).
  unfold getPointerAtIndex. by rewrite decide_True.
Qed.

Lemma getNextFragment_null :
  m_nextFragmentIdx u = -1 ->
  getNextFragment (Some i) (mkPool d p) = Some (None, mkPool d p, []).
Proof.
  intros Hr. unfold getNextFragment.
  rewrite (run_bind _ _ _ _ _ getNextFragmentIdx_run).
  by rewrite decide_True.
Qed.
End Accessors.

Lemma deallocate_run d p i :
  (i < length d)%nat ->
  deallocate (Some i) (mkPool d p)
  = Some (tt, mkPool (<[i := next p]> d) (Some i), []).
Proof.
  intros Hi. unfold deallocate, eraseFragment, setNextFree, bind, store,
    get_nextFreeFragment, set_nextFreeFragment. simpl.
  rewrite decide_True by done. simpl.
  rewrite decide_True by (by rewrite length_insert). simpl.
  by rewrite list_insert_insert_eq.
Qed.

Lemma allocate_run d i q :
  d !! i = Some (next q) ->
  allocate (mkPool d (Some i)) = Some (Some i, mkPool d q, []).
Proof.
  intros Hi. unfold allocate, chunk_next, bind, load, ret,
    get_nextFreeFragment, set_nextFreeFragment. simpl. by rewrite Hi.
Qed.

Lemma allocate_null d :
  allocate (mkPool d None) = Some (None, mkPool d None, [out_of_memory_msg]).
Proof. reflexivity. Qed.

Lemma to_char_small x : -128 <= x < 128 -> to_char x = x.
Proof. intros H. unfold to_char. rewrite Z.mod_small; lia. Qed.

Lemma to_size_t_27 x : -128 <= x < 128 -> to_size_t x = 27 <-> x = 27.
Proof.
  intros H. unfold to_size_t. split; [|intros ->; reflexivity].
  destruct (decide (0 <= x)).
  - rewrite Z.mod_small; lia.
  - replace x with (x + 2 ^ 64 - 1 * 2 ^ 64) by lia.
    rewrite Zminus_mod, Z_mod_mult, Z.sub_0_r, Zmod_mod.
    rewrite Z.mod_small; lia.
Qed.

Lemma to_uchar_to_char x : to_uchar (to_char x) = x `mod` 256.
Proof.
  unfold to_uchar, to_char.
  rewrite Zminus_mod, Zmod_mod, <- Zminus_mod. f_equal. lia.
Qed.

(** ** Frame properties: a predicate depends on its own fragments only *)

Lemma FreeList_frame d d' p l :
  (forall i, i ∈ l -> d' !! i = d !! i) -> FreeList d p l -> FreeList d' p l.
Proof.
  revert p. induction l as [|i l IH]; simpl; intros p Hf H; [done|].
  destruct H as (-> & q & Hq & H). split; [done|]. exists q. split.
  - rewrite Hf; [done | left].
  - apply IH; [|done]. intros j Hj. apply Hf. by right.
Qed.

Lemma Tail_frame d d' nx l :
  (forall i, i ∈ l -> d' !! i = d !! i) -> Tail d nx l -> Tail d' nx l.
Proof.
  revert nx. induction l as [|i l IH]; simpl; intros nx Hf H; [done|].
  destruct H as (-> & u & Hu & Hlen & Hfr & Hb & Hfull & H).
  split; [done|]. exists u. rewrite Hf by left.
  split_and!; try done; try lia. apply IH; [|done].
  intros j Hj. apply Hf. by right.
Qed.

Lemma Queue_frame d d' h l :
  (forall i, i ∈ l -> d' !! i = d !! i) -> Queue d h l -> Queue d' h l.
Proof.
  destruct l as [|i l]; simpl; intros Hf H; [done|].
  destruct H as (-> & u & Hu & Hlen & Hbk & Hfull & Hidx & H).
  split; [done|]. exists u. rewrite Hf by left.
  split_and!; try done. eapply Tail_frame; [|done].
  intros j Hj. apply Hf. by right.
Qed.

Lemma contents_frame d d' l :
  (forall i, i ∈ l -> d' !! i = d !! i) -> contents d' l = contents d l.
Proof.
  unfold contents. induction l as [|i l IH]; simpl; intros Hf; [done|].
  unfold live_at at 1 3. rewrite Hf by left. f_equal.
  apply IH. intros j Hj. apply Hf. by right.
Qed.

Lemma contents_cons d i l :
  contents d (i :: l) = live_at d i ++ contents d l.
Proof. reflexivity. Qed.

Lemma contents_app d l1 l2 :
  contents d (l1 ++ l2) = contents d l1 ++ contents d l2.
Proof. unfold contents. by rewrite map_app, concat_app. Qed.

Lemma live_at_used d i u : d !! i = Some (whenUsed u) -> live_at d i = live u.
Proof. unfold live_at. by intros ->. Qed.

(** ** The free list *)

Lemma FreeList_lt d p l i : FreeList d p l -> i ∈ l -> (i < length d)%nat.
Proof.
  revert p. induction l as [|j l IH]; simpl; intros p H Hi.
  - by apply elem_of_nil in Hi.
  - destruct H as (-> & q & Hq & H). apply elem_of_cons in Hi as [->|Hi].
    + by apply lookup_lt_Some in Hq.
    + eauto.
Qed.

Lemma FreeList_link d p l i :
  FreeList d p l -> i ∈ l -> exists q, d !! i = Some (next q).
Proof.
  revert p. induction l as [|j l IH]; simpl; intros p H Hi.
  - by apply elem_of_nil in Hi.
  - destruct H as (-> & q & Hq & H). apply elem_of_cons in Hi as [->|Hi]; eauto.
Qed.

Lemma FreeList_push d p l i :
  FreeList d p l -> i ∉ l -> (i < length d)%nat ->
  FreeList (<[i := next p]> d) (Some i) (i :: l).
Proof.
  intros H Hi Hlt. simpl. split; [done|]. exists p. split.
  - by apply list_lookup_insert_eq.
  - eapply FreeList_frame; [|done]. intros j Hj.
    apply list_lookup_insert_ne. intros ->. done.
Qed.

Lemma free_walk_FreeList d p l fuel :
  FreeList d p l -> (length l <= fuel)%nat -> free_walk fuel d p = l.
Proof.
  revert p fuel. induction l as [|i l IH]; simpl; intros p fuel H Hlen.
  - subst. by destruct fuel.
  - destruct H as (-> & q & Hq & H). destruct fuel as [|fuel]; [lia|].
    simpl. rewrite Hq. f_equal. apply IH; [done | lia].
Qed.

(** ** Chains of fragments *)

Lemma Tail_lt d nx l i : Tail d nx l -> i ∈ l -> (i < length d)%nat.
Proof.
  revert nx. induction l as [|j l IH]; simpl; intros nx H Hi.
  - by apply elem_of_nil in Hi.
  - destruct H as (-> & u & Hu & _ & _ & _ & _ & H).
    apply elem_of_cons in Hi as [->|Hi].
    + by apply lookup_lt_Some in Hu.
    + eauto.
Qed.

Lemma Tail_used d nx l i :
  Tail d nx l -> i ∈ l ->
  exists u, d !! i = Some (whenUsed u) /\
    length (bytes u) = 28%nat /\ m_frontItemIdx u = -1 /\
    0 <= m_backItemIdx u <= 27 /\
    (m_nextFragmentIdx u <> -1 -> m_backItemIdx u = 27).
Proof.
  revert nx. induction l as [|j l IH]; simpl; intros nx H Hi.
  - by apply elem_of_nil in Hi.
  - destruct H as (-> & u & Hu & ? & ? & ? & Hfull & H).
    apply elem_of_cons in Hi as [->|Hi]; [|eauto].
    exists u. split_and!; try done; try lia. intros Hn. apply Hfull.
    intros ->. simpl in H. done.
Qed.

Lemma Queue_lt d h l i : Queue d h l -> i ∈ l -> (i < length d)%nat.
Proof.
  destruct l as [|j l]; simpl; intros H Hi.
  - by apply elem_of_nil in Hi.
  - destruct H as (-> & u & Hu & _ & _ & _ & _ & H).
    apply elem_of_cons in Hi as [->|Hi].
    + by apply lookup_lt_Some in Hu.
    + eapply Tail_lt; eauto.
Qed.

Lemma Queue_used d h l i :
  Queue d h l -> i ∈ l ->
  exists u, d !! i = Some (whenUsed u) /\
    -1 <= m_frontItemIdx u <= 27 /\ -1 <= m_backItemIdx u <= 27 /\
    (m_nextFragmentIdx u <> -1 -> m_backItemIdx u = 27).
Proof.
  destruct l as [|j l]; simpl; intros H Hi.
  - by apply elem_of_nil in Hi.
  - destruct H as (-> & u & Hu & _ & _ & Hfull & Hidx & H).
    apply elem_of_cons in Hi as [->|Hi].
    + exists u. split; [done|]. split; [lia|]. split; [lia|].
      intros Hn. apply Hfull. intros ->. simpl in H. done.
    + destruct (Tail_used _ _ _ _ H Hi) as (u' & ? & ? & ? & ? & ?).
      exists u'. split_and!; try done; lia.
Qed.

Lemma seg_walk_Tail d nx l fuel u :
  Tail d nx l -> m_nextFragmentIdx u = nx -> (length l <= fuel)%nat ->
  seg_walk fuel d (next_ptr u) = l.
Proof.
  revert nx fuel u. induction l as [|i l IH]; simpl; intros nx fuel u H Hnx Hlen.
  - subst nx. unfold next_ptr. rewrite decide_True by done. by destruct fuel.
  - destruct H as (-> & u' & Hu' & _ & _ & _ & _ & H).
    unfold next_ptr. rewrite decide_False by lia. rewrite Hnx, Nat2Z.id.
    destruct fuel as [|fuel]; [lia|]. simpl. rewrite Hu'. f_equal.
    eapply IH; [done.. | lia].
Qed.

Lemma seg_walk_Queue d h l fuel :
  Queue d h l -> (length l <= fuel)%nat -> seg_walk fuel d h = l.
Proof.
  destruct l as [|i l]; simpl; intros H Hlen.
  - subst. by destruct fuel.
  - destruct H as (-> & u & Hu & _ & _ & _ & _ & H).
    destruct fuel as [|fuel]; [lia|]. simpl. rewrite Hu. f_equal.
    eapply seg_walk_Tail; [done.. | lia].
Qed.

(** ** Lists of bytes *)

Lemma take_drop_insert_snoc (bs : list Z) (f m : nat) x :
  (f <= m < length bs)%nat ->
  take (m - f + 1) (drop f (<[m := x]> bs)) = take (m - f) (drop f bs) ++ [x].
Proof.
  intros H. rewrite drop_insert_ge by lia.
  replace (m - f + 1)%nat with (S (m - f)) by lia.
  erewrite take_S_r.
  - by rewrite take_insert_ge by lia.
  - apply list_lookup_insert_eq. rewrite length_drop. lia.
Qed.

Lemma live_single u x :
  m_frontItemIdx u = m_backItemIdx u -> 0 <= m_frontItemIdx u ->
  bytes u !! Z.to_nat (m_frontItemIdx u) = Some x ->
  live u = [x].
Proof.
  intros Hfb Hf Hx. unfold live. rewrite <- Hfb.
  replace (Z.to_nat (m_frontItemIdx u - Z.max 0 (m_frontItemIdx u) + 1))
    with 1%nat by lia.
  erewrite drop_S by done. reflexivity.
Qed.

Lemma live_pop u x :
  0 <= m_frontItemIdx u <= m_backItemIdx u ->
  bytes u !! Z.to_nat (m_frontItemIdx u) = Some x ->
  live u = x :: live (mkWhenUsed (m_backFragmentIdx u) (m_nextFragmentIdx u)
                        (m_frontItemIdx u + 1) (m_backItemIdx u) (bytes u)).
Proof.
  intros Hf Hx. unfold live. simpl.
  erewrite drop_S by done.
  replace (Z.to_nat (m_backItemIdx u - Z.max 0 (m_frontItemIdx u) + 1))
    with (S (Z.to_nat (m_backItemIdx u - Z.max 0 (m_frontItemIdx u + 1) + 1)))
    by lia.
  simpl. do 2 f_equal. f_equal. lia.
Qed.

Lemma live_push u x :
  length (bytes u) = 28%nat -> -1 <= m_frontItemIdx u ->
  Z.max 0 (m_frontItemIdx u) <= m_backItemIdx u + 1 ->
  m_backItemIdx u < 27 ->
  live (mkWhenUsed (m_backFragmentIdx u) (m_nextFragmentIdx u)
          (m_frontItemIdx u) (m_backItemIdx u + 1)
          (<[Z.to_nat (m_backItemIdx u + 1) := x]> (bytes u)))
  = live u ++ [x].
Proof.
  intros Hlen Hf Hfb Hb. unfold live. simpl.
  replace (Z.to_nat (m_backItemIdx u + 1 - Z.max 0 (m_frontItemIdx u) + 1))
    with (Z.to_nat (m_backItemIdx u + 1) - Z.to_nat (m_frontItemIdx u) + 1)%nat
    by lia.
  rewrite take_drop_insert_snoc by lia. do 2 f_equal. lia.
Qed.

Lemma live_length_full u :
  length (bytes u) = 28%nat -> m_frontItemIdx u <= 0 -> m_backItemIdx u = 27 ->
  length (live u) = 28%nat.
Proof.
  intros Hlen Hf Hb. unfold live. rewrite length_take, length_drop. lia.
Qed.

Lemma live_nonempty u :
  length (bytes u) = 28%nat ->
  0 <= m_frontItemIdx u <= m_backItemIdx u -> m_backItemIdx u <= 27 ->
  live u <> [].
Proof.
  intros Hlen Hf Hb E. apply (f_equal length) in E. unfold live in E.
  rewrite length_take, length_drop in E. simpl in E. lia.
Qed.

Lemma Permutation_grow (free l : list nat) a :
  free ++ l ++ [a] ≡ₚ (a :: free) ++ l.
Proof. simpl. by rewrite app_assoc, <- Permutation_cons_append. Qed.

Lemma last_default_cons (i n : nat) l :
  default i (last (n :: l)) = default n (last l).
Proof. rewrite last_cons. by destruct (last l). Qed.

(** ** Updating the last fragment of a chain *)

Lemma Tail_replace_last d d' nx l0 k ub' ext :
  Tail d nx (l0 ++ [k]) -> k ∉ l0 ->
  d' !! k = Some (whenUsed ub') ->
  (forall j, j ∈ l0 -> d' !! j = d !! j) ->
  length (bytes ub') = 28%nat -> m_frontItemIdx ub' = -1 ->
  0 <= m_backItemIdx ub' <= 27 ->
  (ext <> [] -> m_backItemIdx ub' = 27) ->
  Tail d' (m_nextFragmentIdx ub') ext ->
  Tail d' nx (l0 ++ k :: ext).
Proof.
  intros H Hk Hub' Hfr Hlen Hf Hb Hfull Hext. revert nx H Hk Hfr.
  induction l0 as [|j l0 IH]; simpl; intros nx H Hk Hfr.
  - destruct H as (-> & _). split; [done|]. exists ub'.
    split_and!; try done; lia.
  - destruct H as (-> & u & Hu & ? & ? & ? & Hfull' & H).
    split; [done|]. exists u. rewrite Hfr by left.
    split_and!; try done; try lia.
    + intros _. apply Hfull'. by destruct l0.
    + apply IH; [done | |].
      * intros Hin. apply Hk. by right.
      * intros m Hm. apply Hfr. by right.
Qed.

Lemma Tail_last d nx l0 k :
  Tail d nx (l0 ++ [k]) ->
  exists ub, d !! k = Some (whenUsed ub) /\ length (bytes ub) = 28%nat /\
    m_frontItemIdx ub = -1 /\ 0 <= m_backItemIdx ub <= 27 /\
    m_nextFragmentIdx ub = -1.
Proof.
  revert nx. induction l0 as [|j l0 IH]; simpl; intros nx H.
  - destruct H as (-> & u & Hu & ? & ? & ? & _ & H). exists u.
    split_and!; try done; lia.
  - destruct H as (-> & u & Hu & ? & ? & ? & _ & H). eauto.
Qed.

Lemma Tail_contents_full d nx l :
  Tail d nx l ->
  (forall k ub, last l = Some k -> d !! k = Some (whenUsed ub) ->
                m_backItemIdx ub = 27) ->
  length (contents d l) = (28 * length l)%nat.
Proof.
  revert nx. induction l as [|j l IH]; simpl; intros nx H Hlast; [done|].
  destruct H as (-> & u & Hu & Hlen & Hf & Hb & Hfull & H).
  rewrite contents_cons, length_app, (live_at_used _ _ _ Hu).
  rewrite live_length_full; [| done | lia |].
  - rewrite (IH _ H); [lia|]. intros k ub Hk. apply Hlast.
    destruct l; [done|]. by rewrite last_cons_cons.
  - destruct l as [|m l]; [by apply (Hlast j) | by apply Hfull].
Qed.

Lemma contents_update_live d k u' l :
  live_at d k = live u' ->
  contents (<[k := whenUsed u']> d) l = contents d l.
Proof.
  intros Hl. unfold contents. f_equal. apply map_ext. intros j.
  unfold live_at at 1. destruct (decide (k = j)) as [->|Hne].
  - destruct (decide (j < length d)%nat).
    + by rewrite list_lookup_insert_eq.
    + by rewrite list_insert_ge by lia.
  - by rewrite list_lookup_insert_ne.
Qed.

(** ** create_queue *)

Lemma create_queue_run d a q :
  length d = 64%nat -> d !! a = Some (next q) ->
  create_queue (mkPool d (Some a))
  = Some (Some a,
          mkPool (<[a := whenUsed (mkWhenUsed (Z.of_nat a) (-1) (-1) (-1)
                                     (replicate 28 0))]> d) q, []).
Proof.
  intros Hlen Ha. unfold create_queue.
  rewrite (run_bind _ _ _ _ _ (allocate_run _ _ _ Ha)).
  apply lookup_lt_Some in Ha.
  unfold getIndexInPool, construct, bind, ret, store. simpl.
  rewrite decide_True by done. rewrite to_char_small by lia. done.
Qed.

Lemma create_queue_null d :
  create_queue (mkPool d None)
  = Some (None, mkPool d None, [out_of_memory_msg]).
Proof. reflexivity. Qed.

Lemma Queue_fresh d a :
  (a < length d)%nat ->
  Queue (<[a := whenUsed (mkWhenUsed (Z.of_nat a) (-1) (-1) (-1)
                            (replicate 28 0))]> d) (Some a) [a].
Proof.
  intros Ha. simpl. split; [done|]. eexists. split.
  - by apply list_lookup_insert_eq.
  - simpl. split_and!; try done. by left.
Qed.

(** ** enqueue_byte: the three branches, executed *)

Section EnqueueRun.
Variables (d : list Chunk) (i k : nat) (u ub : WhenUsed) (byte : Z).
Hypothesis Hlen : length d = 64%nat.
Hypothesis Hu : d !! i = Some (whenUsed u).
Hypothesis Hbk : m_backFragmentIdx u = Z.of_nat k.
Hypothesis Hub : d !! k = Some (whenUsed ub).
Hypothesis Hb : -1 <= m_backItemIdx ub <= 27.

Lemma enqueue_back_run p :
  getBackFragment (Some i) (mkPool d p) = Some (Some k, mkPool d p, []).
Proof.
  pose proof (lookup_lt_Some _ _ _ Hub).
  rewrite (getBackFragment_run _ _ _ _ Hu) by lia.
  by rewrite Hbk, Nat2Z.id.
Qed.

Lemma enqueue_oom_run :
  m_backItemIdx ub = 27 ->
  enqueue_byte_at (Some i) byte (mkPool d None)
  = Some (Some i, mkPool d None, [out_of_memory_msg]).
Proof.
  intros Hfull. unfold enqueue_byte_at.
  rewrite (run_bind _ _ _ _ _ (enqueue_back_run _)).
  rewrite (run_bind _ _ _ _ _ (isBackItemAtEnd_run _ _ _ _ Hub)).
  rewrite bool_decide_eq_true_2 by (by rewrite Hfull). reflexivity.
Qed.

Lemma enqueue_grow_run a q ub1 :
  m_backItemIdx ub = 27 ->
  d !! a = Some (next q) ->
  <[i := whenUsed (mkWhenUsed (Z.of_nat a) (m_nextFragmentIdx u)
            (m_frontItemIdx u) (m_backItemIdx u) (bytes u))]> d !! k
    = Some (whenUsed ub1) ->
  enqueue_byte_at (Some i) byte (mkPool d (Some a))
  = Some (Some i,
      mkPool
        (<[a := whenUsed (mkWhenUsed (-1) (-1) (-1) 0
                 (<[0%nat := byte `mod` 256]> (replicate 28 0)))]>
         (<[k := whenUsed (mkWhenUsed (m_backFragmentIdx ub1) (Z.of_nat a)
                  (m_frontItemIdx ub1) (m_backItemIdx ub1) (bytes ub1))]>
          (<[i := whenUsed (mkWhenUsed (Z.of_nat a) (m_nextFragmentIdx u)
                   (m_frontItemIdx u) (m_backItemIdx u) (bytes u))]> d)))
        q, []).
Proof.
  intros Hfull Ha Hub1. unfold enqueue_byte_at.
  rewrite (run_bind _ _ _ _ _ (enqueue_back_run _)).
  rewrite (run_bind _ _ _ _ _ (isBackItemAtEnd_run _ _ _ _ Hub)).
  rewrite bool_decide_eq_true_2 by (by rewrite Hfull).
  rewrite (run_bind _ _ _ _ _ (allocate_run _ _ _ Ha)).
  pose proof (lookup_lt_Some _ _ _ Ha).
  unfold getIndexInPool. rewrite (run_bind _ _ _ _ _ eq_refl).
  rewrite to_char_small by lia.
  unfold setBackFragmentIdx.
  rewrite (run_bind _ _ _ _ _ (update_whenUsed_run _ _ _ _ Hu _)).
  unfold setNextFragmentIdx.
  rewrite (run_bind _ _ _ _ _ (update_whenUsed_run _ _ _ _ Hub1 _)).
  unfold construct, store, bind, ret. simpl.
  rewrite decide_True by (rewrite !length_insert; lia).
  by rewrite to_uchar_to_char.
Qed.

Lemma enqueue_first_run p :
  m_backItemIdx ub <> 27 -> m_frontItemIdx u = -1 ->
  enqueue_byte_at (Some i) byte (mkPool d p)
  = Some (Some i,
      mkPool (<[i := whenUsed (mkWhenUsed (m_backFragmentIdx u)
                 (m_nextFragmentIdx u) 0 0
                 (<[0%nat := byte `mod` 256]> (bytes u)))]> d) p, []).
Proof.
  intros Hnf Hf. unfold enqueue_byte_at.
  rewrite (run_bind _ _ _ _ _ (enqueue_back_run _)).
  rewrite (run_bind _ _ _ _ _ (isBackItemAtEnd_run _ _ _ _ Hub)).
  rewrite bool_decide_eq_false_2 by (rewrite to_size_t_27; lia).
  rewrite (run_bind _ _ _ _ _ (getFrontItemIdx_run _ _ _ _ Hu)).
  rewrite decide_True by done.
  pose proof (lookup_lt_Some _ _ _ Hu) as Hlt.
  unfold setFrontItemIdx.
  rewrite (run_bind _ _ _ _ _ (update_whenUsed_run _ _ _ _ Hu _)).
  unfold setBackItemIdx.
  erewrite run_bind
    by (apply update_whenUsed_run; by apply list_lookup_insert_eq).
  erewrite run_bind
    by (apply setByte_run; [by apply list_lookup_insert_eq; rewrite length_insert | lia]).
  unfold ret. simpl. rewrite !list_insert_insert_eq.
  by rewrite to_uchar_to_char.
Qed.

Lemma enqueue_append_run p :
  m_backItemIdx ub <> 27 -> m_frontItemIdx u <> -1 ->
  enqueue_byte_at (Some i) byte (mkPool d p)
  = Some (Some i,
      mkPool (<[k := whenUsed (mkWhenUsed (m_backFragmentIdx ub)
                 (m_nextFragmentIdx ub) (m_frontItemIdx ub)
                 (m_backItemIdx ub + 1)
                 (<[Z.to_nat (m_backItemIdx ub + 1) := byte `mod` 256]>
                    (bytes ub)))]> d) p, []).
Proof.
  intros Hnf Hf. unfold enqueue_byte_at.
  rewrite (run_bind _ _ _ _ _ (enqueue_back_run _)).
  rewrite (run_bind _ _ _ _ _ (isBackItemAtEnd_run _ _ _ _ Hub)).
  rewrite bool_decide_eq_false_2 by (rewrite to_size_t_27; lia).
  rewrite (run_bind _ _ _ _ _ (getFrontItemIdx_run _ _ _ _ Hu)).
  rewrite decide_False by done.
  pose proof (lookup_lt_Some _ _ _ Hub) as Hlt.
  unfold incrementBackItemIdx.
  rewrite (run_bind _ _ _ _ _ (update_whenUsed_run _ _ _ _ Hub _)).
  erewrite run_bind
    by (apply getBackItemIdx_run; by apply list_lookup_insert_eq).
  simpl. rewrite to_char_small by lia.
  erewrite run_bind
    by (apply setByte_run; [by apply list_lookup_insert_eq | lia]).
  unfold ret. simpl. rewrite !list_insert_insert_eq.
  by rewrite to_uchar_to_char.
Qed.
End EnqueueRun.

(** ** enqueue_byte on a well-formed queue *)

Lemma enqueue_byte_at_spec d p free i l' byte :
  length d = 64%nat -> FreeList d p free -> Queue d (Some i) (i :: l') ->
  NoDup (free ++ i :: l') ->
  exists d' p' free' l2 o,
    enqueue_byte_at (Some i) byte (mkPool d p) = Some (Some i, mkPool d' p', o) /\
    length d' = 64%nat /\ FreeList d' p' free' /\ Queue d' (Some i) l2 /\
    free' ++ l2 ≡ₚ free ++ i :: l' /\
    (forall j, j ∉ free ++ i :: l' -> d' !! j = d !! j) /\
    (o = [] /\
     contents d' l2 = contents d (i :: l') ++ [byte `mod` 256] /\
     front_idx d' (Some i) = Z.max 0 (front_idx d (Some i)) /\
     (l2 = i :: l' /\ free' = free \/
      exists a, free = a :: free' /\ l2 = (i :: l') ++ [a])
     \/
     o = [out_of_memory_msg] /\ d' = d /\ p' = p /\ free' = free /\
     l2 = i :: l' /\ free = [] /\
     (front_idx d (Some i) <= 0 ->
      length (contents d (i :: l')) = (28 * length (i :: l'))%nat)).
Proof.
  intros Hlen HF HQ Hnd. pose proof HQ as HQ0. simpl in HQ.
  destruct HQ as (_ & u & Hu & Hbl & Hbk & Hfull & Hidx & Ht).
  apply NoDup_app in Hnd as (Hndf & Hdisj & Hndl).
  apply NoDup_cons in Hndl as [Hil Hndl'].
  assert (Hfi : front_idx d (Some i) = m_frontItemIdx u)
    by (simpl; by rewrite Hu).
  pose proof (lookup_lt_Some _ _ _ Hu) as Hilt.
  destruct (last l') as [k|] eqn:Hlast.
  - (* the back is another fragment than the front *)
    apply last_Some in Hlast as [l0 ->]. simpl in Hbk.
    destruct (Tail_last _ _ _ _ Ht) as (ub & Hub & Hubl & Hubf & Hubb & Hubn).
    pose proof (lookup_lt_Some _ _ _ Hub) as Hklt.
    assert (Hubr : -1 <= m_backItemIdx ub <= 27) by lia.
    assert (Hik : i <> k) by (intros ->; apply Hil, elem_of_app; right; left).
    apply NoDup_app in Hndl' as (Hndl0 & Hkl0 & _).
    assert (Hk : k ∉ l0) by (intros Hin; apply (Hkl0 _ Hin); left).
    assert (Hil0 : i ∉ l0) by (intros Hin; apply Hil, elem_of_app; by left).
    assert (Hb27 : m_backItemIdx u = 27) by (apply Hfull; by destruct l0).
    assert (Hf : 0 <= m_frontItemIdx u <= 27) by lia.
    assert (Hkin : k ∈ i :: l0 ++ [k])
      by (right; apply elem_of_app; right; left).
    destruct (decide (m_backItemIdx ub = 27)) as [Hfullb|Hnf].
    + destruct free as [|a free'].
      * simpl in HF. subst p.
        exists d, None, [], (i :: l0 ++ [k]), [out_of_memory_msg].
        rewrite (enqueue_oom_run d i k u ub byte) by (done || lia).
        do 6 (split; [done|]). right. do 6 (split; [done|]). intros Hf0.
        rewrite contents_cons, length_app, (live_at_used _ _ _ Hu).
        rewrite live_length_full by (done || lia).
        rewrite (Tail_contents_full _ _ _ Ht); [simpl; lia|].
        intros k' ub'. rewrite last_snoc. intros [= <-]. congruence.
      * destruct HF as (-> & q & Ha & HF).
        pose proof (lookup_lt_Some _ _ _ Ha) as Halt.
        assert (Hai : a <> i) by (intros ->; apply (Hdisj i); left).
        assert (Hak : a <> k) by (intros ->; apply (Hdisj k); [left | done]).
        assert (Hal0 : a ∉ l0).
        { intros Hin. apply (Hdisj a); [left | right].
          apply elem_of_app. by left. }
        apply NoDup_cons in Hndf as [Haf Hndf].
        pose proof (enqueue_grow_run d i k u ub byte Hlen Hu Hbk Hub
                      a q ub Hfullb Ha) as Hrun.
        rewrite list_lookup_insert_ne in Hrun by done. specialize (Hrun Hub).
        name_data Hrun d'.
        assert (Hi' : d' !! i = Some (whenUsed (mkWhenUsed (Z.of_nat a)
                  (m_nextFragmentIdx u) (m_frontItemIdx u) (m_backItemIdx u)
                  (bytes u)))).
        { unfold d'. rewrite !list_lookup_insert_ne by done.
          by apply list_lookup_insert_eq. }
        assert (Hk' : d' !! k = Some (whenUsed (mkWhenUsed
                  (m_backFragmentIdx ub) (Z.of_nat a) (m_frontItemIdx ub)
                  (m_backItemIdx ub) (bytes ub)))).
        { unfold d'. rewrite list_lookup_insert_ne by done.
          apply list_lookup_insert_eq. by rewrite length_insert. }
        assert (Ha' : d' !! a = Some (whenUsed (mkWhenUsed (-1) (-1) (-1) 0
                  (<[0%nat := byte `mod` 256]> (replicate 28 0))))).
        { unfold d'. apply list_lookup_insert_eq. by rewrite !length_insert. }
        assert (Hfr : forall j, j <> i -> j <> k -> j <> a -> d' !! j = d !! j).
        { intros j ? ? ?. unfold d'. by rewrite !list_lookup_insert_ne. }
        assert (HT' : Tail d' (m_nextFragmentIdx u) (l0 ++ [k; a])).
        { eapply (Tail_replace_last d d' _ l0 k _ [a]); try done; simpl;
            try lia.
          - intros j Hj. apply Hfr; by intros ->.
          - split; [done|]. eexists. split; [exact Ha'|]. simpl.
            rewrite ?length_insert. split_and!; done || lia. }
        exists d', q, free', (i :: l0 ++ [k; a]), [].
        split; [done|]. split; [unfold d'; by rewrite !length_insert|].
        split.
        { eapply FreeList_frame; [|done]. intros j Hj. apply Hfr.
          - intros ->. apply (Hdisj i); [by right | left].
          - intros ->. by apply (Hdisj k); [right|].
          - by intros ->. }
        split.
        { simpl. split; [done|]. eexists. split; [exact Hi'|]. simpl.
          split; [done|]. split.
          { replace (l0 ++ [k; a]) with ((l0 ++ [k]) ++ [a])
              by (by rewrite <- app_assoc).
            by rewrite last_snoc. }
          split; [done|]. split; [right; lia | done]. }
        split.
        { replace (i :: l0 ++ [k; a]) with ((i :: l0 ++ [k]) ++ [a])
            by (simpl; by rewrite <- app_assoc).
          apply Permutation_grow. }
        split.
        { intros j Hj. apply Hfr.
          - intros ->. apply Hj, elem_of_app. right. left.
          - intros ->. apply Hj, elem_of_app. by right.
          - intros ->. apply Hj. left. }
        left. split; [done|]. split.
        { replace (i :: l0 ++ [k; a]) with ((i :: l0 ++ [k]) ++ [a])
            by (simpl; by rewrite <- app_assoc).
          rewrite contents_app. f_equal.
          - rewrite !contents_cons, !contents_app. f_equal; [|f_equal].
            + by rewrite (live_at_used _ _ _ Hi'), (live_at_used _ _ _ Hu).
            + apply contents_frame. intros j Hj. apply Hfr; by intros ->.
            + unfold contents. simpl.
              by rewrite (live_at_used _ _ _ Hk'), (live_at_used _ _ _ Hub).
          - unfold contents. simpl. by rewrite (live_at_used _ _ _ Ha'). }
        split; [simpl; rewrite Hi', Hu; simpl; lia|].
        right. exists a. split; [done|]. simpl. by rewrite <- app_assoc.
    + assert (Hf1 : m_frontItemIdx u <> -1) by lia.
      pose proof (enqueue_append_run d i k u ub byte Hlen Hu Hbk Hub
                    Hubr p Hnf Hf1) as Hrun.
      name_data Hrun d'.
      assert (Hk' : d' !! k = Some (whenUsed (mkWhenUsed (m_backFragmentIdx ub)
                   (m_nextFragmentIdx ub) (m_frontItemIdx ub)
                   (m_backItemIdx ub + 1)
                   (<[Z.to_nat (m_backItemIdx ub + 1) := byte `mod` 256]>
                      (bytes ub))))).
      { unfold d'. by apply list_lookup_insert_eq. }
      assert (Hfr : forall j, j <> k -> d' !! j = d !! j).
      { intros j ?. unfold d'. by rewrite list_lookup_insert_ne. }
      exists d', p, free, (i :: l0 ++ [k]), [].
      split; [done|]. split; [unfold d'; by rewrite length_insert|].
      split.
      { eapply FreeList_frame; [|done]. intros j Hj. apply Hfr.
        intros ->. by apply (Hdisj k). }
      split.
      { simpl. split; [done|]. exists u. rewrite Hfr by done.
        rewrite last_snoc. do 5 (split; [done|]).
        eapply (Tail_replace_last d d' _ l0 k _ []); try done; simpl;
          try lia.
        - intros j Hj. apply Hfr. by intros ->.
        - by rewrite length_insert. }
      split; [done|]. split.
      { intros j Hj. apply Hfr. intros ->. apply Hj, elem_of_app. by right. }
      left. split; [done|]. split.
      { rewrite !contents_cons, !contents_app, <- !app_assoc. f_equal.
        - unfold live_at. by rewrite Hfr.
        - f_equal.
          + apply contents_frame. intros j Hj. apply Hfr. by intros ->.
          + unfold contents. simpl.
            rewrite (live_at_used _ _ _ Hk'), (live_at_used _ _ _ Hub).
            rewrite !app_nil_r. apply live_push; lia. }
      split; [simpl; rewrite Hfr, Hu by done; lia|]. by left.
  - (* the front is the back *)
    apply last_None in Hlast. subst l'. simpl in Hbk. clear Hfull.
    assert (Hur : -1 <= m_backItemIdx u <= 27) by lia.
    destruct (decide (m_backItemIdx u = 27)) as [Hfullb|Hnf].
    + assert (Hf : 0 <= m_frontItemIdx u <= 27) by lia.
      destruct free as [|a free'].
      * simpl in HF. subst p.
        exists d, None, [], [i], [out_of_memory_msg].
        rewrite (enqueue_oom_run d i i u u byte) by (done || lia).
        do 6 (split; [done|]). right. do 6 (split; [done|]). intros Hf0.
        rewrite contents_cons, length_app, (live_at_used _ _ _ Hu).
        rewrite live_length_full by (done || lia). done.
      * destruct HF as (-> & q & Ha & HF).
        pose proof (lookup_lt_Some _ _ _ Ha) as Halt.
        assert (Hai : a <> i) by (intros ->; apply (Hdisj i); left).
        apply NoDup_cons in Hndf as [Haf Hndf].
        pose proof (enqueue_grow_run d i i u u byte Hlen Hu Hbk Hu
                      a q _ Hfullb Ha
                      (list_lookup_insert_eq _ _ _ Hilt)) as Hrun.
        simpl in Hrun. rewrite list_insert_insert_eq in Hrun.
        name_data Hrun d'.
        assert (Hi' : d' !! i = Some (whenUsed (mkWhenUsed (Z.of_nat a)
                  (Z.of_nat a) (m_frontItemIdx u) (m_backItemIdx u)
                  (bytes u)))).
        { unfold d'. rewrite list_lookup_insert_ne by done.
          by apply list_lookup_insert_eq. }
        assert (Ha' : d' !! a = Some (whenUsed (mkWhenUsed (-1) (-1) (-1) 0
                  (<[0%nat := byte `mod` 256]> (replicate 28 0))))).
        { unfold d'. apply list_lookup_insert_eq. by rewrite !length_insert. }
        assert (Hfr : forall j, j <> i -> j <> a -> d' !! j = d !! j).
        { intros j ? ?. unfold d'. by rewrite !list_lookup_insert_ne. }
        exists d', q, free', [i; a], [].
        split; [done|]. split; [unfold d'; by rewrite !length_insert|].
        split.
        { eapply FreeList_frame; [|done]. intros j Hj. apply Hfr.
          - intros ->. apply (Hdisj i); [by right | left].
          - by intros ->. }
        split.
        { simpl. split; [done|]. eexists. split; [exact Hi'|]. simpl.
          do 3 (split; [done|]). split; [right; lia|].
          split; [done|]. eexists. split; [exact Ha'|]. simpl.
          rewrite ?length_insert. split_and!; done || lia. }
        split.
        { apply (Permutation_grow free' [i] a). }
        split.
        { intros j Hj. apply Hfr.
          - intros ->. apply Hj, elem_of_app. right. left.
          - intros ->. apply Hj. left. }
        left. split; [done|]. split.
        { unfold contents. simpl.
          rewrite (live_at_used _ _ _ Hi'), (live_at_used _ _ _ Ha'),
            (live_at_used _ _ _ Hu), !app_nil_r. reflexivity. }
        split; [simpl; rewrite Hi', Hu; simpl; lia|].
        right. by exists a.
    + destruct (decide (m_frontItemIdx u = -1)) as [Hfr|Hfr].
      * pose proof (enqueue_first_run d i i u u byte Hlen Hu Hbk Hu
                      Hur p Hnf Hfr) as Hrun.
        name_data Hrun d'.
        assert (Hi' : d' !! i = Some (whenUsed (mkWhenUsed
                   (m_backFragmentIdx u) (m_nextFragmentIdx u) 0 0
                   (<[0%nat := byte `mod` 256]> (bytes u))))).
        { unfold d'. by apply list_lookup_insert_eq. }
        assert (Hfr' : forall j, j <> i -> d' !! j = d !! j).
        { intros j ?. unfold d'. by rewrite list_lookup_insert_ne. }
        exists d', p, free, [i], [].
        split; [done|]. split; [unfold d'; by rewrite length_insert|].
        split.
        { eapply FreeList_frame; [|done]. intros j Hj. apply Hfr'.
          intros ->. apply (Hdisj i); [done | left]. }
        split.
        { simpl. split; [done|]. eexists. split; [exact Hi'|]. simpl.
          rewrite ?length_insert. split_and!; try done. right. lia. }
        split; [done|]. split.
        { intros j Hj. apply Hfr'. intros ->. apply Hj, elem_of_app.
          right. left. }
        left. split; [done|]. split.
        { unfold contents. simpl.
          rewrite (live_at_used _ _ _ Hi'), (live_at_used _ _ _ Hu).
          unfold live. simpl.
          destruct Hidx as [(_ & Hb1 & _)|?]; [|lia].
          rewrite Hfr, Hb1. simpl.
          destruct (bytes u); [done|]. reflexivity. }
        split; [simpl; rewrite Hi', Hu; simpl; lia|]. by left.
      * assert (Hf : 0 <= m_frontItemIdx u <= m_backItemIdx u) by lia.
        pose proof (enqueue_append_run d i i u u byte Hlen Hu Hbk Hu
                    Hur p Hnf Hfr) as Hrun.
        name_data Hrun d'.
        assert (Hi' : d' !! i = Some (whenUsed (mkWhenUsed
                   (m_backFragmentIdx u) (m_nextFragmentIdx u)
                   (m_frontItemIdx u) (m_backItemIdx u + 1)
                   (<[Z.to_nat (m_backItemIdx u + 1) := byte `mod` 256]>
                      (bytes u))))).
        { unfold d'. by apply list_lookup_insert_eq. }
        assert (Hfr' : forall j, j <> i -> d' !! j = d !! j).
        { intros j ?. unfold d'. by rewrite list_lookup_insert_ne. }
        exists d', p, free, [i], [].
        split; [done|]. split; [unfold d'; by rewrite length_insert|].
        split.
        { eapply FreeList_frame; [|done]. intros j Hj. apply Hfr'.
          intros ->. apply (Hdisj i); [done | left]. }
        split.
        { simpl. split; [done|]. eexists. split; [exact Hi'|]. simpl.
          rewrite ?length_insert. split_and!; try done. right. lia. }
        split; [done|]. split.
        { intros j Hj. apply Hfr'. intros ->. apply Hj, elem_of_app.
          right. left. }
        left. split; [done|]. split.
        { unfold contents. simpl.
          rewrite (live_at_used _ _ _ Hi'), (live_at_used _ _ _ Hu).
          rewrite !app_nil_r. apply live_push; lia. }
        split; [simpl; rewrite Hi', Hu; simpl; lia|]. by left.
Qed.

Lemma enqueue_byte_spec d p free h l byte :
  length d = 64%nat -> FreeList d p free -> Queue d h l -> NoDup (free ++ l) ->
  exists h' d' p' free' l2 o,
    enqueue_byte h byte (mkPool d p) = Some (h', mkPool d' p', o) /\
    length d' = 64%nat /\ FreeList d' p' free' /\ Queue d' h' l2 /\
    free' ++ l2 ≡ₚ free ++ l /\
    (forall j, j ∉ free ++ l -> d' !! j = d !! j) /\
    (o = [] /\
     contents d' l2 = contents d l ++ [byte `mod` 256] /\
     front_idx d' h' = Z.max 0 (front_idx d h)
     \/
     o = [out_of_memory_msg] /\ d' = d /\ p' = p /\ h' = h /\ free' = free /\
     l2 = l /\ free = [] /\
     (front_idx d h <= 0 -> length (contents d l) = (28 * length l)%nat)).
Proof.
  intros Hlen HF HQ Hnd. destruct l as [|i l'].
  - simpl in HQ. subst h. rewrite app_nil_r in Hnd.
    destruct free as [|a free'].
    + simpl in HF. subst p. exists None, d, None, [], [], [out_of_memory_msg].
      do 6 (split; [done|]). right. by split_and!.
    + destruct HF as (-> & q & Ha & HF).
      apply NoDup_cons in Hnd as [Haf Hndf].
      pose proof (lookup_lt_Some _ _ _ Ha) as Halt.
      pose proof (create_queue_run d a q Hlen Ha) as Hc.
      name_data Hc d1.
      assert (Hfr1 : forall j, j <> a -> d1 !! j = d !! j).
      { intros j ?. unfold d1. by rewrite list_lookup_insert_ne. }
      assert (HF1 : FreeList d1 q free').
      { eapply FreeList_frame; [|done]. intros j Hj. apply Hfr1.
        by intros ->. }
      assert (Hnd1 : NoDup (free' ++ [a])).
      { apply NoDup_app. split_and!; [done | | apply NoDup_singleton].
        intros j Hj Hja. apply list_elem_of_singleton in Hja. by subst. }
      assert (Hlen1 : length d1 = 64%nat)
        by (unfold d1; by rewrite length_insert).
      destruct (enqueue_byte_at_spec d1 q free' a [] byte Hlen1 HF1
                  (Queue_fresh d a Halt) Hnd1)
        as (d' & p' & free2 & l2 & o & Hrun & Hlen' & HF' & HQ' & Hperm
            & Hfr & Hcase).
      assert (Hc0 : contents d1 [a] = []).
      { unfold contents, d1. simpl. unfold live_at.
        by rewrite list_lookup_insert_eq. }
      assert (Hfi : front_idx d1 (Some a) = -1).
      { unfold d1. simpl. by rewrite list_lookup_insert_eq. }
      exists (Some a), d', p', free2, l2, o. split.
      { unfold enqueue_byte. rewrite (run_bind _ _ _ _ _ Hc). exact Hrun. }
      do 3 (split; [done|]). split.
      { rewrite Hperm, app_nil_r. by rewrite <- Permutation_cons_append. }
      split.
      { intros j Hj. rewrite app_nil_r in Hj. rewrite Hfr.
        - apply Hfr1. intros ->. apply Hj. left.
        - intros Hin. apply Hj. apply elem_of_app in Hin as [Hin|Hin].
          + by right.
          + apply list_elem_of_singleton in Hin. subst. left. }
      destruct Hcase as [(-> & Hcont & Hfi' & _)|(_ & _ & _ & _ & _ & _ & Hlenc)].
      * left. rewrite Hc0 in Hcont. rewrite Hfi in Hfi'. by split_and!.
      * rewrite Hc0, Hfi in Hlenc. simpl in Hlenc. lia.
  - pose proof HQ as (-> & _).
    destruct (enqueue_byte_at_spec d p free i l' byte Hlen HF HQ Hnd)
      as (d' & p' & free2 & l2 & o & Hrun & Hlen' & HF' & HQ' & Hperm
          & Hfr & Hcase).
    exists (Some i), d', p', free2, l2, o.
    do 6 (split; [done|]).
    destruct Hcase as [(? & ? & ? & _)|(? & ? & ? & ? & ? & ? & ?)];
      [left | right]; by split_and!.
Qed.

(** ** dequeue_byte: the branches, executed *)

Lemma dequeue_null_run s :
  dequeue_byte None s = Some ((0, None), s, [queue_empty_msg]).
Proof. reflexivity. Qed.

Section DequeueRun.
Variables (d : list Chunk) (p : option nat) (i : nat) (u : WhenUsed).
Hypothesis Hu : d !! i = Some (whenUsed u).

Lemma dequeue_empty_run :
  logically_empty u ->
  dequeue_byte (Some i) (mkPool d p)
  = Some ((0, Some i), mkPool d p, [queue_empty_msg]).
Proof.
  intros He. unfold dequeue_byte.
  rewrite (run_bind _ _ _ _ _ (isEmpty_run _ _ _ _ Hu)).
  by rewrite bool_decide_eq_true_2.
Qed.

Variable x : Z.
Hypothesis Hf : 0 <= m_frontItemIdx u <= m_backItemIdx u.
Hypothesis Hb : m_backItemIdx u <= 27.
Hypothesis Hx : bytes u !! Z.to_nat (m_frontItemIdx u) = Some x.

Lemma dequeue_nonempty_run {A} (k : bool -> M A) :
  (empty <- isEmpty (Some i) ;; k empty) (mkPool d p) = k false (mkPool d p).
Proof using All.
  rewrite (run_bind _ _ _ _ _ (isEmpty_run _ _ _ _ Hu)).
  rewrite bool_decide_eq_false_2; [done|]. unfold logically_empty. lia.
Qed.

Lemma dequeue_last_run :
  m_frontItemIdx u = 27 -> m_nextFragmentIdx u = -1 ->
  dequeue_byte (Some i) (mkPool d p)
  = Some ((x, None), mkPool (<[i := next p]> d) (Some i), []).
Proof using All.
  intros H27 Hn. unfold dequeue_byte. rewrite dequeue_nonempty_run.
  rewrite (run_bind _ _ _ _ _ (getFrontByte_run _ _ _ _ Hu x ltac:(lia) Hx)).
  rewrite (run_bind _ _ _ _ _ (isFrontItemAtEnd_run _ _ _ _ Hu)).
  rewrite bool_decide_eq_true_2 by (by rewrite H27).
  rewrite (run_bind _ _ _ _ _ (getNextFragmentIdx_run _ _ _ _ Hu)).
  rewrite decide_True by done.
  erewrite run_bind
    by (apply deallocate_run; by eapply lookup_lt_Some).
  reflexivity.
Qed.

Lemma dequeue_promote_run n un :
  m_frontItemIdx u = 27 -> m_nextFragmentIdx u = Z.of_nat n ->
  d !! n = Some (whenUsed un) -> n <> i -> length d = 64%nat ->
  dequeue_byte (Some i) (mkPool d p)
  = Some ((x, Some n),
      mkPool (<[i := next p]>
               (<[n := whenUsed (mkWhenUsed (m_backFragmentIdx u)
                         (m_nextFragmentIdx un) 0 (m_backItemIdx un)
                         (bytes un))]> d)) (Some i), []).
Proof using All.
  intros H27 Hn Hun Hni Hlen. unfold dequeue_byte.
  rewrite dequeue_nonempty_run.
  rewrite (run_bind _ _ _ _ _ (getFrontByte_run _ _ _ _ Hu x ltac:(lia) Hx)).
  rewrite (run_bind _ _ _ _ _ (isFrontItemAtEnd_run _ _ _ _ Hu)).
  rewrite bool_decide_eq_true_2 by (by rewrite H27).
  rewrite (run_bind _ _ _ _ _ (getNextFragmentIdx_run _ _ _ _ Hu)).
  rewrite decide_False by lia.
  pose proof (lookup_lt_Some _ _ _ Hun) as Hnlt.
  pose proof (lookup_lt_Some _ _ _ Hu) as Hilt.
  rewrite (run_bind _ _ _ _ _ (getNextFragment_run _ _ _ _ Hu ltac:(lia))).
  rewrite Hn, Nat2Z.id.
  rewrite (run_bind _ _ _ _ _ (getBackFragmentIdx_run _ _ _ _ Hu)).
  unfold setBackFragmentIdx.
  rewrite (run_bind _ _ _ _ _ (update_whenUsed_run _ _ _ _ Hun _)).
  unfold setFrontItemIdx.
  erewrite run_bind
    by (apply update_whenUsed_run; by apply list_lookup_insert_eq).
  erewrite run_bind
    by (apply deallocate_run; by rewrite !length_insert).
  unfold ret. simpl. by rewrite list_insert_insert_eq.
Qed.

Lemma dequeue_advance_run :
  m_frontItemIdx u + 1 <= m_backItemIdx u ->
  dequeue_byte (Some i) (mkPool d p)
  = Some ((x, Some i),
      mkPool (<[i := whenUsed (mkWhenUsed (m_backFragmentIdx u)
                       (m_nextFragmentIdx u) (m_frontItemIdx u + 1)
                       (m_backItemIdx u) (bytes u))]> d) p, []).
Proof using All.
  intros Hlt. unfold dequeue_byte. rewrite dequeue_nonempty_run.
  rewrite (run_bind _ _ _ _ _ (getFrontByte_run _ _ _ _ Hu x ltac:(lia) Hx)).
  rewrite (run_bind _ _ _ _ _ (isFrontItemAtEnd_run _ _ _ _ Hu)).
  rewrite bool_decide_eq_false_2 by (rewrite to_size_t_27; lia).
  pose proof (lookup_lt_Some _ _ _ Hu) as Hilt.
  unfold incrementFrontItemIdx.
  rewrite (run_bind _ _ _ _ _ (update_whenUsed_run _ _ _ _ Hu _)).
  erewrite run_bind
    by (apply isEmpty_run; by apply list_lookup_insert_eq).
  rewrite to_char_small by lia.
  rewrite bool_decide_eq_false_2; [done|].
  unfold logically_empty. simpl. lia.
Qed.

Lemma dequeue_drain_run :
  m_frontItemIdx u <> 27 -> m_backItemIdx u < m_frontItemIdx u + 1 ->
  dequeue_byte (Some i) (mkPool d p)
  = Some ((x, None), mkPool (<[i := next p]> d) (Some i), []).
Proof using All.
  intros Hne Hlt. unfold dequeue_byte. rewrite dequeue_nonempty_run.
  rewrite (run_bind _ _ _ _ _ (getFrontByte_run _ _ _ _ Hu x ltac:(lia) Hx)).
  rewrite (run_bind _ _ _ _ _ (isFrontItemAtEnd_run _ _ _ _ Hu)).
  rewrite bool_decide_eq_false_2 by (rewrite to_size_t_27; lia).
  pose proof (lookup_lt_Some _ _ _ Hu) as Hilt.
  unfold incrementFrontItemIdx.
  rewrite (run_bind _ _ _ _ _ (update_whenUsed_run _ _ _ _ Hu _)).
  erewrite run_bind
    by (apply isEmpty_run; by apply list_lookup_insert_eq).
  rewrite to_char_small by lia.
  rewrite bool_decide_eq_true_2 by (unfold logically_empty; simpl; lia).
  erewrite run_bind
    by (apply deallocate_run; by rewrite length_insert).
  unfold ret. by rewrite list_insert_insert_eq.
Qed.
End DequeueRun.

(** ** dequeue_byte on a well-formed queue *)

Lemma dequeue_byte_shape d p free h l :
  length d = 64%nat -> FreeList d p free -> Queue d h l -> NoDup (free ++ l) ->
  exists r h' d' p' free' l2 o,
    dequeue_byte h (mkPool d p) = Some ((r, h'), mkPool d' p', o) /\
    length d' = 64%nat /\ FreeList d' p' free' /\ Queue d' h' l2 /\
    (free' = free /\ l2 = l \/ exists i, free' = i :: free /\ l = i :: l2) /\
    (forall j, j ∉ free ++ l -> d' !! j = d !! j) /\
    (o = [queue_empty_msg] /\ r = 0 /\ contents d l = [] /\ d' = d /\
     p' = p /\ h' = h /\ free' = free /\ l2 = l
     \/
     o = [] /\ contents d l = r :: contents d' l2 /\
     (contents d' l2 = [] -> h' = None)).
Proof.
  intros Hlen HF HQ Hnd. destruct l as [|i l'].
  - simpl in HQ. subst h.
    exists 0, None, d, p, free, [], [queue_empty_msg].
    rewrite dequeue_null_run. do 4 (split; [done|]). split; [by left|].
    split; [done|]. left. by split_and!.
  - pose proof HQ as HQ0. simpl in HQ.
    destruct HQ as (-> & u & Hu & Hbl & Hbk & Hfull & Hidx & Ht).
    apply NoDup_app in Hnd as (Hndf & Hdisj & Hndl).
    apply NoDup_cons in Hndl as [Hil Hndl'].
    pose proof (lookup_lt_Some _ _ _ Hu) as Hilt.
    assert (Hif : i ∉ free) by (intros Hin; apply (Hdisj i Hin); left).
    destruct Hidx as [(Hf1 & Hb1 & ->)|[Hf Hb]].
    { (* created, nothing enqueued yet *)
      exists 0, (Some i), d, p, free, [i], [queue_empty_msg].
      rewrite (dequeue_empty_run d p i u Hu) by (by left).
      do 4 (split; [done|]). split; [by left|]. split; [done|].
      left. split_and!; try done.
      unfold contents. simpl. rewrite (live_at_used _ _ _ Hu).
      unfold live. by rewrite Hf1, Hb1. }
    destruct (lookup_lt_is_Some_2 (bytes u) (Z.to_nat (m_frontItemIdx u)))
      as [x Hx]; [lia|].
    assert (HFd : FreeList (<[i := next p]> d) (Some i) (i :: free))
      by (by apply FreeList_push).
    destruct (decide (m_frontItemIdx u = 27)) as [H27|Hn27].
    + destruct l' as [|n l''].
      * (* the last byte of the only fragment *)
        simpl in Ht.
        exists x, None, (<[i := next p]> d), (Some i), (i :: free), [], [].
        rewrite (dequeue_last_run d p i u Hu x Hf Hb Hx H27 Ht).
        split; [done|]. split; [by rewrite length_insert|].
        do 2 (split; [done|]). split.
        { right. by exists i. }
        split.
        { intros j Hj. apply list_lookup_insert_ne. intros ->.
          apply Hj, elem_of_app. right. left. }
        right. split; [done|]. split; [|done].
        unfold contents. simpl. rewrite (live_at_used _ _ _ Hu).
        rewrite (live_single u x); [done | lia | lia | done].
      * (* the next fragment becomes the front *)
        simpl in Ht.
        destruct Ht as (Hn & un & Hun & Hunl & Hunf & Hunb & Hunfull & Ht).
        assert (Hni : n <> i) by (intros ->; apply Hil; left).
        apply NoDup_cons in Hndl' as [Hnl Hndl''].
        pose proof (dequeue_promote_run d p i u Hu x Hf Hb Hx n un H27 Hn Hun
                      Hni Hlen) as Hrun.
        match type of Hrun with _ = Some (_, mkPool (<[_ := _]> ?D) _, _) =>
          set (d1 := D) in * end.
        assert (Hn1 : d1 !! n = Some (whenUsed (mkWhenUsed (m_backFragmentIdx u)
                           (m_nextFragmentIdx un) 0 (m_backItemIdx un)
                           (bytes un)))).
        { unfold d1. apply list_lookup_insert_eq. by eapply lookup_lt_Some. }
        assert (Hfr1 : forall j, j <> n -> d1 !! j = d !! j).
        { intros j ?. unfold d1. by rewrite list_lookup_insert_ne. }
        assert (Hfr : forall j, j <> n -> j <> i ->
                        <[i := next p]> d1 !! j = d !! j).
        { intros j ? ?. rewrite list_lookup_insert_ne by done. by apply Hfr1. }
        exists x, (Some n), (<[i := next p]> d1), (Some i), (i :: free),
          (n :: l''), [].
        split; [done|].
        split; [unfold d1; by rewrite !length_insert|]. split.
        { apply FreeList_push; [| done | unfold d1; by rewrite length_insert].
          eapply FreeList_frame; [|done]. intros j Hj. apply Hfr1.
          intros ->. apply (Hdisj n Hj). right. left. }
        split.
        { simpl. split; [done|]. eexists.
          rewrite list_lookup_insert_ne by done. split; [exact Hn1|]. simpl.
          split; [done|]. split; [by rewrite Hbk, last_default_cons|].
          split; [done|]. split; [right; lia|].
          eapply Tail_frame; [|done]. intros j Hj. apply Hfr.
          - by intros ->.
          - intros ->. apply Hil. by right. }
        split; [right; by exists i|]. split.
        { intros j Hj. apply Hfr.
          - intros ->. apply Hj, elem_of_app. right. right. left.
          - intros ->. apply Hj, elem_of_app. right. left. }
        right. split; [done|]. split.
        { rewrite !contents_cons. rewrite (live_at_used _ _ _ Hu).
          rewrite (live_single u x); [| lia | lia | done]. simpl. f_equal.
          f_equal.
          - unfold live_at. rewrite list_lookup_insert_ne by done.
            rewrite Hn1, Hun. unfold live. simpl. by rewrite Hunf.
          - symmetry. apply contents_frame. intros j Hj. apply Hfr.
            + by intros ->.
            + intros ->. apply Hil. by right. }
        { rewrite contents_cons. unfold live_at at 1.
          rewrite list_lookup_insert_ne by done. rewrite Hn1.
          intros E. apply app_eq_nil in E as [E _]. exfalso. revert E.
          apply live_nonempty; simpl; done || lia. }
    + destruct (decide (m_frontItemIdx u + 1 <= m_backItemIdx u)) as [Hlt|Hge].
      * (* bytes remain in the front fragment *)
        pose proof (dequeue_advance_run d p i u Hu x Hf Hb Hx Hlt) as Hrun.
        name_data Hrun d'.
        assert (Hi' : d' !! i = Some (whenUsed (mkWhenUsed (m_backFragmentIdx u)
                         (m_nextFragmentIdx u) (m_frontItemIdx u + 1)
                         (m_backItemIdx u) (bytes u)))).
        { unfold d'. by apply list_lookup_insert_eq. }
        assert (Hfr : forall j, j <> i -> d' !! j = d !! j).
        { intros j ?. unfold d'. by rewrite list_lookup_insert_ne. }
        exists x, (Some i), d', p, free, (i :: l'), [].
        split; [done|]. split; [unfold d'; by rewrite length_insert|]. split.
        { eapply FreeList_frame; [|done]. intros j Hj. apply Hfr.
          by intros ->. }
        split.
        { simpl. split; [done|]. eexists. split; [exact Hi'|]. simpl.
          do 3 (split; [done|]). split; [right; lia|].
          eapply Tail_frame; [|done]. intros j Hj. apply Hfr.
          by intros ->. }
        split; [by left|]. split.
        { intros j Hj. apply Hfr. intros ->. apply Hj, elem_of_app.
          right. left. }
        right. split; [done|]. split.
        { rewrite !contents_cons, (live_at_used _ _ _ Hu),
            (live_at_used _ _ _ Hi'), (live_pop u x) by done.
          simpl. do 2 f_equal. symmetry. apply contents_frame.
          intros j Hj. apply Hfr. by intros ->. }
        { rewrite contents_cons, (live_at_used _ _ _ Hi').
          intros E. apply app_eq_nil in E as [E _]. exfalso. revert E.
          apply live_nonempty; simpl; done || lia. }
      * (* the last byte of the queue, before the end of the fragment *)
        assert (l' = []) as ->.
        { destruct l' as [|n l'']; [done|]. exfalso.
          assert (m_backItemIdx u = 27) by (by apply Hfull). lia. }
        exists x, None, (<[i := next p]> d), (Some i), (i :: free), [], [].
        rewrite (dequeue_drain_run d p i u Hu x Hf Hb Hx Hn27 ltac:(lia)).
        split; [done|]. split; [by rewrite length_insert|].
        do 2 (split; [done|]). split.
        { right. by exists i. }
        split.
        { intros j Hj. apply list_lookup_insert_ne. intros ->.
          apply Hj, elem_of_app. right. left. }
        right. split; [done|]. split; [|done].
        unfold contents. simpl. rewrite (live_at_used _ _ _ Hu).
        rewrite (live_single u x); [done | lia | lia | done].
Qed.

Lemma dequeue_byte_spec d p free h l :
  length d = 64%nat -> FreeList d p free -> Queue d h l -> NoDup (free ++ l) ->
  exists r h' d' p' free' l2 o,
    dequeue_byte h (mkPool d p) = Some ((r, h'), mkPool d' p', o) /\
    length d' = 64%nat /\ FreeList d' p' free' /\ Queue d' h' l2 /\
    free' ++ l2 ≡ₚ free ++ l /\
    (forall j, j ∉ free ++ l -> d' !! j = d !! j) /\
    (o = [queue_empty_msg] /\ r = 0 /\ contents d l = [] /\ d' = d /\
     p' = p /\ h' = h /\ free' = free /\ l2 = l
     \/
     o = [] /\ contents d l = r :: contents d' l2 /\
     (contents d' l2 = [] -> h' = None)).
Proof.
  intros Hlen HF HQ Hnd.
  destruct (dequeue_byte_shape d p free h l Hlen HF HQ Hnd)
    as (r & h' & d' & p' & free' & l2 & o & Hrun & Hlen' & HF' & HQ' & Hshape
        & Hfr & Hcase).
  exists r, h', d', p', free', l2, o. do 4 (split; [done|]).
  split; [|done].
  destruct Hshape as [[-> ->]|(i & -> & ->)]; [done|].
  apply (Permutation_middle free l2 i).
Qed.

(** ** destroy_queue on a well-formed queue *)

Lemma Tail_Links d nx l : Tail d nx l -> Links d nx l.
Proof.
  revert nx. induction l as [|i l IH]; simpl; intros nx H; [done|].
  destruct H as (-> & u & Hu & _ & _ & _ & _ & H). eauto.
Qed.

Lemma Queue_Links d i l :
  Queue d (Some i) (i :: l) -> Links d (Z.of_nat i) (i :: l).
Proof.
  simpl. intros (_ & u & Hu & _ & _ & _ & _ & H). split; [done|].
  exists u. split; [done|]. by apply Tail_Links.
Qed.

Lemma Links_frame d d' nx l :
  (forall i, i ∈ l -> d' !! i = d !! i) -> Links d nx l -> Links d' nx l.
Proof.
  revert nx. induction l as [|i l IH]; simpl; intros nx Hf H; [done|].
  destruct H as (-> & u & Hu & H). split; [done|]. exists u.
  rewrite Hf by left. split; [done|]. apply IH; [|done].
  intros j Hj. apply Hf. by right.
Qed.

Lemma destroy_links l : forall d p free nx fuel,
  length d = 64%nat -> Links d nx l -> FreeList d p free ->
  NoDup (free ++ l) -> (length l <= fuel)%nat ->
  exists d' p',
    destroy_queue fuel (head l) (mkPool d p) = Some (None, mkPool d' p', []) /\
    length d' = 64%nat /\ FreeList d' p' (reverse l ++ free) /\
    (forall j, j ∉ l -> d' !! j = d !! j).
Proof.
  induction l as [|i l IH]; intros d p free nx fuel Hlen HL HF Hnd Hfuel.
  - exists d, p. simpl. split; [by destruct fuel | done].
  - simpl in HL. destruct HL as (-> & u & Hu & HL).
    destruct fuel as [|fuel]; [simpl in Hfuel; lia|].
    pose proof (lookup_lt_Some _ _ _ Hu) as Hilt.
    apply NoDup_app in Hnd as (Hndf & Hdisj & Hndl).
    apply NoDup_cons in Hndl as [Hil Hndl].
    assert (Hif : i ∉ free) by (intros Hin; apply (Hdisj i Hin); left).
    assert (Hnext : getNextFragment (Some i) (mkPool d p)
                    = Some (head l, mkPool d p, [])).
    { destruct l as [|n l]; simpl in HL.
      - by apply (getNextFragment_null _ _ _ u).
      - destruct HL as (Hn & un & Hun & _).
        pose proof (lookup_lt_Some _ _ _ Hun).
        rewrite (getNextFragment_run _ _ _ _ Hu) by lia.
        by rewrite Hn, Nat2Z.id. }
    destruct (IH (<[i := next p]> d) (Some i) (i :: free)
                 (m_nextFragmentIdx u) fuel) as (d' & p' & Hrun & ? & HF' & Hfr).
    + by rewrite length_insert.
    + eapply Links_frame; [|done]. intros j Hj.
      apply list_lookup_insert_ne. by intros ->.
    + by apply FreeList_push.
    + apply NoDup_app. split_and!; [by apply NoDup_cons | | done].
      intros j Hj. apply elem_of_cons in Hj as [->|Hj]; [done|].
      intros Hin. apply (Hdisj j Hj). by right.
    + simpl in Hfuel. lia.
    + exists d', p'. split.
      { simpl. rewrite (run_bind _ _ _ _ _ Hnext).
        rewrite (run_bind _ _ _ _ _ (deallocate_run _ _ _ Hilt)). exact Hrun. }
      split; [done|]. split.
      { by rewrite reverse_cons, <- app_assoc. }
      intros j Hj. rewrite Hfr.
      * apply list_lookup_insert_ne. intros ->. apply Hj. left.
      * intros Hin. apply Hj. by right.
Qed.

Lemma destroy_queue_spec d p free h l fuel :
  length d = 64%nat -> FreeList d p free -> Queue d h l ->
  NoDup (free ++ l) -> (length l <= fuel)%nat ->
  exists d' p',
    destroy_queue fuel h (mkPool d p) = Some (None, mkPool d' p', []) /\
    length d' = 64%nat /\ FreeList d' p' (reverse l ++ free) /\
    (forall j, j ∉ l -> d' !! j = d !! j).
Proof.
  intros Hlen HF HQ Hnd Hfuel.
  assert (h = head l) as ->.
  { destruct l; simpl in HQ; [done | by destruct HQ]. }
  destruct l as [|i l].
  - apply (destroy_links [] d p free (-1)); done.
  - apply (destroy_links (i :: l) d p free (Z.of_nat i)); try done.
    by apply Queue_Links.
Qed.

(** ** The fragments are shared out *)

Lemma concat_lookup_perm (chains : list (list nat)) q l :
  chains !! q = Some l -> concat chains ≡ₚ l ++ others q chains.
Proof.
  intros Hq. unfold others.
  rewrite <- (take_drop_middle _ _ _ Hq) at 1.
  rewrite concat_app, concat_cons. apply Permutation_app_swap_app.
Qed.

Lemma others_insert (chains : list (list nat)) q l :
  others q (<[q := l]> chains) = others q chains.
Proof.
  unfold others. by rewrite take_insert_ge, drop_insert_lt by lia.
Qed.

Lemma others_elem (chains : list (list nat)) q i a j :
  chains !! i = Some a -> i <> q -> j ∈ a -> j ∈ others q chains.
Proof.
  intros Hi Hne Hj. unfold others. apply elem_of_app.
  destruct (decide (i < q)%nat).
  - left. apply list_elem_of_In, in_concat. exists a. split.
    + apply list_elem_of_In, list_elem_of_lookup. exists i.
      by rewrite lookup_take_lt.
    + by apply list_elem_of_In.
  - right. apply list_elem_of_In, in_concat. exists a. split.
    + apply list_elem_of_In, list_elem_of_lookup. exists (i - S q)%nat.
      rewrite lookup_drop. by replace (S q + (i - S q))%nat with i by lia.
    + by apply list_elem_of_In.
Qed.

Lemma Shares_NoDup s hs free chains q l :
  Shares s hs free chains -> chains !! q = Some l ->
  NoDup (free ++ l ++ others q chains).
Proof.
  intros (_ & _ & _ & Hperm) Hq.
  rewrite <- (concat_lookup_perm _ _ _ Hq), Hperm. apply NoDup_seq.
Qed.

Lemma Shares_NoDup_local s hs free chains q l :
  Shares s hs free chains -> chains !! q = Some l -> NoDup (free ++ l).
Proof.
  intros HS Hq. pose proof (Shares_NoDup _ _ _ _ _ _ HS Hq) as Hnd.
  rewrite app_assoc in Hnd. by apply NoDup_app in Hnd as (? & _ & _).
Qed.

Lemma Shares_apart s hs free chains q l i a j :
  Shares s hs free chains -> chains !! q = Some l -> chains !! i = Some a ->
  i <> q -> j ∈ a -> j ∉ free ++ l.
Proof.
  intros HS Hq Hi Hne Hj Hin.
  pose proof (Shares_NoDup _ _ _ _ _ _ HS Hq) as Hnd.
  rewrite app_assoc in Hnd. apply NoDup_app in Hnd as (_ & Hdisj & _).
  apply (Hdisj j Hin). by eapply others_elem.
Qed.

Lemma Shares_lookup s hs free chains q h :
  Shares s hs free chains -> hs !! q = Some h ->
  exists l, chains !! q = Some l /\ Queue (data s) h l.
Proof.
  intros (_ & _ & HQ & _) Hq.
  destruct (Forall2_lookup_l _ _ _ _ _ HQ Hq) as (l & ? & ?). eauto.
Qed.

Lemma Shares_update d p hs free chains q h l d' p' h' free' l2 :
  Shares (mkPool d p) hs free chains ->
  hs !! q = Some h -> chains !! q = Some l ->
  length d' = 64%nat -> FreeList d' p' free' -> Queue d' h' l2 ->
  free' ++ l2 ≡ₚ free ++ l ->
  (forall j, j ∉ free ++ l -> d' !! j = d !! j) ->
  Shares (mkPool d' p') (<[q := h']> hs) free' (<[q := l2]> chains).
Proof.
  intros HS Hh Hl Hlen' HF' HQ' Hperm Hfr.
  pose proof HS as (Hlen & HF & HQ & Hall). simpl in *.
  split_and!; simpl; try done.
  - apply Forall2_lookup. intros i.
    destruct (decide (i = q)) as [->|Hne].
    + rewrite !list_lookup_insert_eq
        by (by eapply lookup_lt_Some). by constructor.
    + rewrite !list_lookup_insert_ne by done.
      pose proof (proj1 (Forall2_lookup _ _ _) HQ i) as Hi.
      destruct (hs !! i) as [hi|] eqn:Hhi;
        destruct (chains !! i) as [li|] eqn:Hli;
        inversion Hi; subst; constructor.
      eapply Queue_frame; [|done]. intros j Hj. apply Hfr.
      by eapply (Shares_apart _ _ _ _ q l i li).
  - rewrite (concat_lookup_perm (<[q := l2]> chains) q l2)
      by (apply list_lookup_insert_eq; by eapply lookup_lt_Some).
    rewrite others_insert, app_assoc, Hperm, <- app_assoc.
    by rewrite <- (concat_lookup_perm _ _ _ Hl).
Qed.

Lemma Shares_extend d p hs free chains d' p' h' free' l2 :
  Shares (mkPool d p) hs free chains ->
  length d' = 64%nat -> FreeList d' p' free' -> Queue d' h' l2 ->
  free' ++ l2 ≡ₚ free ->
  (forall j, j ∉ free -> d' !! j = d !! j) ->
  Shares (mkPool d' p') (hs ++ [h']) free' (chains ++ [l2]).
Proof.
  intros HS Hlen' HF' HQ' Hperm Hfr.
  pose proof HS as (Hlen & HF & HQ & Hall). simpl in *.
  assert (Hnd : NoDup (free ++ concat chains))
    by (rewrite Hall; exact (NoDup_seq 0 64)).
  apply NoDup_app in Hnd as (_ & Hdisj & _).
  split_and!; simpl; try done.
  - apply Forall2_app; [|by repeat constructor].
    apply Forall2_lookup. intros i.
    pose proof (proj1 (Forall2_lookup _ _ _) HQ i) as Hi.
    destruct (hs !! i) as [hi|] eqn:Hhi;
      destruct (chains !! i) as [li|] eqn:Hli;
      inversion Hi; subst; constructor.
    eapply Queue_frame; [|done]. intros j Hj. apply Hfr.
    intros Hin. apply (Hdisj j Hin).
    apply list_elem_of_In, in_concat. exists li. split.
    + apply list_elem_of_In, list_elem_of_lookup. eauto.
    + by apply list_elem_of_In.
  - rewrite concat_app. simpl. rewrite app_nil_r.
    rewrite (Permutation_app_comm (concat chains)), app_assoc, Hperm. done.
Qed.

Lemma Shares_length s hs free chains :
  Shares s hs free chains -> (length free + length (concat chains) = 64)%nat.
Proof.
  intros (_ & _ & _ & Hperm). apply Permutation_length in Hperm.
  by rewrite length_app, length_seq in Hperm.
Qed.

Lemma Shares_chain_length s hs free chains q l :
  Shares s hs free chains -> chains !! q = Some l ->
  (length free + length l <= 64)%nat.
Proof.
  intros HS Hq. pose proof (Shares_length _ _ _ _ HS) as Hl.
  pose proof (concat_lookup_perm _ _ _ Hq) as Hp.
  apply Permutation_length in Hp. rewrite length_app in Hp. lia.
Qed.

Lemma Shares_free_list s hs free chains :
  Shares s hs free chains -> free_list s = free.
Proof.
  intros HS. pose proof (Shares_length _ _ _ _ HS).
  destruct HS as (_ & HF & _). apply free_walk_FreeList; [done | lia].
Qed.

Lemma Shares_segments s hs free chains q h l :
  Shares s hs free chains -> hs !! q = Some h -> chains !! q = Some l ->
  segments s h = l.
Proof.
  intros HS Hh Hl. pose proof (Shares_chain_length _ _ _ _ _ _ HS Hl).
  destruct (Shares_lookup _ _ _ _ _ _ HS Hh) as (l' & Hl' & HQ).
  assert (l' = l) as -> by congruence.
  apply seg_walk_Queue; [done | lia].
Qed.

Lemma Shares_all_segments s hs free chains :
  Shares s hs free chains -> map (segments s) hs = chains.
Proof.
  intros HS. apply list_eq. intros i. rewrite list_lookup_fmap.
  pose proof HS as (_ & _ & HQ & _).
  pose proof (proj1 (Forall2_lookup _ _ _) HQ i) as Hi.
  destruct (hs !! i) as [hi|] eqn:Hhi;
    destruct (chains !! i) as [li|] eqn:Hli; inversion Hi; subst; [|done].
  simpl. f_equal. by eapply Shares_segments.
Qed.

Lemma Shares_in_use w free chains :
  Shares (pool w) (handles w) free chains ->
  (in_use w + length free = 64)%nat.
Proof.
  intros HS. unfold in_use. rewrite (Shares_all_segments _ _ _ _ HS).
  pose proof (Shares_length _ _ _ _ HS). lia.
Qed.

Lemma Shares_queue_bytes s hs free chains q h l :
  Shares s hs free chains -> hs !! q = Some h -> chains !! q = Some l ->
  queue_bytes s h = contents (data s) l.
Proof.
  intros HS Hh Hl. unfold queue_bytes.
  by rewrite (Shares_segments _ _ _ _ _ _ _ HS Hh Hl).
Qed.

(** ** The initial pool *)

Lemma Shares_new : Shares FragmentPool_new [] (seq 0 64) [].
Proof.
  split_and!; [done | | constructor | by rewrite app_nil_r].
  cbn -[seq]. change (seq 0 64) with (seq 0 32 ++ seq 32 32).
  vm_compute seq.
  repeat (split; [reflexivity|]; eexists; split; [reflexivity|]).
  reflexivity.
Qed.

Lemma Inv_world0 : Inv world0.
Proof. exists (seq 0 64), []. apply Shares_new. Qed.

(** ** One operation of the caller *)

Lemma step_create w free chains :
  Shares (pool w) (handles w) free chains ->
  exists w' h' free' l2,
    step Create w = Some w' /\
    handles w' = handles w ++ [h'] /\ dequeued w' = dequeued w /\
    Shares (pool w') (handles w') free' (chains ++ [l2]) /\
    free' ++ l2 ≡ₚ free /\
    (forall j, j ∉ free -> data (pool w') !! j = data (pool w) !! j) /\
    (free = [] /\ h' = None /\ pool w' = pool w /\
     stdout w' = stdout w ++ [out_of_memory_msg]
     \/
     h' <> None /\ stdout w' = stdout w /\ queue_bytes (pool w') h' = []).
Proof.
  destruct w as [[d p] hs dq out]. simpl. intros HS.
  pose proof HS as (Hlen & HF & HQ & Hall). simpl in Hlen, HF, HQ.
  destruct free as [|a free'].
  - simpl in HF. subst p.
    exists (mkWorld (mkPool d None) (hs ++ [None]) dq
              (out ++ [out_of_memory_msg])), None, [], [].
    simpl. split; [done|]. do 2 (split; [done|]). split.
    { by apply (Shares_extend d None hs [] chains). }
    do 2 (split; [done|]). by left.
  - destruct HF as (-> & q & Ha & HF).
    pose proof (lookup_lt_Some _ _ _ Ha) as Halt.
    assert (Hnd : NoDup ((a :: free') ++ concat chains))
      by (rewrite Hall; exact (NoDup_seq 0 64)).
    apply NoDup_app in Hnd as (Hndf & _ & _).
    apply NoDup_cons in Hndf as [Haf _].
    pose proof (create_queue_run d a q Hlen Ha) as Hrun.
    name_data Hrun d'.
    assert (HS' : Shares (mkPool d' q) (hs ++ [Some a]) free' (chains ++ [[a]])).
    { apply (Shares_extend d (Some a) hs (a :: free') chains); try done.
      - unfold d'. by rewrite length_insert.
      - eapply FreeList_frame; [|done]. intros j Hj. unfold d'.
        apply list_lookup_insert_ne. by intros ->.
      - by apply Queue_fresh.
      - by rewrite <- Permutation_cons_append.
      - intros j Hj. unfold d'. apply list_lookup_insert_ne. intros ->.
        apply Hj. left. }
    exists (mkWorld (mkPool d' q) (hs ++ [Some a]) dq (out ++ [])),
      (Some a), free', [a].
    simpl. rewrite Hrun. simpl. split; [done|]. do 2 (split; [done|]).
    split; [done|]. split; [by rewrite <- Permutation_cons_append|]. split.
    { intros j Hj. unfold d'. apply list_lookup_insert_ne. intros ->.
      apply Hj. left. }
    right. split; [done|]. split; [by rewrite app_nil_r|].
    rewrite (Shares_queue_bytes _ _ _ _ (length hs) _ [a] HS').
    + unfold contents, d'. simpl. unfold live_at.
      by rewrite list_lookup_insert_eq.
    + by rewrite lookup_app_r, Nat.sub_diag.
    + rewrite lookup_app_r; rewrite <- (Forall2_length _ _ _ HQ);
        [by rewrite Nat.sub_diag | done].
Qed.

Lemma step_enqueue w free chains q h l byte :
  Shares (pool w) (handles w) free chains ->
  handles w !! q = Some h -> chains !! q = Some l ->
  exists w' h' free' l2,
    step (Enqueue q byte) w = Some w' /\
    handles w' = <[q := h']> (handles w) /\ dequeued w' = dequeued w /\
    Shares (pool w') (handles w') free' (<[q := l2]> chains) /\
    (forall j, j ∉ free ++ l ->
               data (pool w') !! j = data (pool w) !! j) /\
    (stdout w' = stdout w /\
     contents (data (pool w')) l2
     = contents (data (pool w)) l ++ [byte `mod` 256] /\
     front_idx (data (pool w')) h'
     = Z.max 0 (front_idx (data (pool w)) h)
     \/
     stdout w' = stdout w ++ [out_of_memory_msg] /\ pool w' = pool w /\
     h' = h /\ free' = free /\ l2 = l /\ free = [] /\
     (front_idx (data (pool w)) h <= 0 ->
      length (contents (data (pool w)) l) = (28 * length l)%nat)).
Proof.
  destruct w as [[d p] hs dq out]. simpl. intros HS Hh Hl.
  pose proof HS as (Hlen & HF & _). simpl in Hlen, HF.
  destruct (Shares_lookup _ _ _ _ _ _ HS Hh) as (l' & Hl' & HQ).
  assert (l' = l) as -> by congruence. simpl in HQ.
  destruct (enqueue_byte_spec d p free h l (to_uchar byte) Hlen HF HQ
              (Shares_NoDup_local _ _ _ _ _ _ HS Hl))
    as (h' & d' & p' & free' & l2 & o & Hrun & Hlen' & HF' & HQ' & Hperm
        & Hfr & Hcase).
  exists (mkWorld (mkPool d' p') (<[q := h']> hs) dq (out ++ o)),
    h', free', l2.
  rewrite Hh. simpl. rewrite Hrun. simpl. do 3 (split; [done|]).
  split; [by eapply Shares_update|]. split; [done|].
  unfold to_uchar in Hcase. rewrite Zmod_mod in Hcase.
  destruct Hcase as [(-> & ? & ?)|(-> & -> & -> & ? & ? & ? & ? & ?)].
  - left. by rewrite app_nil_r.
  - right. by split_and!.
Qed.

Lemma step_dequeue w free chains q h l :
  Shares (pool w) (handles w) free chains ->
  handles w !! q = Some h -> chains !! q = Some l ->
  exists w' r h' free' l2,
    step (Dequeue q) w = Some w' /\
    handles w' = <[q := h']> (handles w) /\
    dequeued w' = dequeued w ++ [r] /\
    Shares (pool w') (handles w') free' (<[q := l2]> chains) /\
    free' ++ l2 ≡ₚ free ++ l /\
    (forall j, j ∉ free ++ l ->
               data (pool w') !! j = data (pool w) !! j) /\
    (stdout w' = stdout w ++ [queue_empty_msg] /\ r = 0 /\
     contents (data (pool w)) l = [] /\ pool w' = pool w /\
     h' = h /\ free' = free /\ l2 = l
     \/
     stdout w' = stdout w /\
     contents (data (pool w)) l = r :: contents (data (pool w')) l2 /\
     (contents (data (pool w')) l2 = [] -> h' = None)).
Proof.
  destruct w as [[d p] hs dq out]. simpl. intros HS Hh Hl.
  pose proof HS as (Hlen & HF & _). simpl in Hlen, HF.
  destruct (Shares_lookup _ _ _ _ _ _ HS Hh) as (l' & Hl' & HQ).
  assert (l' = l) as -> by congruence. simpl in HQ.
  destruct (dequeue_byte_spec d p free h l Hlen HF HQ
              (Shares_NoDup_local _ _ _ _ _ _ HS Hl))
    as (r & h' & d' & p' & free' & l2 & o & Hrun & Hlen' & HF' & HQ' & Hperm
        & Hfr & Hcase).
  exists (mkWorld (mkPool d' p') (<[q := h']> hs) (dq ++ [r]) (out ++ o)),
    r, h', free', l2.
  rewrite Hh. simpl. rewrite Hrun. simpl. do 3 (split; [done|]).
  split; [by eapply Shares_update|]. do 2 (split; [done|]).
  destruct Hcase as [(-> & ? & ? & -> & -> & ? & ? & ?)|(-> & ? & ?)].
  - left. by split_and!.
  - right. by rewrite app_nil_r.
Qed.

Lemma step_destroy w free chains q h l :
  Shares (pool w) (handles w) free chains ->
  handles w !! q = Some h -> chains !! q = Some l ->
  exists w',
    step (Destroy q) w = Some w' /\
    handles w' = <[q := None]> (handles w) /\ dequeued w' = dequeued w /\
    stdout w' = stdout w /\
    Shares (pool w') (handles w') (reverse l ++ free) (<[q := []]> chains) /\
    (forall j, j ∉ l -> data (pool w') !! j = data (pool w) !! j).
Proof.
  destruct w as [[d p] hs dq out].
  unfold step. cbn [pool handles dequeued stdout data]. intros HS Hh Hl.
  pose proof HS as (Hlen & HF & _). simpl in Hlen, HF.
  destruct (Shares_lookup _ _ _ _ _ _ HS Hh) as (l' & Hl' & HQ).
  assert (l' = l) as -> by congruence. simpl in HQ.
  pose proof (Shares_chain_length _ _ _ _ _ _ HS Hl) as Hll.
  destruct (destroy_queue_spec d p free h l 64 Hlen HF HQ
              (Shares_NoDup_local _ _ _ _ _ _ HS Hl) ltac:(lia))
    as (d' & p' & Hrun & Hlen' & HF' & Hfr).
  exists (mkWorld (mkPool d' p') (<[q := None]> hs) dq (out ++ [])).
  rewrite Hh. cbn [mbind option_bind]. rewrite Hrun.
  cbn [mbind option_bind pool handles dequeued stdout data].
  do 3 (split; [done|]).
  split; [by rewrite app_nil_r|]. split; [|done].
  eapply Shares_update; try done.
  - rewrite app_nil_r, reverse_Permutation. apply Permutation_app_comm.
  - intros j Hj. apply Hfr. intros Hin. apply Hj, elem_of_app. by right.
Qed.

(** ** The invariant holds in every reachable state *)

Lemma step_Inv o w w' : Inv w -> step o w = Some w' -> Inv w'.
Proof.
  intros (free & chains & HS) Hstep. destruct o as [|q byte|q|q].
  - destruct (step_create w free chains HS)
      as (w1 & h' & free' & l2 & Hs & _ & _ & HS' & _).
    assert (w1 = w') as -> by congruence. by eexists _, _.
  - destruct (handles w !! q) as [h|] eqn:Hh;
      [|simpl in Hstep; by rewrite Hh in Hstep].
    destruct (Shares_lookup _ _ _ _ _ _ HS Hh) as (l & Hl & _).
    destruct (step_enqueue w free chains q h l byte HS Hh Hl)
      as (w1 & h' & free' & l2 & Hs & _ & _ & HS' & _).
    assert (w1 = w') as -> by congruence. by eexists _, _.
  - destruct (handles w !! q) as [h|] eqn:Hh;
      [|simpl in Hstep; by rewrite Hh in Hstep].
    destruct (Shares_lookup _ _ _ _ _ _ HS Hh) as (l & Hl & _).
    destruct (step_dequeue w free chains q h l HS Hh Hl)
      as (w1 & r & h' & free' & l2 & Hs & _ & _ & HS' & _).
    assert (w1 = w') as -> by congruence. by eexists _, _.
  - destruct (handles w !! q) as [h|] eqn:Hh;
      [|simpl in Hstep; by rewrite Hh in Hstep].
    destruct (Shares_lookup _ _ _ _ _ _ HS Hh) as (l & Hl & _).
    destruct (step_destroy w free chains q h l HS Hh Hl)
      as (w1 & Hs & _ & _ & _ & HS' & _).
    assert (w1 = w') as -> by congruence. by eexists _, _.
Qed.

Lemma run_Inv ops : forall w w', Inv w -> run ops w = Some w' -> Inv w'.
Proof.
  induction ops as [|o ops IH]; simpl; intros w w' HI Hrun.
  - by inversion Hrun; subst.
  - destruct (step o w) as [w1|] eqn:Hs; [|done]. simpl in Hrun.
    eapply IH; [|done]. by eapply step_Inv.
Qed.

Lemma reachable_Inv w : reachable w -> Inv w.
Proof. intros [ops Hrun]. eapply run_Inv; [apply Inv_world0 | done]. Qed.

Lemma run_cons o ops w : run (o :: ops) w = w1 ← step o w; run ops w1.
Proof. reflexivity. Qed.

Lemma run_app ops1 ops2 w :
  run (ops1 ++ ops2) w = w1 ← run ops1 w; run ops2 w1.
Proof.
  revert w. induction ops1 as [|o ops1 IH]; simpl; intros w; [done|].
  destruct (step o w); simpl; [apply IH | done].
Qed.

(** ** Operations that print nothing and reads that change nothing *)

Lemma pure_silent {A} (m : M A) : pure m -> silent m.
Proof. intros H s a s' o E. by destruct (H _ _ _ _ E). Qed.

Lemma silent_bind {A B} (m : M A) (k : A -> M B) :
  silent m -> (forall a, silent (k a)) -> silent (bind m k).
Proof.
  intros Hm Hk s b s2 o E.
  apply bind_inv in E as (a & s1 & o1 & o2 & E1 & E2 & ->).
  by rewrite (Hm _ _ _ _ E1), (Hk _ _ _ _ _ E2).
Qed.

Lemma pure_bind {A B} (m : M A) (k : A -> M B) :
  pure m -> (forall a, pure (k a)) -> pure (bind m k).
Proof.
  intros Hm Hk s b s2 o E.
  apply bind_inv in E as (a & s1 & o1 & o2 & E1 & E2 & ->).
  destruct (Hm _ _ _ _ E1) as [-> ->].
  by destruct (Hk _ _ _ _ _ E2) as [-> ->].
Qed.

Lemma pure_ret {A} (a : A) : pure (ret a).
Proof. intros s a' s' o [= <- <- <-]. done. Qed.

Lemma pure_undefined {A} : pure (@undefined A).
Proof. intros s a s' o [=]. Qed.

Lemma pure_load i : pure (load i).
Proof.
  intros s a s' o. unfold load. destruct (data s !! i); [|done].
  by intros [= <- <- <-].
Qed.

Lemma silent_store i c : silent (store i c).
Proof.
  intros s a s' o. unfold store. case_decide; [|done]. by intros [= <- <- <-].
Qed.

Create HintDb quiet.
#[local] Hint Resolve pure_ret pure_undefined pure_load silent_store
  pure_silent : quiet.

Lemma pure_chunk_whenUsed this : pure (chunk_whenUsed this).
Proof.
  destruct this; simpl; [|apply pure_undefined].
  apply pure_bind; [apply pure_load|]. intros [u|nf]; auto with quiet.
Qed.
#[local] Hint Resolve pure_chunk_whenUsed : quiet.

Lemma pure_getBackFragmentIdx this : pure (getBackFragmentIdx this).
Proof. apply pure_bind; auto with quiet. Qed.

Lemma pure_getNextFragmentIdx this : pure (getNextFragmentIdx this).
Proof. apply pure_bind; auto with quiet. Qed.

Lemma pure_getFrontItemIdx this : pure (getFrontItemIdx this).
Proof. apply pure_bind; auto with quiet. Qed.

Lemma pure_getBackItemIdx this : pure (getBackItemIdx this).
Proof. apply pure_bind; auto with quiet. Qed.
#[local] Hint Resolve pure_getBackFragmentIdx pure_getNextFragmentIdx
  pure_getFrontItemIdx pure_getBackItemIdx : quiet.

Lemma pure_getPointerAtIndex idx : pure (getPointerAtIndex idx).
Proof. unfold getPointerAtIndex. case_decide; auto with quiet. Qed.
#[local] Hint Resolve pure_getPointerAtIndex : quiet.

Lemma pure_getBackFragment this : pure (getBackFragment this).
Proof.
  apply pure_bind; [auto with quiet|]. intros idx.
  case_decide; [auto with quiet|]. apply pure_bind; auto with quiet.
Qed.

Lemma pure_getNextFragment this : pure (getNextFragment this).
Proof.
  apply pure_bind; [auto with quiet|]. intros idx.
  case_decide; [auto with quiet|]. apply pure_bind; auto with quiet.
Qed.

Lemma pure_getFrontByte this : pure (getFrontByte this).
Proof.
  apply pure_bind; [auto with quiet|]. intros idx.
  apply pure_bind; [auto with quiet|]. intros u.
  case_decide; [|auto with quiet].
  destruct (bytes u !! Z.to_nat idx); auto with quiet.
Qed.

Lemma pure_isEmpty this : pure (isEmpty this).
Proof.
  apply pure_bind; [auto with quiet|]. intros f.
  case_decide; [auto with quiet|].
  apply pure_bind; [auto with quiet|]. intros b.
  apply pure_bind; auto with quiet.
Qed.

Lemma pure_isFrontItemAtEnd this : pure (isFrontItemAtEnd this).
Proof. apply pure_bind; auto with quiet. Qed.

Lemma pure_isBackItemAtEnd this : pure (isBackItemAtEnd this).
Proof. apply pure_bind; auto with quiet. Qed.
#[local] Hint Resolve pure_getBackFragment pure_getNextFragment
  pure_getFrontByte pure_isEmpty pure_isFrontItemAtEnd pure_isBackItemAtEnd
  : quiet.

Lemma silent_update_whenUsed this f : silent (update_whenUsed this f).
Proof.
  destruct this as [i|]; [|by intros s a s' o].
  unfold update_whenUsed.
  apply silent_bind; [apply pure_silent, pure_chunk_whenUsed|].
  intros u. apply silent_store.
Qed.
#[local] Hint Resolve silent_update_whenUsed : quiet.

Lemma silent_deallocate ptr : silent (deallocate ptr).
Proof.
  unfold deallocate, eraseFragment, setNextFree.
  destruct ptr; [|intros s a s' o; done].
  apply silent_bind; [auto with quiet|]. intros _.
  apply silent_bind; [by intros s a s' o [= <- <- <-]|]. intros hd.
  apply silent_bind; [auto with quiet|]. intros _.
  by intros s a s' o [= <- <- <-].
Qed.
#[local] Hint Resolve silent_deallocate : quiet.

(** Past the test for an empty queue, [dequeue_byte] prints nothing. *)
Lemma silent_dequeue_rest front :
  silent (dequeuedByte <- getFrontByte front ;;
    atEnd <- isFrontItemAtEnd front ;;
    if (atEnd : bool) then
      n <- getNextFragmentIdx front ;;
      if decide (n = -1) then
        deallocate front ;;
        ret (dequeuedByte, None)
      else
        newFront <- getNextFragment front ;;
        b <- getBackFragmentIdx front ;;
        setBackFragmentIdx newFront b ;;
        setFrontItemIdx newFront 0 ;;
        deallocate front ;;
        ret (dequeuedByte, newFront)
    else
      incrementFrontItemIdx front ;;
      empty <- isEmpty front ;;
      if (empty : bool) then
        deallocate front ;;
        ret (dequeuedByte, None)
      else ret (dequeuedByte, front)).
Proof.
  apply silent_bind; [auto with quiet|]. intros x.
  apply silent_bind; [auto with quiet|]. intros [|].
  - apply silent_bind; [auto with quiet|]. intros n. case_decide.
    + apply silent_bind; auto with quiet.
    + apply silent_bind; [auto with quiet|]. intros nf.
      apply silent_bind; [auto with quiet|]. intros b.
      apply silent_bind; [apply silent_update_whenUsed|]. intros _.
      apply silent_bind; [apply silent_update_whenUsed|]. intros _.
      apply silent_bind; auto with quiet.
  - apply silent_bind; [apply silent_update_whenUsed|]. intros _.
    apply silent_bind; [auto with quiet|]. intros [|].
    + apply silent_bind; auto with quiet.
    + auto with quiet.
Qed.

Lemma isEmpty_inv front s e s' o :
  isEmpty front s = Some (e, s', o) ->
  exists i u, front = Some i /\ data s !! i = Some (whenUsed u) /\
    e = bool_decide (logically_empty u).
Proof.
  intros E. destruct front as [i|]; [|done].
  destruct (data s !! i) as [[u|nf]|] eqn:Hi.
  - destruct s as [d p]. simpl in Hi.
    rewrite (isEmpty_run _ _ _ _ Hi) in E. inversion E. eauto.
  - unfold isEmpty, getFrontItemIdx, chunk_whenUsed, bind, load in E.
    by rewrite Hi in E.
  - unfold isEmpty, getFrontItemIdx, chunk_whenUsed, bind, load in E.
    by rewrite Hi in E.
Qed.

(** * The claims of the specification *)

(** ** C9: the reference workload *)

(** C9. From the initial pool the test of [main] prints 0 1, 2 5 and 3 4 6;
    as a run of the caller's operations it dequeues 0, 1, 2, 5 from queue 0
    and 3, 4, 6 from queue 1, every operation leaves the fragments of the
    other queue unchanged and dequeues the oldest byte of its own queue, and
    at the end both handles are null and all 64 fragments are on the free
    list. *)
Theorem main_workload :
  (exists s,
     main FragmentPool_new
     = Some (0, s, [printed 0; printed 1; newline; printed 2; printed 5;
                    newline; printed 3; printed 4; printed 6; newline]) /\
     (exists w, run main_ops world0 = Some w /\ pool w = s /\
        handles w = [None; None] /\ stdout w = [] /\ in_use w = 0%nat) /\
     length (free_list s) = 64%nat /\ free_list s ≡ₚ seq 0 64) /\
  outputs main_ops world0
  = [(0%nat, 0); (0%nat, 1); (0%nat, 2); (0%nat, 5);
     (1%nat, 3); (1%nat, 4); (1%nat, 6)] /\
  isolated main_ops world0 = true.
Proof.
  split; [|split; vm_compute; reflexivity].
  destruct (main FragmentPool_new) as [[[r s] o]|] eqn:Hmain;
    [|vm_compute in Hmain; discriminate].
  exists s. vm_compute in Hmain. inversion Hmain; subst. clear Hmain.
  split; [reflexivity|]. split.
  - eexists. split; [vm_compute; reflexivity|]. by vm_compute.
  - split; [by vm_compute|]. vm_compute. apply perm_swap.
Qed.

(** ** C4 and C10: dequeue_byte on an empty queue *)

(** C4. [dequeue_byte] fails, reporting the empty queue, exactly when the
    handle is null or the front fragment is logically empty: in that case
    it returns a sentinel and leaves the handle and the pool as they were;
    and whenever a call reports the empty queue, the handle was null or the
    front fragment logically empty. *)
Theorem dequeue_fails_iff_empty s front :
  ((front = None \/
    exists i u, front = Some i /\ data s !! i = Some (whenUsed u) /\
                logically_empty u) ->
   exists sentinel,
     dequeue_byte front s = Some ((sentinel, front), s, [queue_empty_msg])) /\
  (forall r s' o,
     dequeue_byte front s = Some (r, s', o) -> queue_empty_msg ∈ o ->
     front = None \/
     exists i u, front = Some i /\ data s !! i = Some (whenUsed u) /\
                 logically_empty u).
Proof.
  split.
  - intros [->|(i & u & -> & Hu & He)]; exists 0.
    + apply dequeue_null_run.
    + destruct s as [d p]. by apply (dequeue_empty_run d p i u).
  - intros r s' o E Hin. destruct front as [i|]; [right | by left].
    unfold dequeue_byte in E.
    apply bind_inv in E as (e & s1 & o1 & o2 & E1 & E2 & ->).
    destruct (pure_isEmpty _ _ _ _ _ E1) as [-> ->].
    destruct (isEmpty_inv _ _ _ _ _ E1) as (i' & u & [= <-] & Hu & ->).
    exists i, u. split; [done|]. split; [done|].
    case_bool_decide as He; [done|]. exfalso.
    apply silent_dequeue_rest in E2. subst o2. simpl in Hin.
    by apply elem_of_nil in Hin.
Qed.

Lemma dequeue_fails_iff_empty_witness :
  (exists sentinel,
     dequeue_byte (Some 0%nat) created_pool
     = Some ((sentinel, Some 0%nat), created_pool, [queue_empty_msg])) /\
  (exists sentinel,
     dequeue_byte None FragmentPool_new
     = Some ((sentinel, None), FragmentPool_new, [queue_empty_msg])).
Proof.
  split.
  - apply (proj1 (dequeue_fails_iff_empty created_pool (Some 0%nat))).
    right. eexists _, _. split; [reflexivity|]. split; [reflexivity|].
    by left.
  - apply (proj1 (dequeue_fails_iff_empty FragmentPool_new None)). by left.
Defined.

(** C10. When [dequeue_byte] fails, because the handle is null or the front
    fragment is logically empty, the byte it returns is 0. *)
Theorem dequeue_sentinel_is_zero s front :
  (front = None \/
   exists i u, front = Some i /\ data s !! i = Some (whenUsed u) /\
               logically_empty u) ->
  dequeue_byte front s = Some ((0, front), s, [queue_empty_msg]).
Proof.
  intros [->|(i & u & -> & Hu & He)].
  - apply dequeue_null_run.
  - destruct s as [d p]. by apply (dequeue_empty_run d p i u).
Qed.

Lemma dequeue_sentinel_is_zero_witness :
  dequeue_byte (Some 0%nat) created_pool
  = Some ((0, Some 0%nat), created_pool, [queue_empty_msg]).
Proof.
  apply dequeue_sentinel_is_zero.
  right. eexists _, _. split; [reflexivity|]. split; [reflexivity|]. by left.
Defined.

(** ** C3: a failed allocation changes nothing *)

Lemma enqueue_byte_null_oom d byte :
  enqueue_byte None byte (mkPool d None)
  = Some (None, mkPool d None, [out_of_memory_msg]).
Proof. reflexivity. Qed.

Lemma enqueue_byte_full_oom d front byte :
  back_is_full front (mkPool d None) ->
  enqueue_byte front byte (mkPool d None)
  = Some (front, mkPool d None, [out_of_memory_msg]).
Proof.
  intros Hfull. unfold back_is_full in Hfull.
  apply bind_inv in Hfull as (cb & s1 & o1 & o2 & E1 & E2 & Ho).
  destruct (pure_getBackFragment _ _ _ _ _ E1) as [-> ->].
  simpl in Ho. subst o2.
  destruct front as [i|]; [|done].
  unfold enqueue_byte, enqueue_byte_at.
  rewrite (run_bind _ _ _ _ _ E1), (run_bind _ _ _ _ _ E2). reflexivity.
Qed.

(** C3. When the free list is exhausted, [create_queue] returns the null
    handle and leaves the pool as it was; [enqueue_byte] on a null handle
    leaves the handle null and the pool as it was (the byte is dropped);
    and [enqueue_byte] on a queue whose back fragment is full leaves the
    handle and the pool as they were. Each reports that memory ran out. *)
Theorem allocation_failure_is_noop s byte :
  nextFreeFragment s = None ->
  create_queue s = Some (None, s, [out_of_memory_msg]) /\
  enqueue_byte None byte s = Some (None, s, [out_of_memory_msg]) /\
  (forall front,
     back_is_full front s ->
     enqueue_byte front byte s = Some (front, s, [out_of_memory_msg])).
Proof.
  destruct s as [d p]. intros Hp. simpl in Hp. subst p. split; [|split].
  - apply create_queue_null.
  - apply enqueue_byte_null_oom.
  - intros front Hfull. by apply enqueue_byte_full_oom.
Qed.

Lemma allocation_failure_is_noop_witness :
  create_queue full_pool = Some (None, full_pool, [out_of_memory_msg]) /\
  enqueue_byte None 9 full_pool = Some (None, full_pool, [out_of_memory_msg]) /\
  enqueue_byte (Some 0%nat) 9 full_pool
  = Some (Some 0%nat, full_pool, [out_of_memory_msg]).
Proof.
  destruct (allocation_failure_is_noop full_pool 9 eq_refl) as (H1 & H2 & H3).
  split; [exact H1|]. split; [exact H2|]. apply H3. reflexivity.
Defined.

(** ** C2: the capacity of the pool *)

(** C2. In every state reached from the initial pool, every fragment is
    either on the free list or in one queue of the caller, so at most 64
    fragments are in use; and when 64 are in use, an allocation fails with
    out of memory: [create_queue] returns the null handle, and
    [enqueue_byte] on a null handle or on a queue whose back fragment is
    full leaves the handle and the pool as they were. *)
Theorem capacity_bound w :
  reachable w ->
  (in_use w + length (free_list (pool w)) = 64)%nat /\
  (in_use w <= 64)%nat /\
  (in_use w = 64%nat ->
   create_queue (pool w) = Some (None, pool w, [out_of_memory_msg]) /\
   forall q front byte,
     handles w !! q = Some front ->
     front = None \/ back_is_full front (pool w) ->
     enqueue_byte front byte (pool w)
     = Some (front, pool w, [out_of_memory_msg])).
Proof.
  intros Hr. destruct (reachable_Inv w Hr) as (free & chains & HS).
  pose proof (Shares_in_use _ _ _ HS) as Hu.
  rewrite (Shares_free_list _ _ _ _ HS).
  split; [done|]. split; [lia|]. intros H64.
  assert (free = []) as -> by (destruct free; [done | simpl in Hu; lia]).
  destruct HS as (_ & HF & _). destruct (pool w) as [d p]. simpl in HF.
  subst p. split.
  - apply create_queue_null.
  - intros q front byte _ [->|Hfull].
    + apply enqueue_byte_null_oom.
    + by apply enqueue_byte_full_oom.
Qed.

Lemma capacity_bound_witness :
  in_use world65 = 64%nat /\
  create_queue (pool world65)
  = Some (None, pool world65, [out_of_memory_msg]) /\
  enqueue_byte None 1 (pool world65)
  = Some (None, pool world65, [out_of_memory_msg]).
Proof.
  assert (Hr : reachable world65)
    by (exists (replicate 65 Create); vm_compute; reflexivity).
  assert (H64 : in_use world65 = 64%nat) by (vm_compute; reflexivity).
  destruct (proj2 (proj2 (capacity_bound world65 Hr)) H64) as [Hc He].
  split; [exact H64|]. split; [exact Hc|].
  apply (He 64%nat None 1); [vm_compute; reflexivity | by left].
Defined.

(** ** C5: destroy_queue *)

(** C5. For every handle of a reachable state, the queue has at most 64
    fragments, and [destroy_queue] returns as soon as its loop may run once
    per fragment: it prints nothing, sets the handle to null, and puts every
    fragment of the queue on the free list, in front of the fragments that
    were free; on a null handle it changes nothing. *)
Theorem destroy_queue_reclaims w q front :
  reachable w -> handles w !! q = Some front ->
  (length (segments (pool w) front) <= 64)%nat /\
  (forall fuel,
     (length (segments (pool w) front) <= fuel)%nat ->
     exists s',
       destroy_queue fuel front (pool w) = Some (None, s', []) /\
       free_list s'
       = reverse (segments (pool w) front) ++ free_list (pool w) /\
       (front = None -> s' = pool w)).
Proof.
  intros Hr Hh. destruct (reachable_Inv w Hr) as (free & chains & HS).
  destruct (Shares_lookup _ _ _ _ _ _ HS Hh) as (l & Hl & HQ).
  rewrite (Shares_segments _ _ _ _ _ _ _ HS Hh Hl).
  rewrite (Shares_free_list _ _ _ _ HS).
  pose proof (Shares_chain_length _ _ _ _ _ _ HS Hl) as Hll.
  split; [lia|]. intros fuel Hfuel.
  destruct (pool w) as [d p] eqn:Hp. pose proof HS as (Hlen & HF & _).
  simpl in *.
  destruct (destroy_queue_spec d p free front l fuel Hlen HF HQ
              (Shares_NoDup_local _ _ _ _ _ _ HS Hl) Hfuel)
    as (d' & p' & Hrun & Hlen' & HF' & Hfr).
  exists (mkPool d' p'). split; [done|]. split.
  - apply free_walk_FreeList; [done|].
    rewrite length_app, length_reverse. lia.
  - intros ->. destruct fuel; simpl in Hrun; by inversion Hrun.
Qed.

Lemma destroy_queue_reclaims_witness :
  exists s',
    destroy_queue 64 (Some 0%nat) (pool world30) = Some (None, s', []) /\
    free_list s' = [1; 0]%nat ++ free_list (pool world30).
Proof.
  assert (Hr : reachable world30)
    by (exists (Create :: replicate 30 (Enqueue 0 5)); vm_compute;
        reflexivity).
  assert (Hh : handles world30 !! 0%nat = Some (Some 0%nat))
    by (vm_compute; reflexivity).
  destruct (proj2 (destroy_queue_reclaims world30 0 (Some 0%nat) Hr Hh) 64%nat)
    as (s' & Hrun & Hfree & _).
  - vm_compute. lia.
  - exists s'. split; [exact Hrun|]. rewrite Hfree. vm_compute. reflexivity.
Defined.

(** ** C7 and C8: the tracking bytes of the fragments in use *)

Lemma used_in_queue s hs free chains i u :
  Shares s hs free chains -> data s !! i = Some (whenUsed u) ->
  exists q h l,
    hs !! q = Some h /\ chains !! q = Some l /\ Queue (data s) h l /\ i ∈ l.
Proof.
  intros HS Hu. pose proof HS as (Hlen & HF & HQ & Hperm).
  assert (Hin : i ∈ free ++ concat chains).
  { rewrite Hperm. apply elem_of_seq. apply lookup_lt_Some in Hu. lia. }
  apply elem_of_app in Hin as [Hin|Hin].
  - destruct (FreeList_link _ _ _ _ HF Hin) as [n Hn]. congruence.
  - apply list_elem_of_In, in_concat in Hin as (l & Hl & Hil).
    apply list_elem_of_In, list_elem_of_lookup in Hl as [q Hq].
    destruct (Forall2_lookup_r _ _ _ _ _ HQ Hq) as (h & Hh & HQh).
    exists q, h, l. split_and!; try done. by apply list_elem_of_In.
Qed.

(** C7. In every reachable state the front and back item index of every
    fragment in use lie in [-1, 27], and [enqueue_byte] and [dequeue_byte]
    are defined on every handle of the caller: no read or write of theirs
    falls outside the 28 bytes of a fragment. *)
Theorem item_indices_in_range w :
  reachable w ->
  (forall i u,
     data (pool w) !! i = Some (whenUsed u) ->
     -1 <= m_frontItemIdx u <= 27 /\ -1 <= m_backItemIdx u <= 27) /\
  (forall q front byte,
     handles w !! q = Some front ->
     is_Some (enqueue_byte front byte (pool w)) /\
     is_Some (step (Enqueue q byte) w)) /\
  (forall q front,
     handles w !! q = Some front ->
     is_Some (dequeue_byte front (pool w)) /\
     is_Some (step (Dequeue q) w)).
Proof.
  intros Hr. destruct (reachable_Inv w Hr) as (free & chains & HS).
  split; [|split].
  - intros i u Hu.
    destruct (used_in_queue _ _ _ _ _ _ HS Hu) as (q & h & l & _ & _ & HQ & Hi).
    destruct (Queue_used _ _ _ _ HQ Hi) as (u' & Hu' & ? & ? & _).
    assert (u' = u) as -> by congruence. done.
  - intros q front byte Hh.
    destruct (Shares_lookup _ _ _ _ _ _ HS Hh) as (l & Hl & HQ).
    destruct (step_enqueue w free chains q front l byte HS Hh Hl)
      as (w' & ? & ? & ? & Hs & _).
    split; [|by eexists].
    destruct (pool w) as [d p] eqn:Hp. pose proof HS as (Hlen & HF & _).
    simpl in *.
    destruct (enqueue_byte_spec d p free front l byte Hlen HF HQ
                (Shares_NoDup_local _ _ _ _ _ _ HS Hl))
      as (? & ? & ? & ? & ? & ? & Hrun & _). by eexists.
  - intros q front Hh.
    destruct (Shares_lookup _ _ _ _ _ _ HS Hh) as (l & Hl & HQ).
    destruct (step_dequeue w free chains q front l HS Hh Hl)
      as (w' & ? & ? & ? & ? & Hs & _).
    split; [|by eexists].
    destruct (pool w) as [d p] eqn:Hp. pose proof HS as (Hlen & HF & _).
    simpl in *.
    destruct (dequeue_byte_spec d p free front l Hlen HF HQ
                (Shares_NoDup_local _ _ _ _ _ _ HS Hl))
      as (? & ? & ? & ? & ? & ? & ? & Hrun & _). by eexists.
Qed.

Lemma item_indices_in_range_witness :
  (forall i u,
     data (pool world30) !! i = Some (whenUsed u) ->
     -1 <= m_frontItemIdx u <= 27 /\ -1 <= m_backItemIdx u <= 27) /\
  is_Some (enqueue_byte (Some 0%nat) 7 (pool world30)) /\
  is_Some (dequeue_byte (Some 0%nat) (pool world30)).
Proof.
  assert (Hr : reachable world30)
    by (exists (Create :: replicate 30 (Enqueue 0 5)); vm_compute;
        reflexivity).
  assert (Hh : handles world30 !! 0%nat = Some (Some 0%nat))
    by (vm_compute; reflexivity).
  destruct (item_indices_in_range world30 Hr) as (H1 & H2 & H3).
  split; [exact H1|]. split.
  - exact (proj1 (H2 0%nat (Some 0%nat) 7 Hh)).
  - exact (proj1 (H3 0%nat (Some 0%nat) Hh)).
Defined.

(** C8. In every reachable state a fragment in use that has a next fragment
    is full at the back (its back item index is 27). So when [dequeue_byte]
    takes the branch that increments the front item index (the front is not
    at the end of the fragment) and then finds the fragment logically empty
    and deallocates it, the fragment has no next fragment and was the only
    one of its queue, and the byte just read was the only byte of the
    queue. *)
Theorem drain_branch_single_fragment w :
  reachable w ->
  (forall i u,
     data (pool w) !! i = Some (whenUsed u) ->
     m_nextFragmentIdx u <> -1 -> m_backItemIdx u = 27) /\
  (forall q i u,
     handles w !! q = Some (Some i) ->
     data (pool w) !! i = Some (whenUsed u) ->
     ~ logically_empty u ->
     to_size_t (m_frontItemIdx u) <> 27 ->
     logically_empty
       (mkWhenUsed (m_backFragmentIdx u) (m_nextFragmentIdx u)
          (to_char (m_frontItemIdx u + 1)) (m_backItemIdx u) (bytes u)) ->
     m_nextFragmentIdx u = -1 /\
     segments (pool w) (Some i) = [i] /\
     exists x,
       bytes u !! Z.to_nat (m_frontItemIdx u) = Some x /\
       queue_bytes (pool w) (Some i) = [x] /\
       dequeue_byte (Some i) (pool w)
       = Some ((x, None),
               mkPool (<[i := next (nextFreeFragment (pool w))]>
                         (data (pool w))) (Some i), [])).
Proof.
  intros Hr. destruct (reachable_Inv w Hr) as (free & chains & HS).
  split.
  - intros i u Hu Hn.
    destruct (used_in_queue _ _ _ _ _ _ HS Hu) as (q & h & l & _ & _ & HQ & Hi).
    destruct (Queue_used _ _ _ _ HQ Hi) as (u' & Hu' & _ & _ & Hfull).
    assert (u' = u) as -> by congruence. by apply Hfull.
  - intros q i u Hh Hu Hne Hn27 He.
    destruct (Shares_lookup _ _ _ _ _ _ HS Hh) as (l & Hl & HQ).
    rewrite (Shares_queue_bytes _ _ _ _ _ _ _ HS Hh Hl).
    rewrite (Shares_segments _ _ _ _ _ _ _ HS Hh Hl).
    destruct l as [|i' l']; [done|]. simpl in HQ.
    destruct HQ as ([= <-] & u' & Hu' & Hbl & Hbk & Hfull & Hidx & Ht).
    assert (u' = u) as -> by congruence.
    unfold logically_empty in Hne, He. simpl in He.
    assert (Hf : 0 <= m_frontItemIdx u <= m_backItemIdx u) by lia.
    assert (Hb : m_backItemIdx u <= 27) by lia.
    rewrite to_size_t_27 in Hn27 by lia.
    rewrite to_char_small in He by lia.
    assert (l' = []) as ->.
    { destruct l' as [|n l'']; [done|]. exfalso.
      assert (m_backItemIdx u = 27) by (by apply Hfull). lia. }
    simpl in Ht. split; [done|]. split; [done|].
    destruct (lookup_lt_is_Some_2 (bytes u) (Z.to_nat (m_frontItemIdx u)))
      as [x Hx]; [lia|].
    exists x. split; [done|]. split.
    + unfold contents. simpl. rewrite (live_at_used _ _ _ Hu).
      rewrite (live_single u x); [done | lia | lia | done].
    + destruct (pool w) as [d p]. simpl in *.
      apply (dequeue_drain_run d p i u Hu x Hf Hb Hx); lia.
Qed.

Lemma drain_branch_single_fragment_witness :
  segments (pool world1) (Some 0%nat) = [0%nat] /\
  queue_bytes (pool world1) (Some 0%nat) = [42].
Proof.
  assert (Hr : reachable world1)
    by (exists [Create; Enqueue 0 42]; vm_compute; reflexivity).
  destruct (proj2 (drain_branch_single_fragment world1 Hr) 0%nat 0%nat
              (mkWhenUsed 0 (-1) 0 0 (<[0%nat := 42]> (replicate 28 0))))
    as (_ & Hseg & x & Hx & Hq & _).
  - vm_compute. reflexivity.
  - vm_compute. reflexivity.
  - unfold logically_empty. simpl. lia.
  - vm_compute. discriminate.
  - unfold logically_empty. simpl. right. vm_compute. reflexivity.
  - split; [exact Hseg|]. rewrite Hq. f_equal.
    vm_compute in Hx. by inversion Hx.
Defined.

(** ** C6: the life of a queue *)

Lemma Queue_no_bytes d i l :
  Queue d (Some i) l -> contents d l = [] ->
  l = [i] /\
  exists u, d !! i = Some (whenUsed u) /\ m_frontItemIdx u = -1 /\
    m_backItemIdx u = -1 /\ m_nextFragmentIdx u = -1.
Proof.
  intros HQ Hc. destruct l as [|i' l']; [done|]. simpl in HQ.
  destruct HQ as ([= <-] & u & Hu & Hbl & _ & _ & Hidx & Ht).
  destruct Hidx as [(Hf & Hb & ->)|[Hf Hb]].
  - split; [done|]. exists u. by split_and!.
  - rewrite contents_cons, (live_at_used _ _ _ Hu) in Hc.
    apply app_eq_nil in Hc as [Hc _]. by apply live_nonempty in Hc.
Qed.

(** C6, as claimed, fails: after [create_queue] the queue holds a fragment
    and no byte. *)
Lemma created_queue_holds_memory :
  ~ (forall w, reachable w ->
       forall q h, handles w !! q = Some h ->
         queue_bytes (pool w) h = [] -> segments (pool w) h = []).
Proof.
  intros H.
  assert (Hr : reachable world_created)
    by (exists [Create]; vm_compute; reflexivity).
  specialize (H world_created Hr 0%nat (Some 0%nat) eq_refl eq_refl).
  vm_compute in H. discriminate.
Qed.

(** C6, amended. In every reachable state: [enqueue_byte] on a null handle
    creates the queue when a fragment is free, and the queue then holds that
    byte; [dequeue_byte] of the only byte of a queue returns it, sets the
    handle to null and puts every fragment of the queue on the free list in
    the same call; and a queue that holds no byte and still holds a fragment
    is one that [create_queue] made and nothing was enqueued into: a single
    fragment with both item indices -1. *)
Theorem queue_lifecycle w q :
  reachable w ->
  (forall byte,
     handles w !! q = Some None -> free_list (pool w) <> [] ->
     exists w' i,
       step (Enqueue q byte) w = Some w' /\
       handles w' !! q = Some (Some i) /\
       queue_bytes (pool w') (Some i) = [byte `mod` 256]) /\
  (forall h x,
     handles w !! q = Some h -> queue_bytes (pool w) h = [x] ->
     exists w',
       step (Dequeue q) w = Some w' /\
       dequeued w' = dequeued w ++ [x] /\
       handles w' !! q = Some None /\
       free_list (pool w') ≡ₚ free_list (pool w) ++ segments (pool w) h) /\
  (forall i,
     handles w !! q = Some (Some i) -> queue_bytes (pool w) (Some i) = [] ->
     segments (pool w) (Some i) = [i] /\
     exists u, data (pool w) !! i = Some (whenUsed u) /\
       m_frontItemIdx u = -1 /\ m_backItemIdx u = -1 /\
       m_nextFragmentIdx u = -1).
Proof.
  intros Hr. destruct (reachable_Inv w Hr) as (free & chains & HS).
  split; [|split].
  - intros byte Hh Hfree.
    destruct (Shares_lookup _ _ _ _ _ _ HS Hh) as (l & Hl & HQ).
    rewrite (Shares_free_list _ _ _ _ HS) in Hfree.
    destruct (step_enqueue w free chains q None l byte HS Hh Hl)
      as (w' & h' & free' & l2 & Hs & Hhs & _ & HS' & _ & Hcase).
    destruct Hcase as [(_ & Hc & _)|(_ & _ & _ & _ & _ & ? & _)]; [|done].
    assert (Hq : (q < length (handles w))%nat) by (by eapply lookup_lt_Some).
    assert (Hh' : handles w' !! q = Some h')
      by (rewrite Hhs; by apply list_lookup_insert_eq).
    assert (Hl2 : <[q := l2]> chains !! q = Some l2).
    { apply list_lookup_insert_eq. by eapply lookup_lt_Some. }
    destruct (Shares_lookup _ _ _ _ _ _ HS' Hh') as (l2' & Hl2' & HQ').
    assert (l2' = l2) as -> by congruence.
    destruct l2 as [|i l2]; [by destruct (contents (data (pool w)) l)|].
    pose proof HQ' as (-> & _).
    exists w', i. split; [done|]. split; [done|].
    rewrite (Shares_queue_bytes _ _ _ _ _ _ _ HS' Hh' Hl2), Hc.
    destruct l; [done | by destruct HQ].
  - intros h x Hh Hb.
    destruct (Shares_lookup _ _ _ _ _ _ HS Hh) as (l & Hl & HQ).
    rewrite (Shares_queue_bytes _ _ _ _ _ _ _ HS Hh Hl) in Hb.
    rewrite (Shares_segments _ _ _ _ _ _ _ HS Hh Hl).
    rewrite (Shares_free_list _ _ _ _ HS).
    destruct (step_dequeue w free chains q h l HS Hh Hl)
      as (w' & r & h' & free' & l2 & Hs & Hhs & Hdq & HS' & Hperm & _ & Hcase).
    destruct Hcase as [(_ & _ & Hc & _)|(_ & Hc & Hnone)]; [congruence|].
    rewrite Hb in Hc. inversion Hc as [[Hx Hnil]]. subst r.
    symmetry in Hnil. specialize (Hnone Hnil). subst h'.
    assert (Hq : (q < length (handles w))%nat) by (by eapply lookup_lt_Some).
    assert (Hh' : handles w' !! q = Some None)
      by (rewrite Hhs; by apply list_lookup_insert_eq).
    destruct (Shares_lookup _ _ _ _ _ _ HS' Hh') as (l2' & Hl2' & HQ').
    rewrite list_lookup_insert_eq in Hl2' by (by eapply lookup_lt_Some).
    assert (l2' = l2) as -> by congruence.
    destruct l2 as [|n l2]; [|by destruct HQ' as [? _]].
    exists w'. split; [done|]. do 2 (split; [done|]).
    rewrite (Shares_free_list _ _ _ _ HS'). by rewrite app_nil_r in Hperm.
  - intros i Hh Hb.
    destruct (Shares_lookup _ _ _ _ _ _ HS Hh) as (l & Hl & HQ).
    rewrite (Shares_queue_bytes _ _ _ _ _ _ _ HS Hh Hl) in Hb.
    rewrite (Shares_segments _ _ _ _ _ _ _ HS Hh Hl).
    by apply Queue_no_bytes.
Qed.

Lemma queue_lifecycle_witness :
  (exists w' i,
     step (Enqueue 0 300) (default world0 (run [Destroy 0] world_created))
     = Some w' /\
     handles w' !! 0%nat = Some (Some i) /\
     queue_bytes (pool w') (Some i) = [44]) /\
  (exists w',
     step (Dequeue 0) world1 = Some w' /\
     dequeued w' = [42] /\ handles w' !! 0%nat = Some None /\
     free_list (pool w') ≡ₚ free_list (pool world1) ++ [0%nat]) /\
  segments (pool world_created) (Some 0%nat) = [0%nat].
Proof.
  split; [|split].
  - apply (proj1 (queue_lifecycle
                    (default world0 (run [Destroy 0] world_created)) 0
                    ltac:(exists [Create; Destroy 0]; vm_compute;
                          reflexivity)) 300).
    + vm_compute. reflexivity.
    + vm_compute. discriminate.
  - apply (proj1 (proj2 (queue_lifecycle world1 0
                    ltac:(exists [Create; Enqueue 0 42]; vm_compute;
                          reflexivity))) (Some 0%nat) 42).
    + vm_compute. reflexivity.
    + vm_compute. reflexivity.
  - apply (proj2 (proj2 (queue_lifecycle world_created 0
                    ltac:(exists [Create]; vm_compute; reflexivity)))
             0%nat).
    + vm_compute. reflexivity.
    + vm_compute. reflexivity.
Defined.

(** ** C1: first in, first out *)

Lemma live_length_le u :
  length (bytes u) = 28%nat -> (length (live u) <= 28)%nat.
Proof.
  intros Hlen. unfold live. rewrite length_take, length_drop. lia.
Qed.

Lemma Tail_contents_le d nx l :
  Tail d nx l -> (length (contents d l) <= 28 * length l)%nat.
Proof.
  revert nx. induction l as [|i l IH]; simpl; intros nx H; [done|].
  destruct H as (-> & u & Hu & Hlen & _ & _ & _ & H).
  rewrite contents_cons, length_app, (live_at_used _ _ _ Hu).
  pose proof (live_length_le u Hlen). pose proof (IH _ H). lia.
Qed.

Lemma Queue_contents_le d h l :
  Queue d h l -> (length (contents d l) <= 28 * length l)%nat.
Proof.
  destruct l as [|i l]; simpl; intros H; [done|].
  destruct H as (-> & u & Hu & Hlen & _ & _ & _ & H).
  rewrite contents_cons, length_app, (live_at_used _ _ _ Hu).
  pose proof (live_length_le u Hlen). pose proof (Tail_contents_le _ _ _ H).
  lia.
Qed.

Lemma Shares_total s hs free chains q l :
  Shares s hs free chains -> chains !! q = Some l ->
  (length free + length l + length (others q chains) = 64)%nat.
Proof.
  intros HS Hl. pose proof (Shares_length _ _ _ _ HS) as Hlen.
  pose proof (concat_lookup_perm _ _ _ Hl) as Hp.
  apply Permutation_length in Hp. rewrite length_app in Hp. lia.
Qed.

Lemma enqueue_all bs : forall w free chains q h l,
  Shares (pool w) (handles w) free chains ->
  handles w !! q = Some h -> chains !! q = Some l ->
  front_idx (data (pool w)) h <= 0 ->
  (length (contents (data (pool w)) l) + length bs
   <= 28 * (length l + length free))%nat ->
  exists w' free' h' l',
    run (map (Enqueue q) bs) w = Some w' /\
    Shares (pool w') (handles w') free' (<[q := l']> chains) /\
    handles w' !! q = Some h' /\
    contents (data (pool w')) l'
    = contents (data (pool w)) l ++ map (fun b => b `mod` 256) bs /\
    dequeued w' = dequeued w /\ stdout w' = stdout w.
Proof.
  induction bs as [|b bs IH]; intros w free chains q h l HS Hh Hl Hf Hcap.
  - exists w, free, h, l. simpl. rewrite app_nil_r.
    rewrite list_insert_id by done. by split_and!.
  - assert (Hq : (q < length (handles w))%nat) by (by eapply lookup_lt_Some).
    assert (Hqc : (q < length chains)%nat) by (by eapply lookup_lt_Some).
    destruct (step_enqueue w free chains q h l b HS Hh Hl)
      as (w1 & h1 & free1 & l1 & Hs & Hhs & Hdq & HS1 & _ & Hcase).
    destruct Hcase as [(Hout & Hc & Hf1)|(_ & _ & _ & _ & _ & -> & Hfull)].
    + assert (Hh1 : handles w1 !! q = Some h1)
        by (rewrite Hhs; by apply list_lookup_insert_eq).
      assert (Hl1 : <[q := l1]> chains !! q = Some l1)
        by (by apply list_lookup_insert_eq).
      pose proof (Shares_total _ _ _ _ _ _ HS Hl) as Ht.
      pose proof (Shares_total _ _ _ _ _ _ HS1 Hl1) as Ht1.
      rewrite others_insert in Ht1.
      destruct (IH w1 free1 (<[q := l1]> chains) q h1 l1 HS1 Hh1 Hl1)
        as (w' & free' & h' & l' & Hrun & HS' & Hh' & Hc' & Hdq' & Hout').
      * rewrite Hf1. lia.
      * rewrite Hc, length_app. simpl in *. lia.
      * exists w', free', h', l'. cbn [map].
        rewrite run_cons, Hs. cbn [mbind option_bind].
        rewrite list_insert_insert_eq in HS'.
        split_and!; try done; try congruence.
        by rewrite Hc', Hc, <- app_assoc.
    + specialize (Hfull Hf). simpl in Hcap. lia.
Qed.

Lemma dequeue_all cs : forall w free chains q h l,
  Shares (pool w) (handles w) free chains ->
  handles w !! q = Some h -> chains !! q = Some l ->
  contents (data (pool w)) l = cs -> cs <> [] ->
  exists w',
    run (replicate (length cs) (Dequeue q)) w = Some w' /\
    dequeued w' = dequeued w ++ cs /\ stdout w' = stdout w /\
    handles w' !! q = Some None.
Proof.
  induction cs as [|x cs IH]; intros w free chains q h l HS Hh Hl Hc Hne;
    [done|].
  assert (Hq : (q < length (handles w))%nat) by (by eapply lookup_lt_Some).
  assert (Hqc : (q < length chains)%nat) by (by eapply lookup_lt_Some).
  destruct (step_dequeue w free chains q h l HS Hh Hl)
    as (w1 & r & h1 & free1 & l1 & Hs & Hhs & Hdq & HS1 & _ & _ & Hcase).
  destruct Hcase as [(_ & _ & Hc0 & _)|(Hout & Hc1 & Hnone)]; [congruence|].
  rewrite Hc in Hc1.
  assert (r = x /\ contents (data (pool w1)) l1 = cs) as [-> Hcs]
    by (by inversion Hc1).
  assert (Hh1 : handles w1 !! q = Some h1)
    by (rewrite Hhs; by apply list_lookup_insert_eq).
  cbn [length replicate]. rewrite run_cons, Hs. cbn [mbind option_bind].
  destruct cs as [|y cs].
  - specialize (Hnone Hcs). subst h1. exists w1. by split_and!.
  - destruct (IH w1 free1 (<[q := l1]> chains) q h1 l1 HS1 Hh1)
      as (w' & Hrun & Hdq' & Hout' & Hh'); try done.
    + by apply list_lookup_insert_eq.
    + exists w'. split; [done|]. split_and!; try congruence.
      by rewrite Hdq', Hdq, <- app_assoc.
Qed.

(** C1. For every queue of a reachable state that holds no byte, and every
    non-empty sequence of bytes that fits into the fragments the queue holds
    and the free fragments (28 bytes each): enqueueing the bytes is defined
    and prints no error, the queue then holds exactly these bytes, in
    fragments of at most 28 bytes each (so more than 28 bytes span several
    fragments); dequeueing as many times is defined, returns the same bytes
    in the same order, prints no error, and leaves the handle null. *)
Theorem fifo_round_trip w q h bs :
  reachable w -> handles w !! q = Some h ->
  queue_bytes (pool w) h = [] ->
  bs <> [] -> Forall (fun b => 0 <= b < 256) bs ->
  (length bs
   <= 28 * (length (segments (pool w) h) + length (free_list (pool w))))%nat ->
  exists w1 h1 w',
    run (map (Enqueue q) bs) w = Some w1 /\
    handles w1 !! q = Some h1 /\
    queue_bytes (pool w1) h1 = bs /\
    (length bs <= 28 * length (segments (pool w1) h1))%nat /\
    stdout w1 = stdout w /\
    run (replicate (length bs) (Dequeue q)) w1 = Some w' /\
    run (map (Enqueue q) bs ++ replicate (length bs) (Dequeue q)) w = Some w' /\
    dequeued w' = dequeued w ++ bs /\
    handles w' !! q = Some None /\
    stdout w' = stdout w.
Proof.
  intros Hr Hh Hempty Hne Hbytes Hcap.
  destruct (reachable_Inv w Hr) as (free & chains & HS).
  destruct (Shares_lookup _ _ _ _ _ _ HS Hh) as (l & Hl & HQ).
  rewrite (Shares_queue_bytes _ _ _ _ _ _ _ HS Hh Hl) in Hempty.
  rewrite (Shares_segments _ _ _ _ _ _ _ HS Hh Hl) in Hcap.
  rewrite (Shares_free_list _ _ _ _ HS) in Hcap.
  assert (Hf : front_idx (data (pool w)) h <= 0).
  { destruct h as [i|]; [|done].
    destruct (Queue_no_bytes _ _ _ HQ Hempty) as (_ & u & Hu & Hfu & _).
    simpl. rewrite Hu. lia. }
  assert (Hmap : map (fun b => b `mod` 256) bs = bs).
  { clear -Hbytes. induction Hbytes as [|b bs Hb _ IH]; [done|].
    simpl. by rewrite IH, Z.mod_small. }
  destruct (enqueue_all bs w free chains q h l HS Hh Hl Hf)
    as (w1 & free1 & h1 & l1 & Hrun1 & HS1 & Hh1 & Hc1 & Hdq1 & Hout1).
  { rewrite Hempty. simpl. lia. }
  rewrite Hempty, Hmap in Hc1. simpl in Hc1.
  assert (Hl1 : <[q := l1]> chains !! q = Some l1).
  { apply list_lookup_insert_eq. by eapply lookup_lt_Some. }
  destruct (Shares_lookup _ _ _ _ _ _ HS1 Hh1) as (l1' & Hl1' & HQ1).
  assert (l1' = l1) as -> by congruence.
  destruct (dequeue_all bs w1 free1 (<[q := l1]> chains) q h1 l1 HS1 Hh1)
    as (w2 & Hrun2 & Hdq2 & Hout2 & Hh2); try done.
  exists w1, h1, w2. rewrite run_app, Hrun1.
  rewrite (Shares_queue_bytes _ _ _ _ _ _ _ HS1 Hh1 Hl1).
  rewrite (Shares_segments _ _ _ _ _ _ _ HS1 Hh1 Hl1).
  pose proof (Queue_contents_le _ _ _ HQ1) as Hle. rewrite Hc1 in Hle.
  split_and!; try done; congruence.
Qed.

Lemma fifo_round_trip_witness :
  exists w',
    run (map (Enqueue 0) (map Z.of_nat (seq 100 60))
         ++ replicate 60 (Dequeue 0)) world_created = Some w' /\
    dequeued w' = map Z.of_nat (seq 100 60) /\
    handles w' !! 0%nat = Some None /\
    stdout w' = [].
Proof.
  destruct (fifo_round_trip world_created 0 (Some 0%nat)
              (map Z.of_nat (seq 100 60)))
    as (w1 & h1 & w' & _ & _ & _ & _ & _ & _ & Hrun & Hdq & Hh & Hout).
  - exists [Create]. vm_compute. reflexivity.
  - vm_compute. reflexivity.
  - vm_compute. reflexivity.
  - vm_compute. discriminate.
  - apply (proj1 (bool_decide_spec _)). vm_compute. reflexivity.
  - vm_compute. lia.
  - exists w'. split; [exact Hrun|]. split; [exact Hdq|].
    split; [exact Hh | exact Hout].
Defined.

(** * Further properties of the code *)

(** ** The pool: allocate and deallocate *)

(** X1. When the free list is not empty, [allocate] followed by [deallocate]
    of the fragment it returned restores the pool exactly: the same data and
    the same free-list head. *)
Theorem allocate_deallocate_restores s a q :
  nextFreeFragment s = Some a -> data s !! a = Some (next q) ->
  (p <- allocate ;; deallocate p) s = Some (tt, s, []).
Proof.
  destruct s as [d p]. simpl. intros -> Ha.
  rewrite (run_bind _ _ _ _ _ (allocate_run _ _ _ Ha)).
  rewrite (deallocate_run _ _ _ (lookup_lt_Some _ _ _ Ha)).
  by rewrite list_insert_id.
Qed.

Lemma allocate_deallocate_restores_witness :
  (p <- allocate ;; deallocate p) (pool world30)
  = Some (tt, pool world30, []).
Proof.
  apply (allocate_deallocate_restores (pool world30) 2%nat (Some 3%nat));
    vm_compute; reflexivity.
Defined.

(** X2. [deallocate] followed by [allocate] hands out the fragment that was
    just freed (the free list is last in, first out): the free-list head is
    as before, the fragment holds a link to that head, and no other fragment
    changed. *)
Theorem deallocate_allocate_lifo s i :
  (i < length (data s))%nat ->
  exists s',
    (deallocate (Some i) ;; allocate) s = Some (Some i, s', []) /\
    nextFreeFragment s' = nextFreeFragment s /\
    data s' !! i = Some (next (nextFreeFragment s)) /\
    (forall j, j <> i -> data s' !! j = data s !! j).
Proof.
  destruct s as [d p]. simpl. intros Hi.
  exists (mkPool (<[i := next p]> d) p).
  rewrite (run_bind _ _ _ _ _ (deallocate_run _ _ _ Hi)).
  rewrite (allocate_run _ i p) by (by apply list_lookup_insert_eq).
  split; [done|]. split; [done|]. simpl. split.
  - by apply list_lookup_insert_eq.
  - intros j Hj. by apply list_lookup_insert_ne.
Qed.

Lemma deallocate_allocate_lifo_witness :
  exists s',
    (deallocate (Some 1%nat) ;; allocate) (pool world30)
    = Some (Some 1%nat, s', []) /\
    nextFreeFragment s' = Some 2%nat /\
    data s' !! 1%nat = Some (next (Some 2%nat)).
Proof.
  destruct (deallocate_allocate_lifo (pool world30) 1) as (s' & H1 & H2 & H3 & _).
  - vm_compute. lia.
  - exists s'. split; [exact H1|]. split; [exact H2 | exact H3].
Defined.

(** X3. The pool does not detect a double free: after [deallocate] was
    called twice on the same fragment, the fragment links to itself, so the
    free list is a cycle and every later [allocate] returns this fragment
    again and never reports out of memory. *)
Theorem double_deallocate_cycles s i :
  (i < length (data s))%nat ->
  exists s2,
    (deallocate (Some i) ;; deallocate (Some i)) s = Some (tt, s2, []) /\
    data s2 !! i = Some (next (Some i)) /\
    allocate s2 = Some (Some i, s2, []) /\
    forall fuel,
      free_walk fuel (data s2) (nextFreeFragment s2) = replicate fuel i.
Proof.
  destruct s as [d p]. simpl. intros Hi.
  exists (mkPool (<[i := next (Some i)]> d) (Some i)).
  assert (Hl : <[i := next (Some i)]> d !! i = Some (next (Some i)))
    by (by apply list_lookup_insert_eq).
  split.
  - rewrite (run_bind _ _ _ _ _ (deallocate_run _ _ _ Hi)).
    rewrite deallocate_run by (by rewrite length_insert).
    by rewrite list_insert_insert_eq.
  - split; [done|]. split; [by apply allocate_run|]. simpl.
    intros fuel. induction fuel as [|fuel IH]; [done|].
    simpl. rewrite Hl. by rewrite IH.
Qed.

Lemma double_deallocate_cycles_witness :
  exists s2,
    (deallocate (Some 5%nat) ;; deallocate (Some 5%nat)) FragmentPool_new
    = Some (tt, s2, []) /\
    allocate s2 = Some (Some 5%nat, s2, []).
Proof.
  destruct (double_deallocate_cycles FragmentPool_new 5)
    as (s2 & H1 & _ & H2 & _).
  - vm_compute. lia.
  - exists s2. split; [exact H1 | exact H2].
Defined.

(** X4. [getIndexInPool] and [getPointerAtIndex] are inverse to each other
    on the 64 fragments of the pool: the index of a fragment, converted to
    char, leads back to the fragment, and the pointer at an index in
    [0, 63] has that index. *)
Theorem index_pointer_round_trip s :
  (forall i, (i < 64)%nat ->
     (idx <- getIndexInPool (Some i) ;; getPointerAtIndex idx) s
     = Some (Some i, s, [])) /\
  (forall idx, 0 <= idx < 64 ->
     (ptr <- getPointerAtIndex idx ;; getIndexInPool ptr) s
     = Some (idx, s, [])).
Proof.
  split.
  - intros i Hi. unfold getIndexInPool.
    rewrite (run_bind _ _ _ _ _ eq_refl).
    rewrite to_char_small by lia. unfold getPointerAtIndex.
    rewrite decide_True by lia. by rewrite Nat2Z.id.
  - intros idx Hidx. unfold getPointerAtIndex. rewrite decide_True by done.
    rewrite (run_bind _ _ _ _ _ eq_refl). unfold getIndexInPool, ret.
    rewrite Z2Nat.id by lia. by rewrite to_char_small by lia.
Qed.

(** X5. On a fragment in use, [setByte] at a position of the 28-byte array
    followed by [getByte] at that position returns the byte written, for
    every byte value 0..255 (the passage through the char parameter keeps
    values above 127); the other positions keep their bytes. *)
Theorem setByte_getByte s i u idx byte :
  data s !! i = Some (whenUsed u) -> length (bytes u) = 28%nat ->
  0 <= idx < 28 -> 0 <= byte < 256 ->
  (exists s',
     (setByte (Some i) idx byte ;; getByte (Some i) idx) s
     = Some (byte, s', [])) /\
  (forall idx' b, 0 <= idx' < 28 -> idx' <> idx ->
     bytes u !! Z.to_nat idx' = Some b ->
     exists s',
       (setByte (Some i) idx byte ;; getByte (Some i) idx') s
       = Some (b, s', [])).
Proof.
  destruct s as [d p]. simpl. intros Hu Hlen Hidx Hbyte.
  pose proof (lookup_lt_Some _ _ _ Hu) as Hi.
  split; [|intros idx' b Hidx' Hne Hb]; eexists;
    rewrite (run_bind _ _ _ _ _ (setByte_run _ _ _ _ Hu _ _ Hidx));
    unfold getByte;
    (erewrite run_bind
       by (apply chunk_whenUsed_run; by apply list_lookup_insert_eq));
    rewrite decide_True by done; simpl.
  - rewrite list_lookup_insert_eq by lia.
    by rewrite to_uchar_to_char, Z.mod_small.
  - rewrite list_lookup_insert_ne by lia. by rewrite Hb.
Qed.

Lemma setByte_getByte_witness :
  exists s',
    (setByte (Some 0%nat) 27 200 ;; getByte (Some 0%nat) 27) (pool world30)
    = Some (200, s', []).
Proof.
  destruct (proj1 (setByte_getByte (pool world30) 0
              (mkWhenUsed 1 1 0 27 (replicate 28 5)) 27 200
              ltac:(vm_compute; reflexivity) eq_refl ltac:(lia) ltac:(lia)))
    as [s' Hs].
  exists s'. exact Hs.
Defined.

(** ** The tracking bytes in reachable states *)

Lemma Tail_next d nx l :
  Tail d nx l ->
  nx = -1 \/
  exists j u', nx = Z.of_nat j /\ d !! j = Some (whenUsed u') /\
    m_frontItemIdx u' = -1.
Proof.
  destruct l as [|j l]; simpl; [by left|].
  intros (-> & u' & Hu' & _ & Hf & _). right. by exists j, u'.
Qed.

Lemma Tail_sub d nx l i u :
  Tail d nx l -> i ∈ l -> d !! i = Some (whenUsed u) ->
  exists rest, Tail d (m_nextFragmentIdx u) rest.
Proof.
  revert nx. induction l as [|j l IH]; simpl; intros nx H Hi Hu.
  - by apply elem_of_nil in Hi.
  - destruct H as (-> & u' & Hu' & _ & _ & _ & _ & H).
    apply elem_of_cons in Hi as [->|Hi]; [|eauto].
    assert (u' = u) as -> by congruence. eauto.
Qed.

Lemma Queue_sub d h l i u :
  Queue d h l -> i ∈ l -> d !! i = Some (whenUsed u) ->
  exists rest, Tail d (m_nextFragmentIdx u) rest.
Proof.
  destruct l as [|j l]; simpl; intros H Hi Hu.
  - by apply elem_of_nil in Hi.
  - destruct H as (-> & u' & Hu' & _ & _ & _ & _ & H).
    apply elem_of_cons in Hi as [->|Hi].
    + assert (u' = u) as -> by congruence. eauto.
    + by eapply Tail_sub.
Qed.

(** X6. In every reachable state, the indices stored in a fragment in use
    pass the index tests of the class without a message: each item index is
    -1 or accepted by [isValidByteIndex]; the next index is -1 or accepted
    by [isValidFragmentIndex], and then names a fragment in use from which
    nothing has been read yet. *)
Theorem stored_indices_valid w i u :
  reachable w -> data (pool w) !! i = Some (whenUsed u) ->
  (m_frontItemIdx u = -1 \/ isValidByteIndex (m_frontItemIdx u) = (true, [])) /\
  (m_backItemIdx u = -1 \/ isValidByteIndex (m_backItemIdx u) = (true, [])) /\
  (m_nextFragmentIdx u = -1 \/
   isValidFragmentIndex (m_nextFragmentIdx u) = (true, []) /\
   exists u', data (pool w) !! Z.to_nat (m_nextFragmentIdx u)
              = Some (whenUsed u') /\ m_frontItemIdx u' = -1).
Proof.
  intros Hr Hu. destruct (reachable_Inv w Hr) as (free & chains & HS).
  destruct (used_in_queue _ _ _ _ _ _ HS Hu) as (q & h & l & _ & _ & HQ & Hi).
  destruct (Queue_used _ _ _ _ HQ Hi) as (u0 & Hu0 & Hf & Hb & _).
  assert (u0 = u) as -> by congruence.
  assert (Hbyte : forall x, -1 <= x <= 27 ->
            x = -1 \/ isValidByteIndex x = (true, [])).
  { intros x Hx. destruct (decide (x = -1)); [by left | right].
    unfold isValidByteIndex.
    by rewrite !bool_decide_eq_true_2 by lia. }
  split; [by apply Hbyte|]. split; [by apply Hbyte|].
  destruct (Queue_sub _ _ _ _ _ HQ Hi Hu) as [rest Hrest].
  destruct (Tail_next _ _ _ Hrest) as [?|(j & u' & Hn & Hu' & Hf')];
    [by left | right].
  pose proof (lookup_lt_Some _ _ _ Hu') as Hj.
  destruct HS as (Hlen & _). rewrite Hlen in Hj. split.
  - unfold isValidFragmentIndex.
    by rewrite !bool_decide_eq_true_2 by lia.
  - exists u'. by rewrite Hn, Nat2Z.id.
Qed.

Lemma stored_indices_valid_witness :
  isValidByteIndex 27 = (true, []) /\
  isValidFragmentIndex 1 = (true, []).
Proof.
  destruct (stored_indices_valid world30 0
              (mkWhenUsed 1 1 0 27 (replicate 28 5)))
    as (_ & [Hb|Hb] & [Hn|[Hn _]]).
  - exists (Create :: replicate 30 (Enqueue 0 5)). vm_compute. reflexivity.
  - vm_compute. reflexivity.
  - simpl in Hb. lia.
  - simpl in Hb. lia.
  - simpl in Hn. lia.
  - split; [exact Hb | exact Hn].
Defined.

Lemma Queue_back d p i l :
  length d = 64%nat -> Queue d (Some i) l ->
  exists k ub,
    last l = Some k /\
    getBackFragment (Some i) (mkPool d p) = Some (Some k, mkPool d p, []) /\
    d !! k = Some (whenUsed ub) /\ length (bytes ub) = 28%nat /\
    -1 <= m_backItemIdx ub <= 27 /\ m_nextFragmentIdx ub = -1.
Proof.
  intros Hlen HQ. destruct l as [|i' l']; [done|]. simpl in HQ.
  destruct HQ as ([= <-] & u & Hu & Hbl & Hbk & _ & Hidx & Ht).
  assert (Hk : exists ub, d !! default i (last l') = Some (whenUsed ub) /\
                 length (bytes ub) = 28%nat /\
                 -1 <= m_backItemIdx ub <= 27 /\ m_nextFragmentIdx ub = -1).
  { destruct (last l') as [k|] eqn:Hlast.
    - apply last_Some in Hlast as [l0 ->].
      destruct (Tail_last _ _ _ _ Ht) as (ub & Hub & ? & _ & ? & Hn).
      exists ub. split_and!; try done; lia.
    - apply last_None in Hlast. subst l'. simpl in *. exists u.
      split_and!; try done; lia. }
  destruct Hk as (ub & Hub & Hubl & Hubb & Hn).
  exists (default i (last l')), ub. split.
  - rewrite last_cons. by destruct (last l').
  - split; [|done].
    pose proof (lookup_lt_Some _ _ _ Hub) as Hlt. rewrite Hlen in Hlt.
    rewrite (getBackFragment_run _ _ _ _ Hu) by lia.
    by rewrite Hbk, Nat2Z.id.
Qed.

(** X7. In every reachable state the back index cached in the front
    fragment of a queue names the last fragment of the queue: on every
    non-null handle [getBackFragment] returns the last of the fragments
    reached along the next indices, and that fragment has no next. *)
Theorem back_fragment_is_last w q i :
  reachable w -> handles w !! q = Some (Some i) ->
  exists k ub,
    last (segments (pool w) (Some i)) = Some k /\
    getBackFragment (Some i) (pool w) = Some (Some k, pool w, []) /\
    data (pool w) !! k = Some (whenUsed ub) /\
    m_nextFragmentIdx ub = -1.
Proof.
  intros Hr Hh. destruct (reachable_Inv w Hr) as (free & chains & HS).
  destruct (Shares_lookup _ _ _ _ _ _ HS Hh) as (l & Hl & HQ).
  rewrite (Shares_segments _ _ _ _ _ _ _ HS Hh Hl).
  pose proof HS as (Hlen & _). destruct (pool w) as [d p]. simpl in *.
  destruct (Queue_back d p i l Hlen HQ) as (k & ub & ? & ? & ? & _ & _ & ?).
  by exists k, ub.
Qed.

Lemma back_fragment_is_last_witness :
  exists k,
    last (segments (pool world30) (Some 0%nat)) = Some k /\
    getBackFragment (Some 0%nat) (pool world30)
    = Some (Some k, pool world30, []).
Proof.
  destruct (back_fragment_is_last world30 0 0) as (k & ub & H1 & H2 & _).
  - exists (Create :: replicate 30 (Enqueue 0 5)). vm_compute. reflexivity.
  - vm_compute. reflexivity.
  - exists k. split; [exact H1 | exact H2].
Defined.

(** ** The queues as lists of bytes *)

Lemma step_frame w o w' free chains q' h l :
  Shares (pool w) (handles w) free chains ->
  step o w = Some w' -> op_queue o <> Some q' ->
  handles w !! q' = Some h -> chains !! q' = Some l ->
  exists free' chains',
    Shares (pool w') (handles w') free' chains' /\
    handles w' !! q' = Some h /\ chains' !! q' = Some l /\
    (forall j, j ∈ l -> data (pool w') !! j = data (pool w) !! j).
Proof.
  intros HS Hstep Hq' Hh Hl.
  destruct o as [|q byte|q|q]; simpl in Hq'.
  - destruct (step_create w free chains HS)
      as (w1 & h1 & free1 & l1 & Hs & Hhs & _ & HS1 & _ & Hfr & _).
    assert (w1 = w') as -> by congruence.
    exists free1, (chains ++ [l1]). split; [done|]. split.
    { rewrite Hhs. rewrite lookup_app_l; [done | by eapply lookup_lt_Some]. }
    split.
    { rewrite lookup_app_l; [done | by eapply lookup_lt_Some]. }
    intros j Hj. apply Hfr. intros Hin.
    pose proof (Shares_NoDup _ _ _ _ _ _ HS Hl) as Hnd.
    apply NoDup_app in Hnd as (_ & Hdisj & _).
    apply (Hdisj j Hin), elem_of_app. by left.
  - assert (Hne : q <> q') by congruence.
    destruct (handles w !! q) as [hq|] eqn:Hhq;
      [|simpl in Hstep; by rewrite Hhq in Hstep].
    destruct (Shares_lookup _ _ _ _ _ _ HS Hhq) as (lq & Hlq & _).
    destruct (step_enqueue w free chains q hq lq byte HS Hhq Hlq)
      as (w1 & h1 & free1 & l1 & Hs & Hhs & _ & HS1 & Hfr & _).
    assert (w1 = w') as -> by congruence.
    exists free1, (<[q := l1]> chains). split; [done|].
    rewrite Hhs, !list_lookup_insert_ne by done. do 2 (split; [done|]).
    intros j Hj. apply Hfr. by eapply (Shares_apart _ _ _ _ q lq q' l).
  - assert (Hne : q <> q') by congruence.
    destruct (handles w !! q) as [hq|] eqn:Hhq;
      [|simpl in Hstep; by rewrite Hhq in Hstep].
    destruct (Shares_lookup _ _ _ _ _ _ HS Hhq) as (lq & Hlq & _).
    destruct (step_dequeue w free chains q hq lq HS Hhq Hlq)
      as (w1 & r & h1 & free1 & l1 & Hs & Hhs & _ & HS1 & _ & Hfr & _).
    assert (w1 = w') as -> by congruence.
    exists free1, (<[q := l1]> chains). split; [done|].
    rewrite Hhs, !list_lookup_insert_ne by done. do 2 (split; [done|]).
    intros j Hj. apply Hfr. by eapply (Shares_apart _ _ _ _ q lq q' l).
  - assert (Hne : q <> q') by congruence.
    destruct (handles w !! q) as [hq|] eqn:Hhq;
      [|unfold step in Hstep; by rewrite Hhq in Hstep].
    destruct (Shares_lookup _ _ _ _ _ _ HS Hhq) as (lq & Hlq & _).
    destruct (step_destroy w free chains q hq lq HS Hhq Hlq)
      as (w1 & Hs & Hhs & _ & _ & HS1 & Hfr).
    assert (w1 = w') as -> by congruence.
    exists (reverse lq ++ free), (<[q := []]> chains). split; [done|].
    rewrite Hhs, !list_lookup_insert_ne by done. do 2 (split; [done|]).
    intros j Hj. apply Hfr. intros Hin.
    apply (Shares_apart _ _ _ _ q lq q' l j HS Hlq Hl); [done.. |].
    apply elem_of_app. by right.
Qed.

(** X8. Isolation: in every reachable state, an operation leaves every
    queue it is not applied to as it was: the same handle, the same
    fragments, unchanged, and so the same bytes. *)
Theorem other_queues_untouched w o w' q' h :
  reachable w -> step o w = Some w' -> op_queue o <> Some q' ->
  handles w !! q' = Some h ->
  handles w' !! q' = Some h /\
  segments (pool w') h = segments (pool w) h /\
  queue_bytes (pool w') h = queue_bytes (pool w) h /\
  (forall j, j ∈ segments (pool w) h ->
             data (pool w') !! j = data (pool w) !! j).
Proof.
  intros Hr Hstep Hq' Hh.
  destruct (reachable_Inv w Hr) as (free & chains & HS).
  destruct (Shares_lookup _ _ _ _ _ _ HS Hh) as (l & Hl & _).
  destruct (step_frame w o w' free chains q' h l HS Hstep Hq' Hh Hl)
    as (free' & chains' & HS' & Hh' & Hl' & Hfr).
  rewrite (Shares_queue_bytes _ _ _ _ _ _ _ HS' Hh' Hl').
  rewrite (Shares_queue_bytes _ _ _ _ _ _ _ HS Hh Hl).
  rewrite (Shares_segments _ _ _ _ _ _ _ HS' Hh' Hl').
  rewrite (Shares_segments _ _ _ _ _ _ _ HS Hh Hl).
  split_and!; try done. by apply contents_frame.
Qed.

Lemma other_queues_untouched_witness :
  exists w',
    step (Dequeue 1) world_mixed = Some w' /\
    handles w' !! 0%nat = Some (Some 0%nat) /\
    segments (pool w') (Some 0%nat) = segments (pool world_mixed) (Some 0%nat).
Proof.
  destruct (step (Dequeue 1) world_mixed) as [w'|] eqn:Hs;
    [|vm_compute in Hs; discriminate].
  destruct (other_queues_untouched world_mixed (Dequeue 1) w' 0 (Some 0%nat))
    as (H1 & H2 & _).
  - exists ([Create; Create; Create] ++ replicate 40 (Enqueue 1 9)
            ++ replicate 30 (Dequeue 1)). vm_compute. reflexivity.
  - exact Hs.
  - simpl. discriminate.
  - vm_compute. reflexivity.
  - exists w'. split; [reflexivity|]. split; [exact H1 | exact H2].
Defined.

(** X9. In every reachable state [enqueue_byte] is defined on every handle
    of the caller and appends: either the queue then holds its former bytes
    followed by the new byte (as an unsigned char) and nothing is printed,
    or no fragment is free, out of memory is reported and the pool and the
    handle are as before. With a free fragment it succeeds. *)
Theorem enqueue_appends w q h byte :
  reachable w -> handles w !! q = Some h ->
  exists w' h',
    step (Enqueue q byte) w = Some w' /\
    handles w' = <[q := h']> (handles w) /\
    dequeued w' = dequeued w /\
    (queue_bytes (pool w') h' = queue_bytes (pool w) h ++ [byte `mod` 256] /\
     stdout w' = stdout w
     \/
     free_list (pool w) = [] /\ pool w' = pool w /\ h' = h /\
     stdout w' = stdout w ++ [out_of_memory_msg]).
Proof.
  intros Hr Hh. destruct (reachable_Inv w Hr) as (free & chains & HS).
  destruct (Shares_lookup _ _ _ _ _ _ HS Hh) as (l & Hl & _).
  destruct (step_enqueue w free chains q h l byte HS Hh Hl)
    as (w' & h' & free' & l2 & Hs & Hhs & Hdq & HS' & _ & Hcase).
  exists w', h'. do 3 (split; [done|]).
  destruct Hcase as [(Hout & Hc & _)|(Hout & Hp & -> & _ & _ & -> & _)].
  - left. split; [|done].
    rewrite (Shares_queue_bytes _ _ _ _ _ _ _ HS Hh Hl), <- Hc.
    apply (Shares_queue_bytes _ _ _ _ q _ _ HS').
    + rewrite Hhs. apply list_lookup_insert_eq. by eapply lookup_lt_Some.
    + apply list_lookup_insert_eq. by eapply lookup_lt_Some.
  - right. by rewrite (Shares_free_list _ _ _ _ HS).
Qed.

Lemma enqueue_appends_witness :
  exists w' h',
    step (Enqueue 1 77) world_mixed = Some w' /\
    handles w' = <[1%nat := h']> (handles world_mixed) /\
    queue_bytes (pool w') h' = replicate 10 9 ++ [77].
Proof.
  destruct (enqueue_appends world_mixed 1 (Some 3%nat) 77)
    as (w' & h' & Hs & Hh & _ & [[Hb _]|[Hfree _]]).
  - exists ([Create; Create; Create] ++ replicate 40 (Enqueue 1 9)
            ++ replicate 30 (Dequeue 1)). vm_compute. reflexivity.
  - vm_compute. reflexivity.
  - exists w', h'. split; [exact Hs|]. split; [exact Hh|].
    rewrite Hb. vm_compute. reflexivity.
  - vm_compute in Hfree. discriminate.
Defined.

(** X10. In every reachable state [dequeue_byte] is defined on every handle
    of the caller and takes the oldest byte: when the queue holds bytes it
    returns the first, the queue holds the rest, nothing is printed, and the
    handle is null when no byte is left; when the queue holds no byte it
    returns 0, reports the empty queue and leaves the pool and the handle as
    they were. *)
Theorem dequeue_pops w q h :
  reachable w -> handles w !! q = Some h ->
  exists w' r h',
    step (Dequeue q) w = Some w' /\
    handles w' = <[q := h']> (handles w) /\
    dequeued w' = dequeued w ++ [r] /\
    match queue_bytes (pool w) h with
    | [] =>
        r = 0 /\ pool w' = pool w /\ h' = h /\
        stdout w' = stdout w ++ [queue_empty_msg]
    | x :: rest =>
        r = x /\ queue_bytes (pool w') h' = rest /\ stdout w' = stdout w /\
        (rest = [] -> h' = None)
    end.
Proof.
  intros Hr Hh. destruct (reachable_Inv w Hr) as (free & chains & HS).
  destruct (Shares_lookup _ _ _ _ _ _ HS Hh) as (l & Hl & _).
  destruct (step_dequeue w free chains q h l HS Hh Hl)
    as (w' & r & h' & free' & l2 & Hs & Hhs & Hdq & HS' & _ & _ & Hcase).
  exists w', r, h'. do 3 (split; [done|]).
  rewrite (Shares_queue_bytes _ _ _ _ _ _ _ HS Hh Hl).
  assert (Hb' : queue_bytes (pool w') h' = contents (data (pool w')) l2).
  { apply (Shares_queue_bytes _ _ _ _ q _ _ HS').
    - rewrite Hhs. apply list_lookup_insert_eq. by eapply lookup_lt_Some.
    - apply list_lookup_insert_eq. by eapply lookup_lt_Some. }
  destruct Hcase as [(Hout & -> & Hc & Hp & -> & _)|(Hout & Hc & Hnone)].
  - by rewrite Hc.
  - rewrite Hc, Hb'. by split_and!.
Qed.

Lemma dequeue_pops_witness :
  exists w' h',
    step (Dequeue 1) world_mixed = Some w' /\
    dequeued w' = dequeued world_mixed ++ [9] /\
    queue_bytes (pool w') h' = replicate 9 9.
Proof.
  destruct (dequeue_pops world_mixed 1 (Some 3%nat))
    as (w' & r & h' & Hs & _ & Hdq & Hcase).
  - exists ([Create; Create; Create] ++ replicate 40 (Enqueue 1 9)
            ++ replicate 30 (Dequeue 1)). vm_compute. reflexivity.
  - vm_compute. reflexivity.
  - assert (Hq : queue_bytes (pool world_mixed) (Some 3%nat)
                 = 9 :: replicate 9 9) by (vm_compute; reflexivity).
    rewrite Hq in Hcase. destruct Hcase as (-> & Hrest & _).
    exists w', h'. split; [exact Hs|]. split; [exact Hdq | exact Hrest].
Defined.

(** ** Bytes and fragments *)

Lemma live_length_unread u :
  length (bytes u) = 28%nat -> m_frontItemIdx u = -1 ->
  0 <= m_backItemIdx u <= 27 ->
  length (live u) = Z.to_nat (m_backItemIdx u + 1).
Proof.
  intros Hlen Hf Hb. unfold live. rewrite length_take, length_drop, Hf. lia.
Qed.

Lemma Tail_contents_ge d nx l :
  Tail d nx l -> l <> [] ->
  (28 * (length l - 1) + 1 <= length (contents d l))%nat.
Proof.
  revert nx. induction l as [|i l IH]; simpl; intros nx H Hne; [done|].
  destruct H as (-> & u & Hu & Hlen & Hf & Hb & Hfull & H).
  rewrite contents_cons, length_app, (live_at_used _ _ _ Hu).
  rewrite (live_length_unread u Hlen Hf Hb).
  destruct l as [|j l]; [simpl; lia|].
  rewrite Hfull by done. specialize (IH _ H ltac:(done)). simpl in *. lia.
Qed.

Lemma Queue_contents_ge d i l' :
  Queue d (Some i) (i :: l') -> l' <> [] ->
  (28 * (length l' - 1) + 2 <= length (contents d (i :: l')))%nat.
Proof.
  simpl. intros (_ & u & Hu & Hlen & _ & Hfull & Hidx & Ht) Hne.
  rewrite contents_cons, length_app, (live_at_used _ _ _ Hu).
  pose proof (Tail_contents_ge _ _ _ Ht Hne).
  specialize (Hfull Hne). destruct Hidx as [(_ & _ & ->)|[Hf Hb]]; [done|].
  assert (1 <= length (live u))%nat; [|lia].
  unfold live. rewrite length_take, length_drop. lia.
Qed.

(** X11. In every reachable state a queue wastes little space: a queue of
    [k] fragments holds at most [28 * k] bytes and, when [k] is at least 2,
    at least [28 * (k - 2) + 2] bytes (every fragment between the first and
    the last is full, the first and the last hold at least one byte each);
    a queue that holds no byte has at most one fragment. *)
Theorem fragments_per_queue w q h :
  reachable w -> handles w !! q = Some h ->
  (length (queue_bytes (pool w) h)
   <= 28 * length (segments (pool w) h))%nat /\
  (28 * length (segments (pool w) h)
   <= length (queue_bytes (pool w) h) + 54)%nat /\
  (queue_bytes (pool w) h = [] -> (length (segments (pool w) h) <= 1)%nat).
Proof.
  intros Hr Hh. destruct (reachable_Inv w Hr) as (free & chains & HS).
  destruct (Shares_lookup _ _ _ _ _ _ HS Hh) as (l & Hl & HQ).
  rewrite (Shares_queue_bytes _ _ _ _ _ _ _ HS Hh Hl).
  rewrite (Shares_segments _ _ _ _ _ _ _ HS Hh Hl).
  split; [by eapply Queue_contents_le|]. split.
  - destruct l as [|i [|n l'']]; [simpl; lia | simpl; lia |].
    pose proof HQ as (-> & _).
    pose proof (Queue_contents_ge _ _ _ HQ ltac:(done)) as Hge.
    simpl in *. lia.
  - intros Hc. destruct h as [i|].
    + destruct (Queue_no_bytes _ _ _ HQ Hc) as (-> & _). done.
    + destruct l; [simpl; lia | by destruct HQ].
Qed.

Lemma fragments_per_queue_witness :
  (length (queue_bytes (pool world30) (Some 0%nat))
   <= 28 * length (segments (pool world30) (Some 0%nat)))%nat /\
  (28 * length (segments (pool world30) (Some 0%nat))
   <= length (queue_bytes (pool world30) (Some 0%nat)) + 54)%nat.
Proof.
  destruct (fragments_per_queue world30 0 (Some 0%nat)) as (H1 & H2 & _).
  - exists (Create :: replicate 30 (Enqueue 0 5)). vm_compute. reflexivity.
  - vm_compute. reflexivity.
  - split; [exact H1 | exact H2].
Defined.

Lemma enqueue_byte_shape d p free h l byte :
  length d = 64%nat -> FreeList d p free -> Queue d h l -> NoDup (free ++ l) ->
  exists h' d' p' free' l2 o,
    enqueue_byte h byte (mkPool d p) = Some (h', mkPool d' p', o) /\
    length d' = 64%nat /\ FreeList d' p' free' /\ Queue d' h' l2 /\
    (l2 = l /\ free' = free \/ exists a, free = a :: free' /\ l2 = l ++ [a]) /\
    (forall j, j ∉ free ++ l -> d' !! j = d !! j).
Proof.
  intros Hlen HF HQ Hnd. destruct l as [|i l'].
  - simpl in HQ. subst h. rewrite app_nil_r in Hnd.
    destruct free as [|a free'].
    + simpl in HF. subst p. exists None, d, None, [], [], [out_of_memory_msg].
      do 4 (split; [done|]). split; [by left | done].
    + destruct HF as (-> & q & Ha & HF).
      apply NoDup_cons in Hnd as [Haf Hndf].
      pose proof (lookup_lt_Some _ _ _ Ha) as Halt.
      pose proof (create_queue_run d a q Hlen Ha) as Hc.
      name_data Hc d1.
      assert (Hfr1 : forall j, j <> a -> d1 !! j = d !! j).
      { intros j ?. unfold d1. by rewrite list_lookup_insert_ne. }
      assert (HF1 : FreeList d1 q free').
      { eapply FreeList_frame; [|done]. intros j Hj. apply Hfr1.
        by intros ->. }
      assert (Hnd1 : NoDup (free' ++ [a])).
      { apply NoDup_app. split_and!; [done | | apply NoDup_singleton].
        intros j Hj Hja. apply list_elem_of_singleton in Hja. by subst. }
      assert (Hlen1 : length d1 = 64%nat)
        by (unfold d1; by rewrite length_insert).
      destruct (enqueue_byte_at_spec d1 q free' a [] byte Hlen1 HF1
                  (Queue_fresh d a Halt) Hnd1)
        as (d' & p' & free2 & l2 & o & Hrun & Hlen' & HF' & HQ' & Hperm
            & Hfr & Hcase).
      assert (Hc0 : contents d1 [a] = []).
      { unfold contents, d1. simpl. unfold live_at.
        by rewrite list_lookup_insert_eq. }
      assert (Hfi : front_idx d1 (Some a) = -1).
      { unfold d1. simpl. by rewrite list_lookup_insert_eq. }
      exists (Some a), d', p', free2, l2, o. split.
      { unfold enqueue_byte. rewrite (run_bind _ _ _ _ _ Hc). exact Hrun. }
      do 3 (split; [done|]). split.
      { right. exists a.
        destruct Hcase as [(_ & Hcont & _ & [[-> ->]|(a' & -> & ->)])
                          |(_ & _ & _ & _ & _ & _ & Hlenc)].
        - done.
        - exfalso. rewrite Hc0 in Hcont.
          pose proof (Queue_contents_ge _ _ _ HQ' ltac:(done)) as Hge.
          simpl in Hcont. rewrite Hcont in Hge. simpl in Hge. lia.
        - rewrite Hc0, Hfi in Hlenc. simpl in Hlenc. lia. }
      intros j Hj. rewrite app_nil_r in Hj. rewrite Hfr.
      * apply Hfr1. intros ->. apply Hj. left.
      * intros Hin. apply Hj. apply elem_of_app in Hin as [Hin|Hin].
        -- by right.
        -- apply list_elem_of_singleton in Hin. subst. left.
  - pose proof HQ as (-> & _).
    destruct (enqueue_byte_at_spec d p free i l' byte Hlen HF HQ Hnd)
      as (d' & p' & free2 & l2 & o & Hrun & Hlen' & HF' & HQ' & Hperm
          & Hfr & Hcase).
    exists (Some i), d', p', free2, l2, o.
    do 4 (split; [done|]). split; [|done].
    destruct Hcase as [(_ & _ & _ & Hshape)|(_ & _ & _ & -> & -> & _)];
      [done | by left].
Qed.

(** X12. In every reachable state an operation changes the number of
    fragments in use by at most one, [destroy_queue] aside: [create_queue]
    and [enqueue_byte] never free a fragment and take at most one,
    [dequeue_byte] never takes a fragment and frees at most one, and
    [destroy_queue] frees exactly the fragments of its queue. *)
Theorem fragment_accounting w o w' :
  reachable w -> step o w = Some w' ->
  match o with
  | Create | Enqueue _ _ =>
      (in_use w <= in_use w' <= in_use w + 1)%nat
  | Dequeue _ =>
      (in_use w' <= in_use w <= in_use w' + 1)%nat
  | Destroy q =>
      forall h, handles w !! q = Some h ->
        (in_use w' + length (segments (pool w) h) = in_use w)%nat
  end.
Proof.
  intros Hr Hstep. destruct (reachable_Inv w Hr) as (free & chains & HS).
  pose proof (Shares_in_use _ _ _ HS) as Hu.
  destruct o as [|q byte|q|q].
  - destruct (step_create w free chains HS)
      as (w1 & h1 & free1 & l1 & Hs & Hhs & _ & HS1 & Hperm & _ & Hcase).
    assert (w1 = w') as -> by congruence.
    pose proof (Shares_in_use _ _ _ HS1) as Hu1.
    apply Permutation_length in Hperm. rewrite length_app in Hperm.
    assert (length l1 <= 1)%nat; [|lia].
    pose proof HS as (_ & _ & HQ & _).
    pose proof (Forall2_length _ _ _ HQ) as Hlen.
    assert (Hh1 : handles w' !! length (handles w) = Some h1).
    { by rewrite Hhs, lookup_app_r, Nat.sub_diag. }
    assert (Hl1 : (chains ++ [l1]) !! length (handles w) = Some l1).
    { by rewrite lookup_app_r, Hlen, Nat.sub_diag by lia. }
    destruct (Shares_lookup _ _ _ _ _ _ HS1 Hh1) as (l1' & Hl1' & HQ1).
    assert (l1' = l1) as -> by congruence.
    destruct Hcase as [(_ & -> & _)|(Hne & _ & Hb)].
    + destruct l1; [simpl; lia | by destruct HQ1].
    + destruct h1 as [i|]; [|done].
      rewrite (Shares_queue_bytes _ _ _ _ _ _ _ HS1 Hh1 Hl1) in Hb.
      by destruct (Queue_no_bytes _ _ _ HQ1 Hb) as (-> & _).
  - destruct (handles w !! q) as [h|] eqn:Hh;
      [|simpl in Hstep; by rewrite Hh in Hstep].
    destruct (Shares_lookup _ _ _ _ _ _ HS Hh) as (l & Hl & HQ).
    destruct w as [[d p] hs dq out]. simpl in *.
    pose proof HS as (Hlen & HF & _). simpl in Hlen, HF.
    destruct (enqueue_byte_shape d p free h l (to_uchar byte) Hlen HF HQ
                (Shares_NoDup_local _ _ _ _ _ _ HS Hl))
      as (h' & d' & p' & free' & l2 & o & Hrun & Hlen' & HF' & HQ' & Hshape
          & Hfr).
    rewrite Hh in Hstep. simpl in Hstep. rewrite Hrun in Hstep.
    simpl in Hstep. inversion Hstep; subst w'. clear Hstep.
    assert (HS' : Shares (mkPool d' p') (<[q := h']> hs) free'
                    (<[q := l2]> chains)).
    { eapply Shares_update; try done.
      destruct Hshape as [[-> ->]|(a & -> & ->)]; [done|].
      apply Permutation_grow. }
    pose proof (Shares_in_use (mkWorld (mkPool d' p') (<[q := h']> hs) dq
                                 (out ++ o)) _ _ HS') as Hu'.
    destruct Hshape as [[-> ->]|(a & -> & ->)]; simpl in *; lia.
  - destruct (handles w !! q) as [h|] eqn:Hh;
      [|simpl in Hstep; by rewrite Hh in Hstep].
    destruct (Shares_lookup _ _ _ _ _ _ HS Hh) as (l & Hl & HQ).
    destruct w as [[d p] hs dq out]. simpl in *.
    pose proof HS as (Hlen & HF & _). simpl in Hlen, HF.
    destruct (dequeue_byte_shape d p free h l Hlen HF HQ
                (Shares_NoDup_local _ _ _ _ _ _ HS Hl))
      as (r & h' & d' & p' & free' & l2 & o & Hrun & Hlen' & HF' & HQ'
          & Hshape & Hfr & _).
    rewrite Hh in Hstep. simpl in Hstep. rewrite Hrun in Hstep.
    simpl in Hstep. inversion Hstep; subst w'. clear Hstep.
    assert (HS' : Shares (mkPool d' p') (<[q := h']> hs) free'
                    (<[q := l2]> chains)).
    { eapply Shares_update; try done.
      destruct Hshape as [[-> ->]|(i & -> & ->)]; [done|].
      apply (Permutation_middle free l2 i). }
    pose proof (Shares_in_use (mkWorld (mkPool d' p') (<[q := h']> hs)
                                 (dq ++ [r]) (out ++ o)) _ _ HS') as Hu'.
    destruct Hshape as [[-> ->]|(i & -> & ->)]; simpl in *; lia.
  - intros h Hh.
    destruct (Shares_lookup _ _ _ _ _ _ HS Hh) as (l & Hl & HQ).
    destruct (step_destroy w free chains q h l HS Hh Hl)
      as (w1 & Hs & _ & _ & _ & HS1 & _).
    assert (w1 = w') as -> by congruence.
    pose proof (Shares_in_use _ _ _ HS1) as Hu1.
    rewrite (Shares_segments _ _ _ _ _ _ _ HS Hh Hl).
    rewrite length_app, length_reverse in Hu1. lia.
Qed.

Lemma fragment_accounting_witness :
  exists w',
    step (Dequeue 1) world_mixed = Some w' /\
    (in_use w' <= in_use world_mixed <= in_use w' + 1)%nat.
Proof.
  destruct (step (Dequeue 1) world_mixed) as [w'|] eqn:Hs;
    [|vm_compute in Hs; discriminate].
  exists w'. split; [reflexivity|].
  apply (fragment_accounting world_mixed (Dequeue 1) w'); [|exact Hs].
  exists ([Create; Create; Create] ++ replicate 40 (Enqueue 1 9)
          ++ replicate 30 (Dequeue 1)). vm_compute. reflexivity.
Defined.

(** ** create_queue and the order of allocation *)

Lemma create_first_free s hs free chains a rest :
  Shares s hs free chains -> free = a :: rest ->
  exists s',
    create_queue s = Some (Some a, s', []) /\
    free_list s' = rest /\
    segments s' (Some a) = [a] /\
    queue_bytes s' (Some a) = [] /\
    (forall j, j <> a -> data s' !! j = data s !! j) /\
    dequeue_byte (Some a) s' = Some ((0, Some a), s', [queue_empty_msg]).
Proof.
  intros HS ->. pose proof (Shares_length _ _ _ _ HS) as Hl64.
  pose proof HS as (Hlen & HF & _ & Hperm).
  assert (Hnd : NoDup ((a :: rest) ++ concat chains))
    by (rewrite Hperm; exact (NoDup_seq 0 64)).
  apply NoDup_app in Hnd as (Hnd & _ & _).
  apply NoDup_cons in Hnd as [Har _].
  destruct s as [d p]. simpl in *. destruct HF as (-> & q & Ha & HF).
  pose proof (lookup_lt_Some _ _ _ Ha) as Halt.
  pose proof (create_queue_run d a q Hlen Ha) as Hrun.
  name_data Hrun d'.
  assert (Ha' : d' !! a = Some (whenUsed (mkWhenUsed (Z.of_nat a) (-1) (-1)
                                            (-1) (replicate 28 0))))
    by (unfold d'; by apply list_lookup_insert_eq).
  exists (mkPool d' q). split; [done|]. split.
  { apply free_walk_FreeList; [|lia].
    eapply FreeList_frame; [|done]. intros j Hj. unfold d'.
    apply list_lookup_insert_ne. by intros ->. }
  split.
  { apply seg_walk_Queue; [by apply Queue_fresh | simpl; lia]. }
  split.
  { unfold queue_bytes.
    replace (segments (mkPool d' q) (Some a)) with [a]
      by (symmetry; apply seg_walk_Queue;
          [by apply Queue_fresh | simpl; lia]).
    unfold contents. simpl. by rewrite (live_at_used _ _ _ Ha'). }
  split.
  { intros j Hj. unfold d'. by apply list_lookup_insert_ne. }
  apply (dequeue_empty_run d' q a _ Ha'). by left.
Qed.

(** X13. In every reachable state with a free fragment, [create_queue]
    returns the first fragment of the free list and prints nothing; the
    free list loses this fragment, the other fragments are unchanged, and
    the new queue is this single fragment and holds no byte: a
    [dequeue_byte] on it reports the empty queue, returns 0 and leaves the
    fragment allocated. *)
Theorem create_queue_takes_first_free w a rest :
  reachable w -> free_list (pool w) = a :: rest ->
  exists s',
    create_queue (pool w) = Some (Some a, s', []) /\
    free_list s' = rest /\
    segments s' (Some a) = [a] /\
    queue_bytes s' (Some a) = [] /\
    (forall j, j <> a -> data s' !! j = data (pool w) !! j) /\
    dequeue_byte (Some a) s' = Some ((0, Some a), s', [queue_empty_msg]).
Proof.
  intros Hr Hfree. destruct (reachable_Inv w Hr) as (free & chains & HS).
  rewrite (Shares_free_list _ _ _ _ HS) in Hfree.
  by eapply create_first_free.
Qed.

Lemma create_queue_takes_first_free_witness :
  exists s',
    create_queue (pool world30) = Some (Some 2%nat, s', []) /\
    segments s' (Some 2%nat) = [2%nat].
Proof.
  destruct (create_queue_takes_first_free world30 2 (seq 3 61))
    as (s' & H1 & _ & H2 & _).
  - exists (Create :: replicate 30 (Enqueue 0 5)). vm_compute. reflexivity.
  - vm_compute. reflexivity.
  - exists s'. split; [exact H1 | exact H2].
Defined.

(** X14. From the initial pool, calls of [create_queue] hand out the
    fragments in ascending order: for every [k] up to 64, [k] calls return
    the fragments 0, ..., k-1 without a message and leave k, ..., 63 on the
    free list; the 65th call returns the null handle and reports out of
    memory. *)
Theorem fresh_pool_allocation_order k :
  (k <= 64)%nat ->
  (exists w,
     run (replicate k Create) world0 = Some w /\
     handles w = map Some (seq 0 k) /\
     free_list (pool w) = seq k (64 - k) /\
     stdout w = []) /\
  (exists w,
     run (replicate 65 Create) world0 = Some w /\
     handles w !! 64%nat = Some None /\
     stdout w = [out_of_memory_msg]).
Proof.
  intros Hk. split; [|eexists; by vm_compute].
  induction k as [|k IH].
  - exists world0. by vm_compute.
  - destruct IH as (w & Hrun & Hh & Hfree & Hout); [lia|].
    assert (Hr : reachable w) by (by exists (replicate k Create)).
    destruct (reachable_Inv w Hr) as (free & chains & HS).
    assert (Hseq : seq k (64 - k) = k :: seq (S k) (64 - S k)).
    { replace (64 - k)%nat with (S (64 - S k)) by lia. reflexivity. }
    rewrite Hseq in Hfree.
    rewrite (Shares_free_list _ _ _ _ HS) in Hfree.
    destruct (create_first_free _ _ _ _ k _ HS Hfree)
      as (s' & Hc & Hfree' & _).
    exists (mkWorld s' (handles w ++ [Some k]) (dequeued w) (stdout w ++ [])).
    rewrite replicate_S_end, run_app, Hrun.
    cbn [mbind option_bind run step]. rewrite Hc.
    cbn [mbind option_bind pool handles dequeued stdout].
    split; [done|]. split; [|split; [done|]].
    + by rewrite Hh, seq_S, map_app.
    + by rewrite Hout.
Qed.

Lemma fresh_pool_allocation_order_witness :
  exists w,
    run (replicate 64 Create) world0 = Some w /\
    handles w = map Some (seq 0 64) /\
    free_list (pool w) = [].
Proof.
  destruct (proj1 (fresh_pool_allocation_order 64 ltac:(lia)))
    as (w & H1 & H2 & H3 & _).
  exists w. split; [exact H1|]. split; [exact H2 | exact H3].
Defined.

(** ** When enqueue_byte fails *)

Lemma silent_enqueue_rest front currentBack byte :
  silent (f <- getFrontItemIdx front ;;
    if decide (f = -1) then
      setFrontItemIdx front 0 ;;
      setBackItemIdx front 0 ;;
      setByte front 0 byte ;;
      ret front
    else
      incrementBackItemIdx currentBack ;;
      idx <- getBackItemIdx currentBack ;;
      setByte currentBack idx byte ;;
      ret front).
Proof.
  assert (Hset : forall this idx, silent (setByte this idx byte)).
  { intros this idx. unfold setByte.
    case_decide; [apply silent_update_whenUsed | by intros s a s' o]. }
  apply silent_bind; [auto with quiet|]. intros f. case_decide.
  - apply silent_bind; [apply silent_update_whenUsed|]. intros _.
    apply silent_bind; [apply silent_update_whenUsed|]. intros _.
    apply silent_bind; [apply Hset|]. intros _. auto with quiet.
  - apply silent_bind; [apply silent_update_whenUsed|]. intros _.
    apply silent_bind; [auto with quiet|]. intros idx.
    apply silent_bind; [apply Hset|]. intros _. auto with quiet.
Qed.

(** X15. In every reachable state [enqueue_byte] reports out of memory
    exactly when no fragment is free and the call needs one, that is, the
    handle is null or the back fragment is full; in every other case it
    prints nothing. *)
Theorem enqueue_fails_iff w q h byte w' :
  reachable w -> handles w !! q = Some h ->
  step (Enqueue q byte) w = Some w' ->
  (stdout w' = stdout w ++ [out_of_memory_msg] <->
   free_list (pool w) = [] /\ (h = None \/ back_is_full h (pool w))) /\
  (stdout w' = stdout w \/ stdout w' = stdout w ++ [out_of_memory_msg]).
Proof.
  intros Hr Hh Hstep. destruct (reachable_Inv w Hr) as (free & chains & HS).
  destruct (Shares_lookup _ _ _ _ _ _ HS Hh) as (l & Hl & HQ).
  destruct (step_enqueue w free chains q h l byte HS Hh Hl)
    as (w1 & h1 & free1 & l1 & Hs & _ & _ & _ & _ & Hcase).
  assert (w1 = w') as -> by congruence.
  rewrite (Shares_free_list _ _ _ _ HS).
  split; [|destruct Hcase as [(? & _)|(? & _)]; [by left | by right]].
  destruct w as [[d p] hs dq out]. simpl in *.
  pose proof HS as (Hlen & HF & _). simpl in Hlen, HF.
  rewrite Hh in Hstep. simpl in Hstep.
  destruct (enqueue_byte h (to_uchar byte) (mkPool d p))
    as [[[h2 s2] o]|] eqn:Hrun; [|done].
  simpl in Hstep. inversion Hstep; subst w'. simpl in *. clear Hstep Hs.
  split.
  - intros Hout. apply app_inv_head in Hout. subst o.
    destruct Hcase as [(Hout & _)|(_ & _ & _ & _ & _ & -> & _)].
    { apply (f_equal length) in Hout. rewrite length_app in Hout.
      simpl in Hout. lia. }
    split; [done|]. destruct h as [i|]; [right | by left].
    destruct (Queue_back d p i l Hlen HQ)
      as (k & ub & _ & Hback & Hub & _ & Hubb & _).
    unfold back_is_full. rewrite (run_bind _ _ _ _ _ Hback).
    rewrite (isBackItemAtEnd_run _ _ _ _ Hub).
    case_bool_decide as Hfull; [done|]. exfalso.
    unfold enqueue_byte, enqueue_byte_at in Hrun.
    rewrite (run_bind _ _ _ _ _ Hback) in Hrun.
    rewrite (run_bind _ _ _ _ _ (isBackItemAtEnd_run _ _ _ _ Hub)) in Hrun.
    rewrite bool_decide_eq_false_2 in Hrun by done.
    by apply silent_enqueue_rest in Hrun.
  - intros [-> Hneed]. simpl in HF. subst p. f_equal.
    destruct Hneed as [->|Hfull].
    + rewrite enqueue_byte_null_oom in Hrun. by inversion Hrun.
    + rewrite (enqueue_byte_full_oom _ _ _ Hfull) in Hrun. by inversion Hrun.
Qed.

Lemma enqueue_fails_iff_witness :
  exists w',
    step (Enqueue 64 1) world65 = Some w' /\
    stdout w' = stdout world65 ++ [out_of_memory_msg].
Proof.
  destruct (step (Enqueue 64 1) world65) as [w'|] eqn:Hs;
    [|vm_compute in Hs; discriminate].
  exists w'. split; [reflexivity|].
  apply (proj1 (enqueue_fails_iff world65 64 None 1 w'
                  ltac:(exists (replicate 65 Create); vm_compute; reflexivity)
                  ltac:(vm_compute; reflexivity) Hs)).
  split; [vm_compute; reflexivity | by left].
Defined.

(** ** The test for an empty queue and the change of the front *)

Lemma Tail_unread d nx l i u :
  Tail d nx l -> i ∈ l -> d !! i = Some (whenUsed u) -> m_frontItemIdx u = -1.
Proof.
  revert nx. induction l as [|j l IH]; simpl; intros nx H Hi Hu.
  - by apply elem_of_nil in Hi.
  - destruct H as (-> & u' & Hu' & _ & Hf & _ & _ & H).
    apply elem_of_cons in Hi as [->|Hi]; [congruence | eauto].
Qed.

Lemma Queue_order d h l i u :
  Queue d h l -> i ∈ l -> d !! i = Some (whenUsed u) ->
  m_frontItemIdx u = -1 \/ 0 <= m_frontItemIdx u <= m_backItemIdx u.
Proof.
  destruct l as [|j l]; simpl; intros H Hi Hu.
  - by apply elem_of_nil in Hi.
  - destruct H as (-> & u' & Hu' & _ & _ & _ & Hidx & H).
    apply elem_of_cons in Hi as [->|Hi].
    + assert (u' = u) as -> by congruence.
      destruct Hidx as [(? & _)|[? _]]; [by left | by right].
    + left. by eapply Tail_unread.
Qed.

(** X16. In every reachable state [isEmpty] on the front fragment of a
    queue is defined and true exactly when the queue holds no byte; and at
    that point its second test never decides: no fragment in use with a
    front item index other than -1 has its back item index below its front
    item index. *)
Theorem isEmpty_on_front w q i :
  reachable w -> handles w !! q = Some (Some i) ->
  (exists e,
     isEmpty (Some i) (pool w) = Some (e, pool w, []) /\
     (e = true <-> queue_bytes (pool w) (Some i) = [])) /\
  (forall j u,
     data (pool w) !! j = Some (whenUsed u) -> m_frontItemIdx u <> -1 ->
     ~ m_backItemIdx u < m_frontItemIdx u).
Proof.
  intros Hr Hh. destruct (reachable_Inv w Hr) as (free & chains & HS).
  split.
  - destruct (Shares_lookup _ _ _ _ _ _ HS Hh) as (l & Hl & HQ).
    rewrite (Shares_queue_bytes _ _ _ _ _ _ _ HS Hh Hl).
    destruct l as [|i' l']; [done|]. pose proof HQ as HQ0. simpl in HQ.
    destruct HQ as ([= <-] & u & Hu & Hbl & _ & _ & Hidx & _).
    exists (bool_decide (logically_empty u)). split.
    + destruct (pool w) as [d p]. by apply isEmpty_run.
    + rewrite bool_decide_eq_true. unfold logically_empty. split.
      * intros He. destruct Hidx as [(Hf & Hb & ->)|[Hf Hb]]; [|lia].
        unfold contents. simpl. rewrite (live_at_used _ _ _ Hu).
        unfold live. by rewrite Hf, Hb.
      * intros Hc.
        destruct (Queue_no_bytes _ _ _ HQ0 Hc) as (_ & u' & Hu' & ? & _).
        assert (u' = u) as -> by congruence. by left.
  - intros j u Hu Hf.
    destruct (used_in_queue _ _ _ _ _ _ HS Hu) as (q' & h & l & _ & _ & HQ & Hj).
    destruct (Queue_order _ _ _ _ _ HQ Hj Hu); lia.
Qed.

Lemma isEmpty_on_front_witness :
  exists e,
    isEmpty (Some 0%nat) (pool world_created)
    = Some (e, pool world_created, []) /\
    (e = true <-> queue_bytes (pool world_created) (Some 0%nat) = []).
Proof.
  apply (proj1 (isEmpty_on_front world_created 0 0
                  ltac:(exists [Create]; vm_compute; reflexivity)
                  ltac:(vm_compute; reflexivity))).
Defined.

(** X17. In every reachable state, when the front item index of the front
    fragment is 27 and the fragment has a next fragment, [dequeue_byte]
    returns the byte at position 27 and prints nothing, the handle becomes
    the next fragment, which inherits the cached back index and gets front
    item index 0, the old front becomes the first fragment of the free
    list, and the queue is made of the remaining fragments. *)
Theorem dequeue_promotes_next w q i u n :
  reachable w -> handles w !! q = Some (Some i) ->
  data (pool w) !! i = Some (whenUsed u) ->
  m_frontItemIdx u = 27 -> m_nextFragmentIdx u = Z.of_nat n ->
  exists x s' un,
    bytes u !! 27%nat = Some x /\
    dequeue_byte (Some i) (pool w) = Some ((x, Some n), s', []) /\
    data s' !! n = Some (whenUsed un) /\
    m_backFragmentIdx un = m_backFragmentIdx u /\ m_frontItemIdx un = 0 /\
    free_list s' = i :: free_list (pool w) /\
    segments (pool w) (Some i) = i :: segments s' (Some n).
Proof.
  intros Hr Hh Hu H27 Hn. destruct (reachable_Inv w Hr) as (free & chains & HS).
  destruct (Shares_lookup _ _ _ _ _ _ HS Hh) as (l & Hl & HQ).
  rewrite (Shares_segments _ _ _ _ _ _ _ HS Hh Hl).
  rewrite (Shares_free_list _ _ _ _ HS).
  pose proof (Shares_chain_length _ _ _ _ _ _ HS Hl) as Hll.
  pose proof (Shares_NoDup_local _ _ _ _ _ _ HS Hl) as Hnd.
  destruct (pool w) as [d p]. pose proof HS as (Hlen & HF & _). simpl in *.
  destruct (dequeue_byte_shape d p free (Some i) l Hlen HF HQ Hnd)
    as (r & h' & d' & p' & free' & l2 & o & Hrun & Hlen' & HF' & HQ' & Hshape
        & _).
  destruct l as [|i' l']; [done|]. simpl in HQ.
  destruct HQ as ([= <-] & u0 & Hu0 & Hbl & _ & _ & Hidx & Ht).
  assert (u0 = u) as -> by congruence.
  destruct Hidx as [(? & _)|[Hf Hb]]; [lia|].
  destruct l' as [|n' l'']; simpl in Ht; [lia|].
  destruct Ht as (Hn' & un & Hun & _).
  assert (n' = n) as -> by lia.
  assert (Hni : n <> i).
  { intros ->. apply NoDup_app in Hnd as (_ & _ & Hnd).
    apply NoDup_cons in Hnd as [Hnd _]. apply Hnd. left. }
  destruct (lookup_lt_is_Some_2 (bytes u) (Z.to_nat (m_frontItemIdx u)))
    as [x Hx]; [lia|].
  pose proof (dequeue_promote_run d p i u Hu x Hf Hb Hx n un H27 Hn Hun Hni
                Hlen) as Hp.
  rewrite Hp in Hrun. inversion Hrun; subst r h' d' p' o. clear Hrun.
  destruct Hshape as [[_ ->]|(i0 & -> & [= <- <-])].
  { simpl in HQ'. destruct HQ' as [[=] _]. done. }
  eexists x, _, _. split; [by rewrite H27 in Hx|]. split; [exact Hp|].
  simpl. split.
  { rewrite list_lookup_insert_ne by done.
    apply list_lookup_insert_eq. by eapply lookup_lt_Some. }
  simpl. do 2 (split; [done|]). split.
  - apply free_walk_FreeList; [done | simpl in *; lia].
  - f_equal. symmetry. apply seg_walk_Queue; [done | simpl in *; lia].
Qed.

Lemma dequeue_promotes_next_witness :
  exists s',
    dequeue_byte (Some 0%nat)
      (pool (default world0 (run (replicate 27 (Dequeue 0)) world30)))
    = Some ((5, Some 1%nat), s', []) /\
    free_list s' = 0%nat :: seq 2 62.
Proof.
  destruct (dequeue_promotes_next
              (default world0 (run (replicate 27 (Dequeue 0)) world30))
              0 0 (mkWhenUsed 1 1 27 27 (replicate 28 5)) 1)
    as (x & s' & un & Hx & Hrun & _ & _ & _ & Hfree & _).
  - exists (Create :: replicate 30 (Enqueue 0 5) ++ replicate 27 (Dequeue 0)).
    vm_compute. reflexivity.
  - vm_compute. reflexivity.
  - vm_compute. reflexivity.
  - reflexivity.
  - reflexivity.
  - exists s'. vm_compute in Hx. inversion Hx; subst x.
    split; [exact Hrun|]. rewrite Hfree. vm_compute. reflexivity.
Defined.
